(** * QuantumChat: session registry, key exchange and encrypted relay

    A shallow embedding of the coordination core of the repository:
    - [quantum-crypto.js]  (class [QuantumCrypto]): key exchange, XOR stream
      cipher with hex wire encoding, keyed-hash signatures;
    - the browser client's [ClientQuantumCrypto.performKeyExchange];
    - [src/backend/server.js]: the session registry ([clients]) and the
      message handlers of the relay.

    Runtime primitives of Node.js that the code calls ([Buffer], the UTF-8
    codec, SHA-256, HMAC) are modelled as executable functions in the first
    modules; the repository's own functions follow, under their own names. *)

From Stdlib Require Import ZArith NArith List Lia Bool.
From Stdlib.Strings Require Import Byte.
From stdpp Require Import base option list gmap strings.
Import ListNotations.

Set Default Proof Using "Type".

(** ** JavaScript values shared by all modules *)

(** A JavaScript string is a sequence of UTF-16 code units.  Strings whose
    content is transformed by the code (plaintext, hex text, public keys) are
    kept in this form; identifiers that are only compared or used as [Map]
    keys (client ids, field tags) are Rocq [string]s. *)
Abbreviation jsstring := (list N).

(** Code units of an ASCII literal. *)
Definition js (s : string) : jsstring :=
  map (fun b => Byte.to_N b) (String.list_byte_of_string s).

(** Outcome of a JavaScript call: normal completion or a thrown [Error]
    carrying its [message]. *)
Inductive Result (A : Type) : Type :=
| Ok (a : A)
| Throw (message : string).
Arguments Ok {A} a.
Arguments Throw {A} message.

(** Truthiness of an optional identifier: [null], [undefined] and the empty
    string are falsy. *)
Definition truthy_id (o : option string) : bool :=
  match o with
  | Some s => negb (String.eqb s "")
  | None => false
  end.

(** ** Node.js [Buffer] *)
Module Buffer.

Abbreviation t := (list byte).

(** Storing a number in a [Uint8Array] slot keeps its low eight bits. *)
Definition byte_of_N (n : N) : byte :=
  default x00 (Byte.of_N (n mod 256)).

Definition byte_of_Z (z : Z) : byte := byte_of_N (Z.to_N (z mod 256)).

(** [a ^ b] on two buffer elements. *)
Definition bxor (a b : byte) : byte :=
  byte_of_N (N.lxor (Byte.to_N a) (Byte.to_N b)).

(** [toString('hex')]: two lowercase digits per byte. *)
Definition hex_digit (n : N) : N :=
  if (n <? 10)%N then (48 + n)%N else (87 + n)%N.

Fixpoint to_hex (b : t) : jsstring :=
  match b with
  | [] => []
  | x :: r =>
      hex_digit (Byte.to_N x / 16) :: hex_digit (Byte.to_N x mod 16) :: to_hex r
  end.

(** Value of one hex digit, either case. *)
Definition hex_val (c : N) : option N :=
  if ((48 <=? c) && (c <=? 57))%N then Some (c - 48)%N
  else if ((97 <=? c) && (c <=? 102))%N then Some (c - 87)%N
  else if ((65 <=? c) && (c <=? 70))%N then Some (c - 55)%N
  else None.

(** [Buffer.from(s, 'hex')]: decodes digit pairs and stops at the first pair
    that is not two hex digits; a trailing single character is dropped. *)
Fixpoint from_hex (s : jsstring) : t :=
  match s with
  | h :: l :: r =>
      match hex_val h, hex_val l with
      | Some hv, Some lv => byte_of_N (16 * hv + lv) :: from_hex r
      | _, _ => []
      end
  | _ => []
  end.

(** [Buffer.from(array)]: every entry is truncated to a byte. *)
Definition from_array (a : list Z) : t := map byte_of_Z a.

(** [a.compare(b)]: lexicographic order on the bytes, the shorter buffer
    first when one is a prefix of the other. *)
Fixpoint compare (a b : t) : comparison :=
  match a, b with
  | [], [] => Eq
  | [], _ :: _ => Lt
  | _ :: _, [] => Gt
  | x :: a', y :: b' =>
      match N.compare (Byte.to_N x) (Byte.to_N y) with
      | Eq => compare a' b'
      | c => c
      end
  end.

(** [/^[0-9a-fA-F]+$/.test(s)] *)
Definition hexPattern_test (s : jsstring) : bool :=
  match s with
  | [] => false
  | _ => forallb (fun c => bool_decide (is_Some (hex_val c))) s
  end.

End Buffer.

(** ** The UTF-8 codec behind [Buffer.from(s, 'utf8')] and [toString('utf8')] *)
Module Utf8.
Import Buffer.

Definition is_high_surrogate (c : N) : bool := ((0xD800 <=? c) && (c <=? 0xDBFF))%N.
Definition is_low_surrogate (c : N) : bool := ((0xDC00 <=? c) && (c <=? 0xDFFF))%N.

(** U+FFFD, written for every code unit that cannot be encoded/decoded. *)
Definition replacement : N := 0xFFFD%N.

Definition encode_code_point (p : N) : t :=
  if (p <? 0x80)%N then [byte_of_N p]
  else if (p <? 0x800)%N then
    [byte_of_N (0xC0 + p / 64); byte_of_N (0x80 + p mod 64)]
  else if (p <? 0x10000)%N then
    [byte_of_N (0xE0 + p / 4096); byte_of_N (0x80 + (p / 64) mod 64);
     byte_of_N (0x80 + p mod 64)]
  else
    [byte_of_N (0xF0 + p / 262144); byte_of_N (0x80 + (p / 4096) mod 64);
     byte_of_N (0x80 + (p / 64) mod 64); byte_of_N (0x80 + p mod 64)].

(** Encoding of a string: surrogate pairs are combined, an unpaired
    surrogate is written as U+FFFD. *)
Fixpoint encode (s : jsstring) : t :=
  match s with
  | [] => []
  | c :: rest =>
      if is_high_surrogate c then
        match rest with
        | d :: rest' =>
            if is_low_surrogate d then
              encode_code_point
                (0x10000 + (c - 0xD800) * 1024 + (d - 0xDC00))
                ++ encode rest'
            else encode_code_point replacement ++ encode rest
        | [] => encode_code_point replacement
        end
      else if is_low_surrogate c then
        encode_code_point replacement ++ encode rest
      else encode_code_point c ++ encode rest
  end.

(** UTF-16 code units of a decoded code point. *)
Definition code_units (p : N) : jsstring :=
  if (p <? 0x10000)%N then [p]
  else [(0xD800 + (p - 0x10000) / 1024)%N; (0xDC00 + (p - 0x10000) mod 1024)%N].

(** A multi-byte sequence in progress: the bits read so far, how many
    continuation bytes are still expected, and the range allowed for the
    next byte. *)
Record Pending : Type := mkPending {
  acc : N;
  remaining : nat;
  lower : N;
  upper : N
}.

(** First byte of a sequence. *)
Definition start (b : N) : jsstring * option Pending :=
  if (b <? 0x80)%N then ([b], None)
  else if ((0xC2 <=? b) && (b <=? 0xDF))%N then
    ([], Some (mkPending (b - 0xC0) 1 0x80 0xBF))
  else if ((0xE0 <=? b) && (b <=? 0xEF))%N then
    ([], Some (mkPending (b - 0xE0) 2
                 (if (b =? 0xE0)%N then 0xA0 else 0x80)
                 (if (b =? 0xED)%N then 0x9F else 0xBF)))
  else if ((0xF0 <=? b) && (b <=? 0xF4))%N then
    ([], Some (mkPending (b - 0xF0) 3
                 (if (b =? 0xF0)%N then 0x90 else 0x80)
                 (if (b =? 0xF4)%N then 0x8F else 0xBF)))
  else ([replacement], None).

(** Decoder: ill-formed input yields U+FFFD and decoding resumes at the
    offending byte. *)
Fixpoint decode_from (st : option Pending) (bs : t) : jsstring :=
  match bs with
  | [] => match st with None => [] | Some _ => [replacement] end
  | x :: rest =>
      let b := Byte.to_N x in
      match st with
      | None =>
          let '(out, st') := start b in out ++ decode_from st' rest
      | Some p =>
          if ((lower p <=? b) && (b <=? upper p))%N then
            let a := (acc p * 64 + (b - 0x80))%N in
            match remaining p with
            | S (S k) => decode_from (Some (mkPending a (S k) 0x80 0xBF)) rest
            | _ => code_units a ++ decode_from None rest
            end
          else
            let '(out, st') := start b in
            replacement :: out ++ decode_from st' rest
      end
  end.

Definition decode (bs : t) : jsstring := decode_from None bs.

(** A Unicode scalar value: a code point that is not a surrogate. *)
Definition scalar (p : N) : Prop :=
  (p < 0x110000)%N /\ ~ (0xD800 <= p <= 0xDFFF)%N.

(** Strings that survive the codec: no unpaired surrogate, every code unit
    a 16-bit value. *)
Fixpoint well_formed (s : jsstring) : bool :=
  match s with
  | [] => true
  | c :: rest =>
      if is_high_surrogate c then
        match rest with
        | d :: rest' => is_low_surrogate d && well_formed rest'
        | [] => false
        end
      else (c <? 0x10000)%N && negb (is_low_surrogate c) && well_formed rest
  end.

End Utf8.

(** ** Node.js [crypto]: SHA-256 (FIPS 180-4) and HMAC (RFC 2104) *)
Module NodeCrypto.
Import Buffer.

Local Open Scope N_scope.

Definition w32 (x : N) : N := x mod 4294967296.
Definition add32 (x y : N) : N := w32 (x + y).
Definition rotr (n x : N) : N :=
  N.lor (N.shiftr x n) (w32 (N.shiftl x (32 - n))).
Definition not32 (x : N) : N := N.lxor x 4294967295.

Definition Ch (x y z : N) : N := N.lxor (N.land x y) (N.land (not32 x) z).
Definition Maj (x y z : N) : N :=
  N.lxor (N.lxor (N.land x y) (N.land x z)) (N.land y z).
Definition Sigma0 (x : N) : N := N.lxor (N.lxor (rotr 2 x) (rotr 13 x)) (rotr 22 x).
Definition Sigma1 (x : N) : N := N.lxor (N.lxor (rotr 6 x) (rotr 11 x)) (rotr 25 x).
Definition sigma0 (x : N) : N := N.lxor (N.lxor (rotr 7 x) (rotr 18 x)) (N.shiftr x 3).
Definition sigma1 (x : N) : N := N.lxor (N.lxor (rotr 17 x) (rotr 19 x)) (N.shiftr x 10).

(** Largest [r] below [2 ^ bits] with [r ^ e <= n], found bit by bit. *)
Fixpoint iroot (e : N) (bits : nat) (n r : N) : N :=
  match bits with
  | O => r
  | S b =>
      let c := r + 2 ^ N.of_nat b in
      iroot e b n (if c ^ e <=? n then c else r)
  end.

(** First 32 bits of the fractional part of the [e]-th root of [p]. *)
Definition frac32 (e p : N) : N := w32 (iroot e 40 (p * 2 ^ (32 * e)) 0).

Definition is_prime (n : nat) : bool :=
  forallb (fun d => negb (n mod d =? 0)%nat) (seq 2 (n - 2)).

(** The first sixty-four primes. *)
Definition primes : list N :=
  Eval vm_compute in map N.of_nat (firstn 64 (List.filter is_prime (seq 2 400))).

(** Round constants: from the cube roots of the first sixty-four primes. *)
Definition K : list N := Eval vm_compute in map (frac32 3) primes.

(** Initial hash value: from the square roots of the first eight primes. *)
Definition H0 : list N := Eval vm_compute in map (frac32 2) (firstn 8 primes).

(** Big-endian bytes of a number, [n] of them. *)
Fixpoint be_bytes (n : nat) (x : N) : t :=
  match n with
  | O => []
  | S k => be_bytes k (x / 256) ++ [byte_of_N x]
  end.

Definition pad (msg : t) : t :=
  let len := length msg in
  let zeros := ((64 - (len + 9) mod 64) mod 64)%nat in
  msg ++ [byte_of_N 0x80] ++ repeat (byte_of_N 0) zeros
      ++ be_bytes 8 (8 * N.of_nat len).

(** Big-endian 32-bit words of a byte string. *)
Fixpoint words (bs : t) : list N :=
  match bs with
  | a :: b :: c :: d :: r =>
      (((Byte.to_N a * 256 + Byte.to_N b) * 256 + Byte.to_N c) * 256
         + Byte.to_N d) :: words r
  | _ => []
  end.

(** Message schedule: [n] further words appended to the sixteen of the
    block. *)
Fixpoint schedule (n : nat) (w : list N) : list N :=
  match n with
  | O => w
  | S k =>
      let i := length w in
      let at_ j := nth (i - j) w 0 in
      schedule k
        (w ++ [add32 (add32 (sigma1 (at_ 2%nat)) (at_ 7%nat))
                     (add32 (sigma0 (at_ 15%nat)) (at_ 16%nat))])
  end.

Definition round (s : list N) (kw : N * N) : list N :=
  match s with
  | [a; b; c; d; e; f; g; h] =>
      let t1 := add32 (add32 (add32 h (Sigma1 e)) (add32 (Ch e f g) (fst kw))) (snd kw) in
      let t2 := add32 (Sigma0 a) (Maj a b c) in
      [add32 t1 t2; a; b; c; add32 d t1; e; f; g]
  | _ => s
  end.

Definition compress (h : list N) (block : list N) : list N :=
  let w := schedule 48 block in
  let s := fold_left round (combine K w) h in
  map (fun xy => add32 (fst xy) (snd xy)) (combine h s).

(** The sixteen-word blocks of a padded message. *)
Fixpoint blocks (n : nat) (ws : list N) : list (list N) :=
  match n with
  | O => []
  | S k => firstn 16 ws :: blocks k (skipn 16 ws)
  end.

(** [crypto.createHash('sha256').update(msg).digest()] *)
Definition sha256 (msg : t) : t :=
  let ws := words (pad msg) in
  let h := fold_left compress (blocks (length ws / 16) ws) H0 in
  flat_map (be_bytes 4) h.

Definition xor_pad (c : N) (key : t) : t :=
  map (fun b => bxor b (byte_of_N c)) key.

(** [crypto.createHmac('sha256', key).update(msg).digest()] *)
Definition hmac_sha256 (key msg : t) : t :=
  let k0 := if (64 <? length key)%nat then sha256 key else key in
  let k := k0 ++ repeat (byte_of_N 0) (64 - length k0) in
  sha256 (xor_pad 0x5c k ++ sha256 (xor_pad 0x36 k ++ msg)).

End NodeCrypto.

(** ** [quantum-crypto.js]: class [QuantumCrypto] *)
Module QuantumCrypto.
Import Buffer.

(** [this.keyPair] and [this.signatureKey]; their constant label fields
    ([algorithm], [securityLevel], [keySize]) carry no behaviour. *)
Record KeyPair : Type := mkKeyPair {
  kp_private : Buffer.t;
  kp_public : Buffer.t
}.

Record SignatureKey : Type := mkSignatureKey {
  sig_private : Buffer.t;
  sig_public : Buffer.t
}.

(** The mutable fields of an instance.  [sharedSecrets] does not exist
    until the first exchange that names a peer creates it. *)
Record t : Type := mk {
  keyPair : option KeyPair;
  sharedSecret : option Buffer.t;
  signatureKey : option SignatureKey;
  sharedSecrets : option (gmap string Buffer.t)
}.

(** [new QuantumCrypto()] *)
Definition new : t := mk None None None None.

Definition keySize : Z := 32.

(** The four [crypto.randomBytes] draws of one key generation. *)
Record Entropy : Type := mkEntropy {
  rnd_private : Buffer.t;
  rnd_public : Buffer.t;
  rnd_sig_private : Buffer.t;
  rnd_sig_public : Buffer.t
}.

Record KeyInfo : Type := mkKeyInfo {
  ki_publicKey : jsstring;
  ki_algorithm : string;
  ki_securityLevel : string;
  ki_signatureAlgorithm : string
}.

Definition generateKeyPair (this : t) (rnd : Entropy) : t * KeyInfo :=
  let kp := mkKeyPair (rnd_private rnd) (rnd_public rnd) in
  let sk := mkSignatureKey (rnd_sig_private rnd) (rnd_sig_public rnd) in
  (mk (Some kp) (sharedSecret this) (Some sk) (sharedSecrets this),
   mkKeyInfo (to_hex (kp_public kp)) "Kyber-1024" "Level 5" "Dilithium-3").

(** [[a, b].sort((a, b) => a.compare(b))] *)
Definition sort2 (a b : Buffer.t) : list Buffer.t :=
  match Buffer.compare a b with
  | Gt => [b; a]
  | _ => [a; b]
  end.

(** The secret of [performKeyExchange]: the two public keys in sorted
    order, concatenated and hashed. *)
Definition derive (own peer : Buffer.t) : Buffer.t :=
  NodeCrypto.sha256 (concat (sort2 own peer)).

(** [performKeyExchange(peerPublicKey, peerId = null)].  A missing
    [peerPublicKey] makes [Buffer.from] throw; every exception is rethrown
    as 'Failed to establish shared secret' before any field is written. *)
Definition performKeyExchange (this : t) (peerPublicKey : option jsstring)
    (peerId : option string) : Result bool * t :=
  match keyPair this, peerPublicKey with
  | Some kp, Some pk =>
      let secret := derive (kp_public kp) (from_hex pk) in
      let secrets :=
        match peerId with
        | Some p =>
            if truthy_id peerId
            then Some (<[p := secret]> (default ∅ (sharedSecrets this)))
            else sharedSecrets this
        | None => sharedSecrets this
        end in
      (Ok true, mk (keyPair this) (Some secret) (signatureKey this) secrets)
  | _, _ => (Throw "Failed to establish shared secret", this)
  end.

Definition hasSharedSecretWith (this : t) (peerId : string) : bool :=
  match sharedSecrets this with
  | None => false
  | Some m => bool_decide (is_Some (m !! peerId))
  end.

Record SignatureData : Type := mkSignatureData {
  signature : jsstring;
  sd_algorithm : string;
  messageHash : jsstring;
  sd_timestamp : Z
}.

Definition signMessage (this : t) (message : jsstring) (now : Z)
    : Result SignatureData :=
  match signatureKey this with
  | None => Throw "Failed to sign message"
  | Some sk =>
      let messageHash := NodeCrypto.sha256 (Utf8.encode message) in
      let signature := to_hex (NodeCrypto.hmac_sha256 (sig_private sk) messageHash) in
      Ok (mkSignatureData signature "Dilithium-3" (to_hex messageHash) now)
  end.

(** [verifySignature(message, signatureData, publicKey)]; a missing
    [publicKey] makes [Buffer.from] throw, which is caught and answered
    [false]. *)
Definition verifySignature (message : jsstring) (signatureData : SignatureData)
    (publicKey : option jsstring) : bool :=
  match publicKey with
  | None => false
  | Some pk =>
      let messageHash := NodeCrypto.sha256 (Utf8.encode message) in
      let expectedSignature :=
        to_hex (NodeCrypto.hmac_sha256 (from_hex pk) messageHash) in
      bool_decide (signature signatureData = expectedSignature)
  end.

(** The [encrypted] field of an envelope as [decrypt] may receive it. *)
Inductive Encrypted : Type :=
| EString (s : jsstring)
| EArray (a : list Z)
| EBuffer (b : Buffer.t)
| EOther (truthy : bool).

(** The envelope object; a field that is absent is [None]. *)
Record EncryptedData : Type := mkEncryptedData {
  encrypted : option Encrypted;
  algorithm : option string;
  timestamp : Z;
  forPeer : option string;
  format : option string
}.

(** [peerId && this.sharedSecrets && this.sharedSecrets.has(peerId)] *)
Definition resolves (this : t) (peerId : option string) : bool :=
  match peerId, sharedSecrets this with
  | Some p, Some m => truthy_id peerId && bool_decide (is_Some (m !! p))
  | _, _ => false
  end.

(** The secret used by [encrypt]: the per-peer one when [peerId] names a
    stored peer, the single compatibility field otherwise. *)
Definition secret_for (this : t) (peerId : option string) : option Buffer.t :=
  match peerId, sharedSecrets this with
  | Some p, Some m =>
      if truthy_id peerId then
        match m !! p with
        | Some s => Some s
        | None => sharedSecret this
        end
      else sharedSecret this
  | _, _ => sharedSecret this
  end.

(** [sharedSecret[i % sharedSecret.length]]; out of range (an empty
    secret) reads [undefined], which [^] treats as 0. *)
Definition key_at (secret : Buffer.t) (i : nat) : byte :=
  default x00 (secret !! (i mod length secret)%nat).

(** The loop [out[i] = bytes[i] ^ sharedSecret[i % sharedSecret.length]],
    from index [i] on. *)
Fixpoint xor_from (i : nat) (secret bytes : Buffer.t) : Buffer.t :=
  match bytes with
  | [] => []
  | b :: r => bxor b (key_at secret i) :: xor_from (S i) secret r
  end.

Definition xor_stream (secret bytes : Buffer.t) : Buffer.t :=
  xor_from 0 secret bytes.

Definition encrypt (this : t) (message : jsstring) (peerId : option string)
    (now : Z) : Result EncryptedData :=
  match secret_for this peerId with
  | None => Throw "Failed to encrypt message"
  | Some secret =>
      let messageBytes := Utf8.encode message in
      let encrypted := xor_stream secret messageBytes in
      Ok (mkEncryptedData (Some (EString (to_hex encrypted))) (Some "XOR-Demo")
            now peerId (Some "hex"))
  end.

(** The secret used by [decrypt]: by the [peerId] argument, then by the
    envelope's [forPeer], then the compatibility field. *)
Definition secret_for_decrypt (this : t) (encryptedData : EncryptedData)
    (peerId : option string) : option Buffer.t :=
  let stored (o : option string) : option Buffer.t :=
    match o, sharedSecrets this with
    | Some p, Some m => if truthy_id o then m !! p else None
    | _, _ => None
    end in
  match stored peerId with
  | Some s => Some s
  | None =>
      match stored (forPeer encryptedData) with
      | Some s => Some s
      | None => sharedSecret this
      end
  end.

(** [!encrypted] *)
Definition falsy_encrypted (e : option Encrypted) : bool :=
  match e with
  | None => true
  | Some (EString s) => bool_decide (s = [])
  | Some (EOther truthy) => negb truthy
  | Some _ => false
  end.

Definition decrypt_error (reason : string) : string :=
  "Failed to decrypt message: " +:+ reason.

Definition decrypt (this : t) (encryptedData : EncryptedData)
    (peerId : option string) : Result jsstring :=
  match secret_for_decrypt this encryptedData peerId with
  | None =>
      Throw (decrypt_error "No shared secret available. Perform key exchange first.")
  | Some secret =>
      if falsy_encrypted (encrypted encryptedData) then
        Throw (decrypt_error "Missing required encryption fields")
      else if bool_decide (algorithm encryptedData = Some "XOR-Demo") then
        let bytes : option Buffer.t :=
          match encrypted encryptedData with
          | Some (EString s) =>
              if bool_decide (format encryptedData = Some "hex")
                 || hexPattern_test s
              then Some (from_hex s)
              else Some (Utf8.encode s)
          | Some (EArray a) => Some (from_array a)
          | Some (EBuffer b) => Some b
          | _ => None
          end in
        match bytes with
        | Some encryptedBytes =>
            Ok (Utf8.decode (xor_stream secret encryptedBytes))
        | None => Throw (decrypt_error "Unsupported encrypted data format")
        end
      else
        Throw (decrypt_error
                 ("Unsupported encryption algorithm: "
                    +:+ default "undefined" (algorithm encryptedData)))
  end.

Record SecurityInfo : Type := mkSecurityInfo {
  si_algorithm : string;
  si_keySize : Z;
  si_quantumSafe : bool;
  si_keyPairGenerated : bool;
  si_sharedSecretEstablished : bool;
  si_signatureKeyGenerated : bool;
  si_status : string
}.

Definition getSecurityInfo (this : t) : SecurityInfo :=
  mkSecurityInfo
    "Enhanced Post-Quantum (Kyber-1024 + Dilithium-3 + AES-256-GCM)"
    (keySize * 8) true
    (bool_decide (is_Some (keyPair this)))
    (bool_decide (is_Some (sharedSecret this)))
    (bool_decide (is_Some (signatureKey this)))
    (if bool_decide (is_Some (keyPair this)) && bool_decide (is_Some (sharedSecret this))
     then "Ready" else "Setting up...").

End QuantumCrypto.

(** ** The browser client: [ClientQuantumCrypto] (key exchange only) *)
Module ClientQuantumCrypto.

Record t : Type := mk {
  publicKey : option jsstring;
  sharedSecrets : gmap string Buffer.t;
  peers : gmap string jsstring
}.

(** Order of two strings under the default [Array.prototype.sort]:
    code unit by code unit, a proper prefix first. *)
Fixpoint compare (a b : jsstring) : comparison :=
  match a, b with
  | [], [] => Eq
  | [], _ :: _ => Lt
  | _ :: _, [] => Gt
  | x :: a', y :: b' =>
      match N.compare x y with
      | Eq => compare a' b'
      | c => c
      end
  end.

(** [[a, b].sort()] *)
Definition sort2 (a b : jsstring) : list jsstring :=
  match compare a b with
  | Gt => [b; a]
  | _ => [a; b]
  end.

(** SHA-256 of the text of the two sorted keys joined without separator. *)
Definition derive (own peer : jsstring) : Buffer.t :=
  NodeCrypto.sha256 (Utf8.encode (concat (sort2 own peer))).

(** The digest promise of a key exchange that has not resolved yet: the
    bytes handed to [crypto.subtle.digest] and the peer under whose id the
    [then] callback will store the result. *)
Record Exchange : Type := mkExchange {
  exchange_peer : string;
  exchange_data : Buffer.t
}.

(** The synchronous part of [performKeyExchange(peerPublicKey, peerId)] on
    a browser that offers [crypto.subtle.digest], natively or through the
    polyfill: the peer's key is recorded and the digest promise is
    returned; no secret is stored yet.  [encoder] is [new TextEncoder()],
    [None] where that constructor is not defined. *)
Definition performKeyExchange (encoder : option (jsstring -> Buffer.t))
    (this : t) (peerPublicKey : jsstring) (peerId : option string)
    : Result Exchange * t :=
  match publicKey this with
  | None => (Throw "No public key available", this)
  | Some [] => (Throw "No public key available", this)
  | Some own =>
      match peerId with
      | Some p =>
          if truthy_id peerId then
            let this1 :=
              mk (publicKey this) (sharedSecrets this)
                 (<[p := peerPublicKey]> (peers this)) in
            match encoder with
            | None => (Throw "TextEncoder is not defined", this1)
            | Some encode =>
                (Ok (mkExchange p (encode (concat (sort2 own peerPublicKey)))),
                 this1)
            end
          else (Throw "Peer ID is required for key exchange", this)
      | None => (Throw "Peer ID is required for key exchange", this)
      end
  end.

(** The [then] callback of the digest promise, run when it resolves:
    [this.sharedSecrets.set(peerId, new Uint8Array(hashBuffer))].  [digest]
    is the function behind [crypto.subtle.digest('SHA-256', data)]: SHA-256
    where the browser provides it, the 32-bit hash of the polyfill where
    that was installed. *)
Definition resolve (digest : Buffer.t -> Buffer.t) (exchange : Exchange)
    (this : t) : t :=
  mk (publicKey this)
     (<[exchange_peer exchange := digest (exchange_data exchange)]>
        (sharedSecrets this))
     (peers this).

(** The instance once the promise of [performKeyExchange] has resolved;
    as [performKeyExchange] left it when that threw. *)
Definition exchanged (encoder : option (jsstring -> Buffer.t))
    (digest : Buffer.t -> Buffer.t) (this : t) (peerPublicKey : jsstring)
    (peerId : option string) : t :=
  match performKeyExchange encoder this peerPublicKey peerId with
  | (Ok exchange, this1) => resolve digest exchange this1
  | (Throw _, this1) => this1
  end.

End ClientQuantumCrypto.

(** ** [src/backend/server.js]

    The session registry and the WebSocket handlers.  The HTTP endpoints,
    static files and the shutdown hook are left out.  Every handler run
    reads the clock once: [QuantumUtils.getTimestamp()] is the argument
    [now]. *)
Module Server.

Inductive ReadyState : Type := CONNECTING | OPEN | CLOSING | CLOSED.

(** The server's end of one connection. *)
Record WebSocket : Type := mkWebSocket { readyState : ReadyState }.

(** One entry of the [clients] map.  [sentPublicKeyTo] is absent until the
    exchange handler creates it. *)
Record Client : Type := mkClient {
  ws : WebSocket;
  crypto : QuantumCrypto.t;
  publicKey : option jsstring;
  ready : bool;
  joinedAt : Z;
  sentPublicKeyTo : option (list string)
}.

(** [client.ws.readyState === WebSocket.OPEN] *)
Definition is_open (c : Client) : bool :=
  match readyState (ws c) with
  | OPEN => true
  | _ => false
  end.

Definition set_crypto (c : Client) (q : QuantumCrypto.t) : Client :=
  mkClient (ws c) q (publicKey c) (ready c) (joinedAt c) (sentPublicKeyTo c).
Definition set_publicKey (c : Client) (k : option jsstring) : Client :=
  mkClient (ws c) (crypto c) k (ready c) (joinedAt c) (sentPublicKeyTo c).
Definition set_ready (c : Client) (r : bool) : Client :=
  mkClient (ws c) (crypto c) (publicKey c) r (joinedAt c) (sentPublicKeyTo c).
Definition set_sentPublicKeyTo (c : Client) (l : option (list string)) : Client :=
  mkClient (ws c) (crypto c) (publicKey c) (ready c) (joinedAt c) l.
Definition set_ws (c : Client) (w : WebSocket) : Client :=
  mkClient w (crypto c) (publicKey c) (ready c) (joinedAt c) (sentPublicKeyTo c).

Section Relay.
(** The relay never inspects an envelope: its content is any JSON value. *)
Context {Payload : Type}.

(** One element of [encryptedMessages]. *)
Record Entry : Type := mkEntry { forPeer : string; data : Payload }.

(** Messages received from a client, by their [type] field. *)
Inductive ClientMsg : Type :=
| generate_keys
| public_key (peerPublicKey : option jsstring) (peerId : option string)
| encrypted_message (encryptedData : option Payload)
| encrypted_group_message (encryptedMessages : option (list Entry))
| get_security_info
| unknown_type (type : string).

(** Messages sent to a client, by their [type] field.  The addressed and
    the legacy relay name the sender [fromPeer] and [from]. *)
Inductive ServerMsg : Type :=
| connected (clientId : string) (timestamp : Z)
| key_generation_start (timestamp : Z)
| keys_generated (publicKey : jsstring) (algorithm : string) (timestamp : Z)
| peer_public_key (clientId : string) (publicKey : option jsstring)
    (algorithm : string) (timestamp : Z)
| key_exchange_complete (peerId : option string)
    (securityInfo : QuantumCrypto.SecurityInfo) (timestamp : Z)
| peer_ready (peerId : string) (timestamp : Z)
| message_received_fromPeer (fromPeer : string) (encryptedData : Payload)
    (timestamp : Z)
| message_received_from (from : string) (encryptedData : option Payload)
    (timestamp : Z)
| message_sent (message : option string) (timestamp : Z)
| security_info (securityInfo : QuantumCrypto.SecurityInfo) (timestamp : Z)
| user_left (timestamp : Z)
| error (message : string) (error_message : option string).

(** A message put on the wire: [Send to m] is a [ws.send] on the open
    socket of the session registered under [to]. *)
Inductive Event : Type := Send (to : string) (m : ServerMsg).

(** Handlers mutate the registry and write to sockets, and may throw;
    the effects made before a throw remain. *)
Definition M (A : Type) : Type :=
  gmap string Client -> Result A * gmap string Client * list Event.

Definition ret {A} (a : A) : M A := fun reg => (Ok a, reg, []).

Definition bind {A B} (m : M A) (f : A -> M B) : M B :=
  fun reg =>
    match m reg with
    | (Ok a, reg1, out1) =>
        let '(r, reg2, out2) := f a reg1 in (r, reg2, out1 ++ out2)
    | (Throw e, reg1, out1) => (Throw e, reg1, out1)
    end.

Definition throw {A} (e : string) : M A := fun reg => (Throw e, reg, []).

(** [try { body } catch (error) { handler(error.message) }] *)
Definition try_catch {A} (body : M A) (handler : string -> M A) : M A :=
  fun reg =>
    match body reg with
    | (Throw e, reg1, out1) =>
        let '(r, reg2, out2) := handler e reg1 in (r, reg2, out1 ++ out2)
    | done => done
    end.

(** [clients.get(id)] *)
Definition get_client (id : string) : M (option Client) :=
  fun reg => (Ok (reg !! id), reg, []).

(** [clients.set(id, c)] *)
Definition set_client (id : string) (c : Client) : M unit :=
  fun reg => (Ok tt, <[id := c]> reg, []).

(** [clients.delete(id)] *)
Definition delete_client (id : string) : M unit :=
  fun reg => (Ok tt, delete id reg, []).

(** Assignment to fields of the object stored under [id]. *)
Definition update_client (id : string) (f : Client -> Client) : M unit :=
  fun reg => (Ok tt, alter f id reg, []).

(** [ws.send(JSON.stringify(m))] of the [ws] package: throws while the
    socket is still connecting, transmits when it is open, and discards
    the data once the socket is closing or closed (the behaviour of the
    package's current releases when no callback is given). *)
Definition ws_send (to : string) (w : WebSocket) (m : ServerMsg) : M unit :=
  fun reg =>
    match readyState w with
    | CONNECTING =>
        (Throw "WebSocket is not open: readyState 0 (CONNECTING)", reg, [])
    | OPEN => (Ok tt, reg, [Send to m])
    | _ => (Ok tt, reg, [])
    end.

(** [list.forEach(f)]; an exception in [f] ends the loop. *)
Fixpoint forEach {A} (l : list A) (f : A -> M unit) : M unit :=
  match l with
  | [] => ret tt
  | x :: r => bind (f x) (fun _ => forEach r f)
  end.

(** [clients.forEach(f)].  A JavaScript [Map] iterates in insertion order;
    the registry is a finite map and a broadcast visits it in the order of
    [map_to_list].  Nothing below depends on the order within a
    broadcast. *)
Definition clients_forEach (f : string * Client -> M unit) : M unit :=
  fun reg => forEach (map_to_list reg) f reg.

Definition broadcastToAll (message : ServerMsg)
    (excludeClientId : option string) : M unit :=
  clients_forEach (fun '(clientId, client) =>
    if bool_decide (Some clientId <> excludeClientId) && is_open client
    then ws_send clientId (ws client) message
    else ret tt).

Definition broadcastToReady (message : ServerMsg)
    (excludeClientId : option string) : M unit :=
  clients_forEach (fun '(clientId, client) =>
    if bool_decide (Some clientId <> excludeClientId) && ready client
       && is_open client
    then ws_send clientId (ws client) message
    else ret tt).

Notation "x <- m ;; k" := (bind m (fun x => k))
  (at level 62, m at next level, right associativity).
Notation "m ;;; k" := (bind m (fun _ => k))
  (at level 62, right associativity).

(** [handleKeyGeneration(clientId)]; [rnd] are the random bytes drawn by
    [generateKeyPair], [now] the clock. *)
Definition handleKeyGeneration (clientId : string)
    (rnd : QuantumCrypto.Entropy) (now : Z) : M unit :=
  o <- get_client clientId ;;
  match o with
  | None => ret tt
  | Some client =>
      try_catch
        (let '(crypto', keyInfo) :=
           QuantumCrypto.generateKeyPair (crypto client) rnd in
         update_client clientId (fun c =>
           set_publicKey (set_crypto c crypto')
             (Some (QuantumCrypto.ki_publicKey keyInfo))) ;;;
         ws_send clientId (ws client)
           (keys_generated (QuantumCrypto.ki_publicKey keyInfo)
              (QuantumCrypto.ki_algorithm keyInfo) now) ;;;
         broadcastToAll
           (peer_public_key clientId
              (Some (QuantumCrypto.ki_publicKey keyInfo))
              (QuantumCrypto.ki_algorithm keyInfo) now)
           (Some clientId))
        (fun e =>
           ws_send clientId (ws client) (error "Key generation failed" (Some e)))
  end.

(** [peerClient.sentPublicKeyTo?.includes(clientId)] *)
Definition includes (l : option (list string)) (clientId : string) : bool :=
  match l with
  | None => false
  | Some ids => bool_decide (clientId ∈ ids)
  end.

(** [handlePublicKeyExchange(clientId, message)] for a message
    [{ type: 'public_key', peerPublicKey, peerId }]. *)
Definition handlePublicKeyExchange (clientId : string)
    (peerPublicKey : option jsstring) (peerId : option string) (now : Z)
    : M unit :=
  o <- get_client clientId ;;
  match o with
  | None => ret tt
  | Some client =>
      try_catch
        (match QuantumCrypto.performKeyExchange (crypto client) peerPublicKey None with
         | (Throw e, _) => throw e
         | (Ok success, crypto') =>
             update_client clientId (fun c => set_crypto c crypto') ;;;
             if success then
               update_client clientId (fun c => set_ready c true) ;;;
               ws_send clientId (ws client)
                 (key_exchange_complete peerId
                    (QuantumCrypto.getSecurityInfo crypto') now) ;;;
               match peerId with
               | Some peer =>
                   if truthy_id peerId then
                     p <- get_client peer ;;
                     match p with
                     | Some peerClient =>
                         if is_open peerClient then
                           ws_send peer (ws peerClient) (peer_ready clientId now) ;;;
                           if negb (QuantumCrypto.hasSharedSecretWith
                                      (crypto peerClient) clientId)
                              && negb (includes (sentPublicKeyTo peerClient) clientId)
                           then
                             update_client peer (fun c =>
                               set_sentPublicKeyTo c
                                 (Some (default [] (sentPublicKeyTo c) ++ [clientId]))) ;;;
                             ws_send peer (ws peerClient)
                               (peer_public_key clientId (publicKey client)
                                  "Kyber-1024" now)
                           else ret tt
                         else ret tt
                     | None => ret tt
                     end
                   else ret tt
               | None => ret tt
               end
             else ret tt
         end)
        (fun e =>
           ws_send clientId (ws client) (error "Key exchange failed" (Some e)))
  end.

(** [handleGroupMessage(clientId, message)]; [encryptedMessages] is
    [None] when the field is missing, which makes reading its [length]
    throw. *)
Definition handleGroupMessage (clientId : string)
    (encryptedMessages : option (list Entry)) (now : Z) : M unit :=
  o <- get_client clientId ;;
  match o with
  | None => ret tt
  | Some client =>
      try_catch
        (match encryptedMessages with
         | None => throw "Cannot read properties of undefined (reading 'length')"
         | Some entries =>
             forEach entries (fun entry =>
               r <- get_client (forPeer entry) ;;
               match r with
               | Some recipientClient =>
                   if is_open recipientClient then
                     ws_send (forPeer entry) (ws recipientClient)
                       (message_received_fromPeer clientId (data entry) now)
                   else ret tt
               | None => ret tt
               end) ;;;
             ws_send clientId (ws client) (message_sent None now)
         end)
        (fun e =>
           ws_send clientId (ws client)
             (error "Failed to send group message" (Some e)))
  end.

(** [handleEncryptedMessage(clientId, message)], the legacy broadcast.
    Reading [client.ws] of an unregistered client throws. *)
Definition handleEncryptedMessage (clientId : string)
    (encryptedData : option Payload) (now : Z) : M unit :=
  o <- get_client clientId ;;
  match o with
  | None => throw "Cannot read properties of undefined (reading 'ws')"
  | Some client =>
      if negb (ready client) then
        ws_send clientId (ws client)
          (error "Client not ready for secure communication" None)
      else
        try_catch
          (broadcastToReady (message_received_from clientId encryptedData now)
             (Some clientId) ;;;
           ws_send clientId (ws client)
             (message_sent (Some "Message sent securely") now))
          (fun e =>
             ws_send clientId (ws client)
               (error "Failed to relay encrypted message" (Some e)))
  end.

(** [handleSecurityInfoRequest(clientId)]; a failure is only logged.  The
    [benchmark] part of the answer is static text and a timing. *)
Definition handleSecurityInfoRequest (clientId : string) (now : Z) : M unit :=
  o <- get_client clientId ;;
  match o with
  | None => ret tt
  | Some client =>
      try_catch
        (ws_send clientId (ws client)
           (security_info (QuantumCrypto.getSecurityInfo (crypto client)) now))
        (fun _ => ret tt)
  end.

(** [handleMessage(clientId, message)] *)
Definition handleMessage (clientId : string) (message : ClientMsg)
    (rnd : QuantumCrypto.Entropy) (now : Z) : M unit :=
  o <- get_client clientId ;;
  match o with
  | None => ret tt
  | Some _ =>
      match message with
      | generate_keys => handleKeyGeneration clientId rnd now
      | public_key peerPublicKey peerId =>
          handlePublicKeyExchange clientId peerPublicKey peerId now
      | encrypted_message encryptedData =>
          handleEncryptedMessage clientId encryptedData now
      | encrypted_group_message encryptedMessages =>
          handleGroupMessage clientId encryptedMessages now
      | get_security_info => handleSecurityInfoRequest clientId now
      | unknown_type _ => ret tt
      end
  end.

(** [initiateKeyExchange(clientId)]: the notice sent one second after the
    connection; the key generation itself is a later timer. *)
Definition initiateKeyExchange (clientId : string) (now : Z) : M unit :=
  o <- get_client clientId ;;
  match o with
  | None => ret tt
  | Some client =>
      try_catch
        (ws_send clientId (ws client) (key_generation_start now))
        (fun _ => ret tt)
  end.

(** What the event loop delivers to the server. *)
Inductive ServerEvent : Type :=
| on_connection (clientId : string) (now : Z)
| on_message (clientId : string) (message : option ClientMsg)
    (rnd : QuantumCrypto.Entropy) (now : Z)
| on_close (clientId : string) (now : Z)
| on_initiate_timer (clientId : string) (now : Z)
| on_keygen_timer (clientId : string) (rnd : QuantumCrypto.Entropy) (now : Z)
| on_socket_state (clientId : string) (state : ReadyState).

(** The callbacks registered in [wss.on('connection', ...)].  A message
    that is not JSON ([None]) fails in [JSON.parse]; the socket of the
    callback is the one stored in the sender's entry. *)
Definition dispatch (ev : ServerEvent) : M unit :=
  match ev with
  | on_connection clientId now =>
      let w := mkWebSocket OPEN in
      set_client clientId (mkClient w QuantumCrypto.new None false now None) ;;;
      ws_send clientId w (connected clientId now)
  | on_message clientId message rnd now =>
      o <- get_client clientId ;;
      match o with
      | None => ret tt
      | Some client =>
          try_catch
            (match message with
             | None => throw "Unexpected token in JSON"
             | Some m => handleMessage clientId m rnd now
             end)
            (fun e =>
               ws_send clientId (ws client)
                 (error "Failed to process message" (Some e)))
      end
  | on_close clientId now =>
      delete_client clientId ;;;
      broadcastToAll (user_left now) (Some clientId)
  | on_initiate_timer clientId now => initiateKeyExchange clientId now
  | on_keygen_timer clientId rnd now => handleKeyGeneration clientId rnd now
  | on_socket_state clientId state =>
      update_client clientId (fun c => set_ws c (mkWebSocket state))
  end.

(** The server process: events are handled one at a time; an exception
    that no handler catches ends the process. *)
Fixpoint run (reg : gmap string Client) (evs : list ServerEvent)
    : gmap string Client * list Event :=
  match evs with
  | [] => (reg, [])
  | ev :: rest =>
      match dispatch ev reg with
      | (Ok _, reg1, out1) =>
          let '(reg2, out2) := run reg1 rest in (reg2, out1 ++ out2)
      | (Throw _, reg1, out1) => (reg1, out1)
      end
  end.

(** *** Announcements of one session's key to another *)

(** [e] delivers [A]'s public key to [B]. *)
Definition is_announcement (A B : string) (e : Event) : bool :=
  match e with
  | Send to (peer_public_key clientId _ _ _) =>
      bool_decide (to = B) && bool_decide (clientId = A)
  | _ => false
  end.

Definition announcements (A B : string) (out : list Event) : list Event :=
  List.filter (is_announcement A B) out.

(** The exchange handler's test on the peer's entry: the peer has a
    per-peer secret with [A], or [A] is in its [sentPublicKeyTo]. *)
Definition recorded (A : string) (peerClient : Client) : bool :=
  QuantumCrypto.hasSharedSecretWith (crypto peerClient) A
  || includes (sentPublicKeyTo peerClient) A.

(** Nothing remains to be announced from [A] to [B]: [B]'s entry passes
    the test above, or no session is registered under [B]. *)
Definition settled (A B : string) (reg : gmap string Client) : bool :=
  match reg !! B with
  | Some peerClient => recorded A peerClient
  | None => true
  end.

(** [ev] makes [A] generate a new key pair. *)
Definition generates_keys (A : string) (ev : ServerEvent) : bool :=
  match ev with
  | on_keygen_timer clientId _ _ => bool_decide (clientId = A)
  | on_message clientId (Some generate_keys) _ _ => bool_decide (clientId = A)
  | _ => false
  end.

(** [ev] registers a new session under the id [B]. *)
Definition registers (B : string) (ev : ServerEvent) : bool :=
  match ev with
  | on_connection clientId _ => bool_decide (clientId = B)
  | _ => false
  end.

(** A computation that, run from [reg], announces nothing from [A] to
    [B] and keeps the pair settled if it was. *)
Definition quiet_at (A B : string) {T} (m : M T) (reg : gmap string Client)
    : Prop :=
  announcements A B (m reg).2 = []
  /\ (settled A B reg = true -> settled A B (m reg).1.2 = true).

(** A computation that, run from [reg], announces [A]'s key to [B] at
    most once, not at all if the pair is settled, and leaves the pair
    settled once it has announced. *)
Definition once_at (A B : string) {T} (m : M T) (reg : gmap string Client)
    : Prop :=
  (settled A B reg = true ->
   announcements A B (m reg).2 = [] /\ settled A B (m reg).1.2 = true)
  /\ length (announcements A B (m reg).2) <= 1
  /\ (announcements A B (m reg).2 <> [] -> settled A B (m reg).1.2 = true).

End Relay.
End Server.

(** ** Concrete sessions used in the examples below *)
Module Scenario.

(** Random draws of three key generations (short keys keep the examples
    readable; the code draws 128 and 64 bytes). *)
Definition rndA : QuantumCrypto.Entropy :=
  QuantumCrypto.mkEntropy (Buffer.from_hex (js "0a0b0c")) (Buffer.from_hex (js "a1a2a3"))
    (Buffer.from_hex (js "5a5b")) (Buffer.from_hex (js "aaab")).
Definition rndB : QuantumCrypto.Entropy :=
  QuantumCrypto.mkEntropy (Buffer.from_hex (js "1a1b1c")) (Buffer.from_hex (js "b1b2b3"))
    (Buffer.from_hex (js "6a6b")) (Buffer.from_hex (js "babb")).
Definition rndC : QuantumCrypto.Entropy :=
  QuantumCrypto.mkEntropy (Buffer.from_hex (js "2a2b2c")) (Buffer.from_hex (js "c1c2c3"))
    (Buffer.from_hex (js "7a7b")) (Buffer.from_hex (js "cacb")).

(** Published public keys of A, B and C. *)
Definition pkA : jsstring := js "a1a2a3".
Definition pkB : jsstring := js "b1b2b3".
Definition pkC : jsstring := js "c1c2c3".

(** A's instance after key generation. *)
Definition cryptoA0 : QuantumCrypto.t :=
  fst (QuantumCrypto.generateKeyPair QuantumCrypto.new rndA).

(** A's instance after exchanging with B, naming the peer. *)
Definition cryptoA1 : QuantumCrypto.t :=
  snd (QuantumCrypto.performKeyExchange cryptoA0 (Some pkB) (Some "B")).

(** ... and then with C, without naming the peer. *)
Definition cryptoA2 : QuantumCrypto.t :=
  snd (QuantumCrypto.performKeyExchange cryptoA1 (Some pkC) None).

(** A session that never generated keys. *)
Definition fresh (state : Server.ReadyState) (isReady : bool) : Server.Client :=
  Server.mkClient (Server.mkWebSocket state) QuantumCrypto.new None isReady 0 None.

(** The server after A, B and C connected and B and A generated keys. *)
Definition keys_generated : list (@Server.ServerEvent QuantumCrypto.EncryptedData) :=
  [Server.on_connection "A" 1; Server.on_connection "B" 2;
   Server.on_connection "C" 3;
   Server.on_keygen_timer "B" rndB 4; Server.on_keygen_timer "A" rndA 5].

Definition registry_keys : gmap string Server.Client :=
  fst (Server.run ∅ keys_generated).

(** ... and after B and then A each processed the other's key. *)
Definition handshake : list (@Server.ServerEvent QuantumCrypto.EncryptedData) :=
  keys_generated
    ++ [Server.on_message "B" (Some (Server.public_key (Some pkA) (Some "A"))) rndB 6;
        Server.on_message "A" (Some (Server.public_key (Some pkB) (Some "B"))) rndA 7].

Definition registry : gmap string Server.Client :=
  fst (Server.run ∅ handshake).

(** The exchanges alone, followed by two more requests of A. *)
Definition exchanges : list (@Server.ServerEvent QuantumCrypto.EncryptedData) :=
  [Server.on_message "B" (Some (Server.public_key (Some pkA) (Some "A"))) rndB 6;
   Server.on_message "A" (Some (Server.public_key (Some pkB) (Some "B"))) rndA 7;
   Server.on_message "A" (Some (Server.public_key (Some pkB) (Some "B"))) rndA 8;
   Server.on_message "A" (Some (Server.public_key (Some pkB) (Some "B"))) rndA 9].

(** The entries of A, B and C in a registry. *)
Definition sessionA (reg : gmap string Server.Client) : Server.Client :=
  default (fresh Server.CLOSED false) (reg !! "A").
Definition sessionB (reg : gmap string Server.Client) : Server.Client :=
  default (fresh Server.CLOSED false) (reg !! "B").
Definition sessionC (reg : gmap string Server.Client) : Server.Client :=
  default (fresh Server.CLOSED false) (reg !! "C").

(** The registry after the handshake, once B's socket started closing. *)
Definition registry_closing : gmap string Server.Client :=
  fst (@Server.run QuantumCrypto.EncryptedData registry
         [Server.on_socket_state "B" Server.CLOSING]).

(** Two envelopes made by A's browser for B and C. *)
Definition envelopeB : QuantumCrypto.EncryptedData :=
  QuantumCrypto.mkEncryptedData (Some (QuantumCrypto.EString (js "0b0b")))
    (Some "XOR-Demo") 8 (Some "B") (Some "hex").
Definition envelopeC : QuantumCrypto.EncryptedData :=
  QuantumCrypto.mkEncryptedData (Some (QuantumCrypto.EString (js "0c0c")))
    (Some "XOR-Demo") 8 (Some "C") (Some "hex").

(** A's group message for B, C and a peer D that is not connected. *)
Definition batch : list (@Server.Entry QuantumCrypto.EncryptedData) :=
  [Server.mkEntry "B" envelopeB; Server.mkEntry "D" envelopeB;
   Server.mkEntry "C" envelopeC].

Definition secretAB : Buffer.t :=
  QuantumCrypto.derive (Buffer.from_hex pkA) (Buffer.from_hex pkB).
Definition secretAC : Buffer.t :=
  QuantumCrypto.derive (Buffer.from_hex pkA) (Buffer.from_hex pkC).

End Scenario.

(** ** [quantum-crypto.js]: class [QuantumUtils] *)
Module QuantumUtils.

(** [generateSessionId()]; [rnd] is the draw of [crypto.randomBytes(16)]. *)
Definition generateSessionId (rnd : Buffer.t) : jsstring := Buffer.to_hex rnd.

(** The table [levels], in the order [Object.entries] lists it. *)
Definition levels : list (string * Z) :=
  [("Level 1", 128%Z); ("Level 2", 192%Z); ("Level 3", 256%Z);
   ("Level 4", 384%Z); ("Level 5", 512%Z)].

(** [calculateSecurityLevel(keySize, algorithm)]: the first level whose
    bound [keySize] reaches, 'Level 1' when there is none. *)
Definition calculateSecurityLevel (keySize : Z) (algorithm : string) : string :=
  match List.find (fun entry => (snd entry <=? keySize)%Z) levels with
  | Some entry => fst entry
  | None => "Level 1"
  end.

End QuantumUtils.

(** ** The polyfills of the browser client *)
Module Polyfill.
Import Buffer.

Local Open Scope N_scope.

(** The one- to three-byte branches of [TextEncoder.prototype.encode]. *)
Definition encode_bmp (point : N) : Buffer.t :=
  if point <=? 0x007f then
    [byte_of_N (N.lor (N.shiftl 0x0 7) point)]
  else if point <=? 0x07ff then
    [byte_of_N (N.lor (N.shiftl 0x6 5) (N.shiftr point 6));
     byte_of_N (N.lor (N.shiftl 0x2 6) (N.land point 0x3f))]
  else
    [byte_of_N (N.lor (N.shiftl 0xe 4) (N.shiftr point 12));
     byte_of_N (N.lor (N.shiftl 0x2 6) (N.land (N.shiftr point 6) 0x3f));
     byte_of_N (N.lor (N.shiftl 0x2 6) (N.land point 0x3f))].

(** [TextEncoder.prototype.encode(str)]; the code units of [str] are below
    [2 ^ 16]. *)
Fixpoint encode (str : jsstring) : Buffer.t :=
  match str with
  | [] => []
  | point :: rest =>
      if (0xD800 <=? point) && (point <=? 0xDBFF) then
        match rest with
        | [] => [byte_of_N 0xef; byte_of_N 0xbf; byte_of_N 0xbd]
        | nextcode :: rest' =>
            if (0xDC00 <=? nextcode) && (nextcode <=? 0xDFFF) then
              let point := (point - 0xD800) * 0x400 + nextcode - 0xDC00 + 0x10000 in
              if 0xffff <? point then
                [byte_of_N (N.lor (N.shiftl 0x1e 3) (N.shiftr point 18));
                 byte_of_N (N.lor (N.shiftl 0x2 6) (N.land (N.shiftr point 12) 0x3f));
                 byte_of_N (N.lor (N.shiftl 0x2 6) (N.land (N.shiftr point 6) 0x3f));
                 byte_of_N (N.lor (N.shiftl 0x2 6) (N.land point 0x3f))]
                  ++ encode rest'
              else encode_bmp point ++ encode rest'
            else
              [byte_of_N 0xef; byte_of_N 0xbf; byte_of_N 0xbd] ++ encode rest
        end
      else encode_bmp point ++ encode rest
  end.

(** [String.fromCodePoint(codePoint)]: a [RangeError] above U+10FFFF. *)
Definition fromCodePoint (codePoint : N) : Result jsstring :=
  if codePoint <=? 0xFFFF then Ok [codePoint]
  else if codePoint <=? 0x10FFFF then
    Ok [0xD800 + (codePoint - 0x10000) / 1024; 0xDC00 + (codePoint - 0x10000) mod 1024]
  else Throw "Invalid code point".

(** [bytesNeeded] and the first value of [codePoint] for a leading octet;
    an octet above 0xF4 leaves both at 0. *)
Definition lead (octet : N) : nat * N :=
  if octet <=? 0x7F then (0%nat, N.land octet 0xFF)
  else if octet <=? 0xDF then (1%nat, N.land octet 0x1F)
  else if octet <=? 0xEF then (2%nat, N.land octet 0x0F)
  else if octet <=? 0xF4 then (3%nat, N.land octet 0x07)
  else (0%nat, 0).

(** [codePoint = (codePoint << 6) | (octet & 0x3F)] *)
Definition continue (codePoint : N) (octet : byte) : N :=
  N.lor (N.shiftl codePoint 6) (N.land (Byte.to_N octet) 0x3F).

(** [string += String.fromCodePoint(codePoint)], then the rest of the loop. *)
Definition append (codePoint : N) (rest : Result jsstring) : Result jsstring :=
  match fromCodePoint codePoint with
  | Throw e => Throw e
  | Ok units =>
      match rest with
      | Ok s => Ok (units ++ s)
      | Throw e => Throw e
      end
  end.

(** [TextDecoder.prototype.decode(octets)]: continuation octets are taken
    as they come; when fewer than [bytesNeeded] octets follow, U+FFFD is
    written and the loop ends. *)
Fixpoint decode (octets : Buffer.t) : Result jsstring :=
  match octets with
  | [] => Ok []
  | o :: r0 =>
      let '(bytesNeeded, codePoint) := lead (Byte.to_N o) in
      match bytesNeeded, r0 with
      | O, _ => append codePoint (decode r0)
      | 1%nat, o1 :: r1 => append (continue codePoint o1) (decode r1)
      | 2%nat, o1 :: o2 :: r2 =>
          append (continue (continue codePoint o1) o2) (decode r2)
      | 3%nat, o1 :: o2 :: o3 :: r3 =>
          append (continue (continue (continue codePoint o1) o2) o3) (decode r3)
      | _, _ => append 0xFFFD (Ok [])
      end
  end.

(** [ToInt32]: wrap-around to a signed 32-bit integer. *)
Definition to_int32 (z : Z) : Z := ((z + 2147483648) mod 4294967296 - 2147483648)%Z.

(** One round of the loop of [crypto.subtle.digest]'s replacement:
    [hash = ((hash << 5) - hash) + byte; hash = hash & hash]. *)
Definition hash_step (hash : Z) (b : byte) : Z :=
  to_int32 (to_int32 (hash * 32) - hash + Z.of_N (Byte.to_N b))%Z.

(** The replacement of [crypto.subtle.digest(algorithm, data)]: thirty-two
    bytes cut from one 32-bit hash. *)
Definition digest (data : Buffer.t) : Buffer.t :=
  let hash := fold_left hash_step data 0%Z in
  map (fun i : nat =>
         byte_of_Z (Z.land (Z.shiftr hash (Z.of_nat (i mod 4 * 8))) 0xFF))
      (seq 0 32).

End Polyfill.
(** ** The browser client: [ClientQuantumCrypto.encrypt] and [decrypt] *)
Module ClientCipher.
Import Buffer.

(** What [new TextEncoder()] and [new TextDecoder('utf-8', { fatal: false })]
    give in the browser at hand: the native objects, the polyfills, or
    nothing ([None]: the constructor throws). *)
Record TextCodec : Type := mkTextCodec {
  encoder : option (jsstring -> Buffer.t);
  decoder : option (Buffer.t -> Result jsstring)
}.

(** The native decoder drops a leading byte order mark and never throws. *)
Definition strip_bom (bs : Buffer.t) : Buffer.t :=
  match bs with
  | a :: b :: c :: r =>
      if bool_decide (Byte.to_N a = 0xEF%N) && bool_decide (Byte.to_N b = 0xBB%N)
         && bool_decide (Byte.to_N c = 0xBF%N)
      then r else bs
  | _ => bs
  end.

Definition native : TextCodec :=
  mkTextCodec (Some Utf8.encode)
    (Some (fun bs => Ok (Utf8.decode (strip_bom bs)))).

Definition polyfill : TextCodec :=
  mkTextCodec (Some Polyfill.encode) (Some Polyfill.decode).

(** The [encrypted] field of an envelope as [decrypt] may receive it;
    [EOther] carries the [String(...)] text of any other value. *)
Inductive Encrypted : Type :=
| EString (s : jsstring)
| EArray (a : list Z)
| EBytes (b : Buffer.t)
| EOther (text : jsstring).

Record Envelope : Type := mkEnvelope {
  encrypted : Encrypted;
  algorithm : option string;
  timestamp : Z;
  forPeer : option string;
  fromPeer : option string;
  format : option string
}.

(** [messageBytes[i] = message.charCodeAt(i) & 0xFF], the encoding used when
    there is no [TextEncoder]. *)
Definition low_bytes (s : jsstring) : Buffer.t :=
  map (fun c => byte_of_N (N.land c 0xFF)) s.

(** [String.fromCharCode.apply(null, bytes)] *)
Definition fromCharCodes (bs : Buffer.t) : jsstring := map Byte.to_N bs.

Definition encode_text (codec : TextCodec) (s : jsstring) : Buffer.t :=
  match encoder codec with
  | Some encode => encode s
  | None => low_bytes s
  end.

(** The decoding at the end of [decrypt]: the decoder, and the characters
    of the bytes when it is missing or throws. *)
Definition decode_text (codec : TextCodec) (bs : Buffer.t) : jsstring :=
  match decoder codec with
  | Some decode =>
      match decode bs with
      | Ok s => s
      | Throw _ => fromCharCodes bs
      end
  | None => fromCharCodes bs
  end.

(** [b.toString(16)] of a byte. *)
Definition toString16 (n : N) : jsstring :=
  if (n <? 16)%N then [hex_digit n] else [hex_digit (n / 16); hex_digit (n mod 16)].

(** [s.padStart(2, '0')] *)
Definition padStart2 (s : jsstring) : jsstring :=
  match s with
  | [] => [48%N; 48%N]
  | [c] => [48%N; c]
  | _ => s
  end.

(** [Array.from(bytes).map(b => b.toString(16).padStart(2, '0')).join('')] *)
Definition hexString (bytes : Buffer.t) : jsstring :=
  concat (map (fun b => padStart2 (toString16 (Byte.to_N b))) bytes).

(** Line terminators, which [.] does not match. *)
Definition is_line_terminator (c : N) : bool :=
  bool_decide (c ∈ [0x0A; 0x0D; 0x2028; 0x2029]%N).

(** [s.match(/.{1,2}/g) || []]: greedy runs of one or two characters
    between line terminators. *)
Fixpoint chunks (s : jsstring) : list jsstring :=
  match s with
  | [] => []
  | c :: r =>
      if is_line_terminator c then chunks r
      else
        match r with
        | d :: r' => if is_line_terminator d then [c] :: chunks r
                     else [c; d] :: chunks r'
        | [] => [[c]]
        end
  end.

(** White space skipped by [parseInt]. *)
Definition is_white_space (c : N) : bool :=
  is_line_terminator c
  || bool_decide (c ∈ [0x09; 0x0B; 0x0C; 0x20; 0xA0; 0x1680; 0x202F; 0x205F;
                        0x3000; 0xFEFF]%N)
  || ((0x2000 <=? c) && (c <=? 0x200A))%N.

Fixpoint trim_start (s : jsstring) : jsstring :=
  match s with
  | c :: r => if is_white_space c then trim_start r else s
  | [] => []
  end.

(** The longest prefix of hex digits, as a number. *)
Fixpoint hex_prefix (acc : option Z) (s : jsstring) : option Z :=
  match s with
  | c :: r =>
      match hex_val c with
      | Some v => hex_prefix (Some (16 * default 0%Z acc + Z.of_N v)%Z) r
      | None => acc
      end
  | [] => acc
  end.

(** [parseInt(s, 16)]; [None] is [NaN]. *)
Definition parseInt16 (s : jsstring) : option Z :=
  let s1 := trim_start s in
  let '(sign, s2) :=
    match s1 with
    | c :: r =>
        if (c =? 45)%N then ((-1)%Z, r)
        else if (c =? 43)%N then (1%Z, r)
        else (1%Z, s1)
    | [] => (1%Z, [])
    end in
  let s3 :=
    match s2 with
    | z :: x :: r =>
        if (z =? 48)%N && ((x =? 120)%N || (x =? 88)%N) then r else s2
    | _ => s2
    end in
  (fun v => (sign * v)%Z) <$> hex_prefix None s3.

(** [new Uint8Array(hexChunks.map(byte => parseInt(byte, 16)))]; [NaN] is
    stored as 0. *)
Definition parse_hex (s : jsstring) : Buffer.t :=
  map (fun chunk => byte_of_Z (default 0%Z (parseInt16 chunk))) (chunks s).

(** [encrypt(message, peerId)]; the missing secret is reported before the
    [try], so without the prefix of the [catch]. *)
Definition encrypt (codec : TextCodec) (this : ClientQuantumCrypto.t)
    (message : jsstring) (peerId : string) (now : Z) : Result Envelope :=
  match ClientQuantumCrypto.sharedSecrets this !! peerId with
  | None => Throw ("No shared secret available for peer " +:+ peerId)
  | Some sharedSecret =>
      let messageBytes := encode_text codec message in
      let encrypted := QuantumCrypto.xor_stream sharedSecret messageBytes in
      Ok (mkEnvelope (EString (hexString encrypted)) (Some "XOR-Demo") now
            (Some peerId) None (Some "hex"))
  end.

(** [handleReceivedMessage]'s preparation of the envelope: the sender named
    by the relay is written into it unless it names one already. *)
Definition with_sender (fromPeer_ : option string) (e : Envelope) : Envelope :=
  if negb (truthy_id (fromPeer e)) && truthy_id fromPeer_
  then mkEnvelope (encrypted e) (algorithm e) (timestamp e) (forPeer e)
         fromPeer_ (format e)
  else e.

(** The bytes [decrypt] reads from the [encrypted] field. *)
Definition encrypted_bytes (codec : TextCodec) (e : Envelope) : Result Buffer.t :=
  match encrypted e with
  | EString s =>
      if bool_decide (format e = Some "hex") then Ok (parse_hex s)
      else if hexPattern_test s && Nat.even (length s) then Ok (parse_hex s)
      else Ok (encode_text codec s)
  | EArray a => Ok (from_array a)
  | EBytes b => Ok b
  | EOther text =>
      match encoder codec with
      | Some encode => Ok (encode text)
      | None =>
          Throw "Failed to convert unsupported format: TextEncoder is not defined"
      end
  end.

(** The [try] block of [decrypt], with the secret found. *)
Definition decrypt_with (codec : TextCodec) (sharedSecret : Buffer.t)
    (e : Envelope) : Result jsstring :=
  match encrypted_bytes codec e with
  | Throw reason => Throw ("Failed to decrypt message: " +:+ reason)
  | Ok encryptedBytes =>
      let result :=
        decode_text codec (QuantumCrypto.xor_stream sharedSecret encryptedBytes) in
      match result with
      | [] =>
          Throw "Failed to decrypt message: Decryption produced invalid result: string"
      | _ => Ok result
      end
  end.

(** [decrypt(encryptedData)]: the result, the instance afterwards and the
    digest promises the call leaves behind.  Without a secret for the
    sender, a known public key starts the key exchange, whose promise is
    dropped, and the call fails; the secret is stored only when that
    promise resolves ([ClientQuantumCrypto.resolve]), after the call has
    thrown.  As [ClientQuantumCrypto.performKeyExchange], this is the call
    on a browser that offers [crypto.subtle.digest]; without it the
    exchange started here fails as [performKeyExchange_fallback] does. *)
Definition decrypt (codec : TextCodec) (this : ClientQuantumCrypto.t)
    (e : Envelope)
    : Result jsstring * ClientQuantumCrypto.t * list ClientQuantumCrypto.Exchange :=
  let peerId := if truthy_id (fromPeer e) then fromPeer e else forPeer e in
  match peerId with
  | Some p =>
      if truthy_id peerId then
        match ClientQuantumCrypto.sharedSecrets this !! p with
        | Some sharedSecret => (decrypt_with codec sharedSecret e, this, [])
        | None =>
            match ClientQuantumCrypto.peers this !! p with
            | Some (c :: pk) =>
                match ClientQuantumCrypto.performKeyExchange (encoder codec) this
                        (c :: pk) (Some p) with
                | (Throw reason, this') => (Throw reason, this', [])
                | (Ok exchange, this') =>
                    (Throw ("Shared secret not ready yet for peer " +:+ p
                              +:+ ". Message will be decrypted after key exchange."),
                     this', [exchange])
                end
            | _ => (Throw ("No public key available for peer " +:+ p), this, [])
            end
        end
      else (Throw "No peer ID found in the encrypted data", this, [])
  | None => (Throw "No peer ID found in the encrypted data", this, [])
  end.

(** [simpleHash(data)] on the [Uint8Array] it is given: the first round of
    its loop calls [data.charCodeAt], which a typed array does not have. *)
Definition simpleHash (data : Buffer.t) : Result Buffer.t :=
  match data with
  | [] => Ok (repeat (byte_of_N 0) 32)
  | _ => Throw "data.charCodeAt is not a function"
  end.

(** [performKeyExchange(peerPublicKey, peerId)] on a browser that has
    [TextEncoder] but no [crypto.subtle.digest] (a page not served from a
    secure origin, the polyfills not loaded). *)
Definition performKeyExchange_fallback (this : ClientQuantumCrypto.t)
    (peerPublicKey : jsstring) (peerId : option string)
    : Result bool * ClientQuantumCrypto.t :=
  match ClientQuantumCrypto.publicKey this with
  | None => (Throw "No public key available", this)
  | Some [] => (Throw "No public key available", this)
  | Some own =>
      match peerId with
      | Some p =>
          if truthy_id peerId then
            let this1 :=
              ClientQuantumCrypto.mk (ClientQuantumCrypto.publicKey this)
                (ClientQuantumCrypto.sharedSecrets this)
                (<[p := peerPublicKey]> (ClientQuantumCrypto.peers this)) in
            let data :=
              Utf8.encode (concat (ClientQuantumCrypto.sort2 own peerPublicKey)) in
            match simpleHash data with
            | Throw reason => (Throw reason, this1)
            | Ok sharedSecret =>
                (Ok true,
                 ClientQuantumCrypto.mk (ClientQuantumCrypto.publicKey this)
                   (<[p := sharedSecret]> (ClientQuantumCrypto.sharedSecrets this))
                   (<[p := peerPublicKey]> (ClientQuantumCrypto.peers this)))
            end
          else (Throw "Peer ID is required for key exchange", this)
      | None => (Throw "Peer ID is required for key exchange", this)
      end
  end.

(** The [encryptedMessages] of [sendMessage]: one entry for every peer with
    a stored secret, [{ forPeer: peerId, data: this.crypto.encrypt(messageText,
    peerId) }].  A [Map] lists its keys in insertion order; the finite map
    lists them in the order of [map_to_list]. *)
Definition encryptedMessages (codec : TextCodec) (this : ClientQuantumCrypto.t)
    (messageText : jsstring) (now : Z)
    : Result (list (@Server.Entry Envelope)) :=
  foldr (fun peerId rest =>
           match encrypt codec this messageText peerId now with
           | Throw reason => Throw reason
           | Ok data =>
               match rest with
               | Ok entries => Ok (Server.mkEntry peerId data :: entries)
               | Throw reason => Throw reason
               end
           end)
        (Ok []) (map_to_list (ClientQuantumCrypto.sharedSecrets this)).*1.

End ClientCipher.

(** ** Two browsers *)
Module Browsers.

(** Two clients that received their public keys from the server. *)
Definition alice : ClientQuantumCrypto.t :=
  ClientQuantumCrypto.mk (Some Scenario.pkA) ∅ ∅.
Definition bob : ClientQuantumCrypto.t :=
  ClientQuantumCrypto.mk (Some Scenario.pkB) ∅ ∅.

(** Each after the key exchange with the other has resolved, both with
    the browser's own SHA-256. *)
Definition alice1 : ClientQuantumCrypto.t :=
  ClientQuantumCrypto.exchanged (Some Utf8.encode) NodeCrypto.sha256 alice
    Scenario.pkB (Some "B").
Definition bob1 : ClientQuantumCrypto.t :=
  ClientQuantumCrypto.exchanged (Some Polyfill.encode) NodeCrypto.sha256 bob
    Scenario.pkA (Some "A").

(** [bob] on a page without [crypto.subtle], where the polyfill computes
    the digest. *)
Definition bob_polyfilled : ClientQuantumCrypto.t :=
  ClientQuantumCrypto.exchanged (Some Utf8.encode) Polyfill.digest bob
    Scenario.pkA (Some "A").

(** [bob] when only the announcement of [alice]'s key has reached him. *)
Definition bob_knows_key : ClientQuantumCrypto.t :=
  ClientQuantumCrypto.mk (Some Scenario.pkB) ∅ (<["A" := Scenario.pkA]> ∅).

(** A relayed envelope from [alice]. *)
Definition from_alice : ClientCipher.Envelope :=
  ClientCipher.mkEnvelope (ClientCipher.EString (js "00ff")) (Some "XOR-Demo") 7
    (Some "B") (Some "A") (Some "hex").

(** What [alice] sends to [bob] for the text 'hello', as relayed. *)
Definition hello_for_bob : ClientCipher.Envelope :=
  match ClientCipher.encrypt ClientCipher.native alice1 (js "hello") "B" 7 with
  | Ok e => ClientCipher.with_sender (Some "A") e
  | Throw _ => from_alice
  end.

End Browsers.

(** ** What an observer of the wire reads *)
Module Wire.

(** The bytes behind the hex text of an envelope made by [encrypt]. *)
Definition cipher_bytes (e : QuantumCrypto.EncryptedData) : Buffer.t :=
  match QuantumCrypto.encrypted e with
  | Some (QuantumCrypto.EString s) => Buffer.from_hex s
  | _ => []
  end.

End Wire.

(** ** Invariants of the server's registry *)
Module Invariants.
Import Server.

(** What every entry of the registry satisfies in a state the server can
    reach: no per-peer secrets, a secret only with a key pair, readiness
    only with a secret, the published key that of the key pair, and no id
    listed twice in [sentPublicKeyTo]. *)
Definition consistent (c : Client) : Prop :=
  QuantumCrypto.sharedSecrets (crypto c) = None
  /\ (is_Some (QuantumCrypto.sharedSecret (crypto c)) ->
      is_Some (QuantumCrypto.keyPair (crypto c)))
  /\ (ready c = true -> is_Some (QuantumCrypto.sharedSecret (crypto c)))
  /\ publicKey c
     = (fun kp => Buffer.to_hex (QuantumCrypto.kp_public kp))
         <$> QuantumCrypto.keyPair (crypto c)
  /\ NoDup (default [] (sentPublicKeyTo c)).

(** The socket of an entry has left the connecting state, as every socket
    handed over by the WebSocket server has. *)
Definition connected_socket (c : Client) : Prop :=
  readyState (ws c) <> CONNECTING.

(** A computation that, run from a registry whose entries satisfy [P],
    sends only messages with property [Q] and leaves a registry whose
    entries satisfy [P]. *)
Definition sends_at {Payload T : Type} (P : string -> Client -> Prop)
    (Q : @Event Payload -> Prop) (m : @M Payload T)
    (reg : gmap string Client) : Prop :=
  map_Forall P reg -> Forall Q (m reg).2 /\ map_Forall P (m reg).1.2.

(** A message that is about a session is about [clientId]. *)
Definition names_sender {Payload : Type} (clientId : string)
    (e : @Event Payload) : Prop :=
  match e with
  | Send _ (message_received_fromPeer from _ _) => from = clientId
  | Send _ (message_received_from from _ _) => from = clientId
  | Send _ (peer_public_key from _ _ _) => from = clientId
  | Send _ (peer_ready from _) => from = clientId
  | _ => True
  end.

(** A [key_exchange_complete] notice reports a finished set-up. *)
Definition reports_ready {Payload : Type} (e : @Event Payload) : Prop :=
  match e with
  | Send _ (key_exchange_complete _ info _) =>
      QuantumCrypto.si_keyPairGenerated info = true
      /\ QuantumCrypto.si_sharedSecretEstablished info = true
      /\ QuantumCrypto.si_status info = "Ready"%string
  | _ => True
  end.

(** The random bytes an event draws for a key generation, with the
    session they are drawn for. *)
Definition draws {Payload : Type} (ev : @ServerEvent Payload)
    : option (string * QuantumCrypto.Entropy) :=
  match ev with
  | on_keygen_timer clientId rnd _ => Some (clientId, rnd)
  | on_message clientId (Some generate_keys) rnd _ => Some (clientId, rnd)
  | _ => None
  end.

(** [k] is the hex text of a public key drawn for [clientId] by one of
    [evs]. *)
Definition generated_key {Payload : Type} (evs : list (@ServerEvent Payload))
    (clientId : string) (k : option jsstring) : Prop :=
  exists ev rnd,
    ev ∈ evs /\ draws ev = Some (clientId, rnd)
    /\ k = Some (Buffer.to_hex (QuantumCrypto.rnd_public rnd)).

(** A key announcement carries a key generated for the session it names. *)
Definition vouched {Payload : Type} (evs : list (@ServerEvent Payload))
    (e : @Event Payload) : Prop :=
  match e with
  | Send _ (peer_public_key clientId k _ _) => generated_key evs clientId k
  | _ => True
  end.

(** The entry under [clientId] is consistent and its public key, if any,
    was generated for [clientId]. *)
Definition key_on_record {Payload : Type} (evs : list (@ServerEvent Payload))
    (clientId : string) (c : Client) : Prop :=
  consistent c
  /\ forall k, publicKey c = Some k -> generated_key evs clientId (Some k).

(** [ev] puts a socket back into the connecting state. *)
Definition reconnects {Payload : Type} (ev : @ServerEvent Payload) : bool :=
  match ev with
  | on_socket_state _ CONNECTING => true
  | _ => false
  end.

(** The process is alive after [evs]: no event ended in an uncaught
    exception. *)
Fixpoint survives {Payload : Type} (reg : gmap string Client)
    (evs : list (@ServerEvent Payload)) : bool :=
  match evs with
  | [] => true
  | ev :: rest =>
      match dispatch ev reg with
      | (Ok _, reg1, _) => survives reg1 rest
      | (Throw _, _, _) => false
      end
  end.

End Invariants.

(** * Properties *)

(** Linear arithmetic with division and remainder by constants. *)
Ltac dlia := zify; Z.to_euclidean_division_equations; lia.

(** ** Bytes, hex text and the XOR stream *)
Section BufferFacts.
Import Buffer.

Lemma byte_of_N_to_N (b : byte) : byte_of_N (Byte.to_N b) = b.
Proof.
  unfold byte_of_N.
  pose proof (Byte.to_N_bounded b) as Hb.
  rewrite N.mod_small by lia.
  by rewrite Byte.of_to_N.
Qed.

Lemma to_N_byte_of_N (n : N) : (n < 256)%N -> Byte.to_N (byte_of_N n) = n.
Proof.
  intros Hn. unfold byte_of_N. rewrite N.mod_small by lia.
  destruct (Byte.of_N n) as [b|] eqn:E.
  - simpl. by apply Byte.to_of_N.
  - apply Byte.of_N_None_iff in E. lia.
Qed.

Lemma to_N_lt (b : byte) : (Byte.to_N b < 256)%N.
Proof. pose proof (Byte.to_N_bounded b). lia. Qed.

Lemma lxor_byte_bound (x y : N) :
  (x < 256)%N -> (y < 256)%N -> (N.lxor x y < 256)%N.
Proof.
  intros Hx Hy.
  destruct (N.eq_dec (N.lxor x y) 0%N) as [->|Hne]; [lia|].
  change 256%N with (2 ^ 8)%N.
  apply N.log2_lt_pow2; [lia|].
  pose proof (N.log2_lxor x y) as Hl.
  assert (N.log2 x < 8)%N.
  { destruct (N.eq_dec x 0%N) as [->|]; [simpl; lia|].
    apply N.log2_lt_pow2; [lia|]. by change (2 ^ 8)%N with 256%N. }
  assert (N.log2 y < 8)%N.
  { destruct (N.eq_dec y 0%N) as [->|]; [simpl; lia|].
    apply N.log2_lt_pow2; [lia|]. by change (2 ^ 8)%N with 256%N. }
  lia.
Qed.

Lemma to_N_bxor (a b : byte) :
  Byte.to_N (bxor a b) = N.lxor (Byte.to_N a) (Byte.to_N b).
Proof.
  unfold bxor. apply to_N_byte_of_N.
  apply lxor_byte_bound; apply to_N_lt.
Qed.

(** XOR with the same key byte twice is the identity. *)
Lemma bxor_involutive (a k : byte) : bxor (bxor a k) k = a.
Proof.
  unfold bxor at 1. rewrite to_N_bxor.
  rewrite N.lxor_assoc, N.lxor_nilpotent, N.lxor_0_r.
  apply byte_of_N_to_N.
Qed.

Lemma hex_val_hex_digit (n : N) : (n < 16)%N -> hex_val (hex_digit n) = Some n.
Proof.
  intros Hn. unfold hex_val, hex_digit.
  destruct (N.ltb_spec n 10).
  - replace ((48 <=? 48 + n)%N && (48 + n <=? 57)%N) with true.
    + f_equal. lia.
    + symmetry. apply andb_true_iff. split; apply N.leb_le; lia.
  - replace ((48 <=? 87 + n)%N && (87 + n <=? 57)%N) with false.
    + replace ((97 <=? 87 + n)%N && (87 + n <=? 102)%N) with true.
      * f_equal. lia.
      * symmetry. apply andb_true_iff. split; apply N.leb_le; lia.
    + symmetry. apply andb_false_iff. right. apply N.leb_gt. lia.
Qed.

(** Parsing the hex text of a buffer gives the buffer back. *)
Lemma from_hex_to_hex (b : Buffer.t) : from_hex (to_hex b) = b.
Proof.
  induction b as [|x r IH]; [done|].
  pose proof (to_N_lt x) as Hx.
  cbn [to_hex from_hex].
  rewrite !hex_val_hex_digit.
  - rewrite IH. f_equal.
    rewrite <- (byte_of_N_to_N x) at 3. f_equal.
    rewrite (N.div_mod (Byte.to_N x) 16) at 3 by lia. lia.
  - apply N.mod_lt. lia.
  - apply N.Div0.div_lt_upper_bound. lia.
Qed.

Lemma to_hex_inj (a b : Buffer.t) : to_hex a = to_hex b -> a = b.
Proof.
  intros H. rewrite <- (from_hex_to_hex a), <- (from_hex_to_hex b).
  by rewrite H.
Qed.

Lemma to_hex_nil_inv (b : Buffer.t) : to_hex b = [] -> b = [].
Proof. by destruct b. Qed.

(** The hex text of a buffer uses only the digits [0-9a-f]. *)
Lemma to_hex_lowercase (b : Buffer.t) :
  Forall (fun c => (48 <= c <= 57)%N \/ (97 <= c <= 102)%N) (to_hex b).
Proof.
  assert (Hd : forall n, (n < 16)%N ->
             (48 <= hex_digit n <= 57)%N \/ (97 <= hex_digit n <= 102)%N).
  { intros n Hn. unfold hex_digit. destruct (N.ltb_spec n 10); lia. }
  induction b as [|x r IH]; [constructor|].
  pose proof (to_N_lt x) as Hx.
  cbn [to_hex]. constructor; [|constructor; [|done]].
  - apply Hd. apply N.Div0.div_lt_upper_bound. lia.
  - apply Hd. apply N.mod_lt. lia.
Qed.

Lemma hex_val_digit_is_Some (n : N) :
  (n < 16)%N -> is_Some (hex_val (hex_digit n)).
Proof. intros H. rewrite hex_val_hex_digit by done. eauto. Qed.

Lemma hexPattern_test_to_hex (b : Buffer.t) :
  b <> [] -> hexPattern_test (to_hex b) = true.
Proof.
  intros Hb. unfold hexPattern_test.
  destruct (to_hex b) eqn:E; [by apply to_hex_nil_inv in E|].
  rewrite <- E. clear E Hb. apply forallb_forall. intros c Hc.
  apply bool_decide_eq_true.
  induction b as [|x r IH]; [destruct Hc|].
  cbn [to_hex] in Hc. pose proof (to_N_lt x).
  destruct Hc as [<-|[<-|Hc]]; [| |by apply IH]; apply hex_val_digit_is_Some; dlia.
Qed.

Lemma byte_of_Z_to_N (b : byte) : byte_of_Z (Z.of_N (Byte.to_N b)) = b.
Proof.
  unfold byte_of_Z. pose proof (to_N_lt b).
  rewrite Z.mod_small by lia. rewrite N2Z.id. apply byte_of_N_to_N.
Qed.

Lemma from_array_bytes (b : Buffer.t) :
  from_array (map (fun x => Z.of_N (Byte.to_N x)) b) = b.
Proof.
  unfold from_array. rewrite map_map.
  induction b as [|x r IH]; [done|]. cbn [map]. by rewrite byte_of_Z_to_N, IH.
Qed.

End BufferFacts.

(** ** The UTF-8 codec on well-formed strings *)
Section Utf8Facts.
Import Buffer Utf8.

Local Ltac cmp :=
  repeat match goal with
    | |- context [(?a <? ?b)%N] => destruct (N.ltb_spec a b)
    | |- context [(?a <=? ?b)%N] => destruct (N.leb_spec a b)
    | |- context [(?a =? ?b)%N] => destruct (N.eqb_spec a b)
    end;
  simpl; try lia; try done.

Lemma start_1 (b : N) : (b < 0x80)%N -> start b = ([b], None).
Proof. intros. unfold start. cmp. Qed.

Lemma start_2 (b : N) :
  (0xC2 <= b <= 0xDF)%N ->
  start b = ([], Some (mkPending (b - 0xC0) 1 0x80 0xBF)).
Proof. intros. unfold start. cmp. Qed.

Lemma start_3 (b : N) :
  (0xE0 <= b <= 0xEF)%N ->
  start b = ([], Some (mkPending (b - 0xE0) 2
                         (if (b =? 0xE0)%N then 0xA0%N else 0x80%N)
                         (if (b =? 0xED)%N then 0x9F%N else 0xBF%N))).
Proof.
  intros. unfold start.
  destruct (N.ltb_spec b 0x80); [lia|].
  destruct (N.leb_spec 0xC2 b), (N.leb_spec b 0xDF); simpl; try lia;
    destruct (N.leb_spec 0xE0 b), (N.leb_spec b 0xEF); simpl; try lia; done.
Qed.

Lemma start_4 (b : N) :
  (0xF0 <= b <= 0xF4)%N ->
  start b = ([], Some (mkPending (b - 0xF0) 3
                         (if (b =? 0xF0)%N then 0x90%N else 0x80%N)
                         (if (b =? 0xF4)%N then 0x8F%N else 0xBF%N))).
Proof.
  intros. unfold start.
  destruct (N.ltb_spec b 0x80); [lia|].
  destruct (N.leb_spec 0xC2 b), (N.leb_spec b 0xDF); simpl; try lia;
    destruct (N.leb_spec 0xE0 b), (N.leb_spec b 0xEF); simpl; try lia;
    destruct (N.leb_spec 0xF0 b), (N.leb_spec b 0xF4); simpl; try lia; done.
Qed.

(** One continuation byte, read while [k] more are expected after it. *)
Lemma decode_continue (a lo hi e : N) (n : nat) (rest : Buffer.t) :
  (e < 256)%N -> (lo <= e <= hi)%N ->
  decode_from (Some (mkPending a n lo hi)) (byte_of_N e :: rest) =
    match n with
    | S (S k) =>
        decode_from (Some (mkPending (a * 64 + (e - 0x80)) (S k) 0x80 0xBF)) rest
    | _ => code_units (a * 64 + (e - 0x80)) ++ decode_from None rest
    end.
Proof.
  intros He Hr. cbn [decode_from lower upper acc remaining].
  rewrite to_N_byte_of_N by done.
  destruct (N.leb_spec lo e), (N.leb_spec e hi); simpl; try lia; done.
Qed.

Lemma decode_start (e : N) (rest : Buffer.t) :
  (e < 256)%N ->
  decode_from None (byte_of_N e :: rest) =
    let '(out, st') := start e in out ++ decode_from st' rest.
Proof. intros He. cbn [decode_from]. by rewrite to_N_byte_of_N. Qed.

Lemma decode_code_point (p : N) (rest : Buffer.t) :
  scalar p ->
  decode_from None (encode_code_point p ++ rest) =
    code_units p ++ decode_from None rest.
Proof.
  intros [Hp Hs]. unfold encode_code_point.
  destruct (N.ltb_spec p 0x80) as [H1|H1].
  { cbn [app]. rewrite decode_start by dlia. rewrite start_1 by dlia.
    unfold code_units. destruct (N.ltb_spec p 0x10000); [done|dlia]. }
  destruct (N.ltb_spec p 0x800) as [H2|H2].
  { cbn [app]. rewrite decode_start by dlia. rewrite start_2 by dlia.
    cbn [app]. rewrite decode_continue by dlia.
    do 2 f_equal. dlia. }
  destruct (N.ltb_spec p 0x10000) as [H3|H3].
  { cbn [app]. rewrite decode_start by dlia. rewrite start_3 by dlia.
    cbn [app]. rewrite decode_continue.
    - rewrite decode_continue by dlia. do 2 f_equal. dlia.
    - dlia.
    - destruct (N.eqb_spec (0xE0 + p / 4096) 0xE0),
        (N.eqb_spec (0xE0 + p / 4096) 0xED); dlia. }
  cbn [app]. rewrite decode_start by dlia. rewrite start_4 by dlia.
  cbn [app]. rewrite decode_continue.
  - rewrite decode_continue by dlia. rewrite decode_continue by dlia.
    do 2 f_equal. dlia.
  - dlia.
  - destruct (N.eqb_spec (0xF0 + p / 262144) 0xF0),
      (N.eqb_spec (0xF0 + p / 262144) 0xF4); dlia.
Qed.

Lemma surrogate_bounds (c : N) (lo hi : N) :
  ((lo <=? c) && (c <=? hi))%N = true <-> (lo <= c <= hi)%N.
Proof. rewrite andb_true_iff, !N.leb_le. tauto. Qed.

Lemma decode_encode_bounded (n : nat) (s : jsstring) :
  (length s <= n)%nat -> well_formed s = true -> decode (encode s) = s.
Proof.
  unfold decode. revert s. induction n as [|n IH]; intros s Hlen Hwf.
  { destruct s; [done|simpl in Hlen; lia]. }
  destruct s as [|c rest]; [done|].
  simpl in Hlen. cbn [well_formed encode] in *.
  destruct (is_high_surrogate c) eqn:Hh.
  - destruct rest as [|d rest']; [done|].
    apply andb_true_iff in Hwf as [Hd Hwf]. rewrite Hd.
    apply surrogate_bounds in Hh. apply surrogate_bounds in Hd.
    rewrite decode_code_point by (unfold scalar; lia).
    rewrite IH by (simpl in Hlen; try lia; done).
    unfold code_units.
    destruct (N.ltb_spec (0x10000 + (c - 0xD800) * 1024 + (d - 0xDC00)) 0x10000);
      [lia|].
    cbn [app]. f_equal; [dlia|]. f_equal. dlia.
  - apply andb_true_iff in Hwf as [Hc Hwf].
    apply andb_true_iff in Hc as [Hc Hl].
    apply negb_true_iff in Hl. rewrite Hl.
    apply N.ltb_lt in Hc.
    assert (Hsc : scalar c).
    { split; [lia|]. intros Hr.
      destruct (N.le_gt_cases c 0xDBFF) as [Hle|Hgt].
      - assert (is_high_surrogate c = true) by (apply surrogate_bounds; lia).
        congruence.
      - assert (is_low_surrogate c = true) by (apply surrogate_bounds; lia).
        congruence. }
    rewrite decode_code_point by done.
    rewrite IH by (try lia; done).
    unfold code_units. destruct (N.ltb_spec c 0x10000); [done|lia].
Qed.

(** Decoding the UTF-8 bytes of a well-formed string gives the string
    back. *)
Lemma decode_encode (s : jsstring) :
  well_formed s = true -> decode (encode s) = s.
Proof. apply (decode_encode_bounded (length s)). lia. Qed.

Lemma encode_code_point_not_nil (p : N) : encode_code_point p <> [].
Proof.
  unfold encode_code_point.
  destruct (p <? 0x80)%N, (p <? 0x800)%N, (p <? 0x10000)%N; done.
Qed.

(** A non-empty string has at least one byte. *)
Lemma encode_not_nil (s : jsstring) : s <> [] -> encode s <> [].
Proof.
  destruct s as [|c rest]; [done|]. intros _ H. cbn [encode] in H.
  destruct (is_high_surrogate c); [destruct rest as [|d rest']|].
  - by apply encode_code_point_not_nil in H.
  - destruct (is_low_surrogate d);
      apply app_eq_nil in H as [H _]; by apply encode_code_point_not_nil in H.
  - destruct (is_low_surrogate c);
      apply app_eq_nil in H as [H _]; by apply encode_code_point_not_nil in H.
Qed.

End Utf8Facts.

Section CipherFacts.
Import Buffer QuantumCrypto.

Lemma xor_from_involutive (secret bytes : Buffer.t) (i : nat) :
  xor_from i secret (xor_from i secret bytes) = bytes.
Proof.
  revert i. induction bytes as [|b r IH]; intros i; [done|].
  cbn [xor_from]. by rewrite bxor_involutive, IH.
Qed.

Lemma xor_from_length (secret bytes : Buffer.t) (i : nat) :
  length (xor_from i secret bytes) = length bytes.
Proof.
  revert i. induction bytes as [|b r IH]; intros i; [done|].
  cbn [xor_from length]. by rewrite IH.
Qed.

Lemma xor_from_lookup (secret bytes : Buffer.t) (i j : nat) (b : byte) :
  bytes !! j = Some b ->
  xor_from i secret bytes !! j = Some (bxor b (key_at secret (i + j))).
Proof.
  revert i j. induction bytes as [|x r IH]; intros i j H; [done|].
  destruct j as [|j]; cbn [xor_from].
  - simpl in H. injection H as ->. simpl. by rewrite Nat.add_0_r.
  - simpl in H. simpl. rewrite (IH (S i) j H). do 3 f_equal. lia.
Qed.

(** Decryption's XOR pass undoes encryption's. *)
Lemma xor_stream_involutive (secret bytes : Buffer.t) :
  xor_stream secret (xor_stream secret bytes) = bytes.
Proof. apply xor_from_involutive. Qed.

End CipherFacts.

(** ** Round trip of the cipher *)
Section RoundTrip.
Import Buffer QuantumCrypto.

Lemma secret_for_decrypt_same (this : QuantumCrypto.t) (e : EncryptedData)
    (peerId : option string) :
  forPeer e = peerId ->
  secret_for_decrypt this e peerId = secret_for this peerId
  /\ secret_for_decrypt this e None = secret_for this peerId.
Proof.
  intros <-. unfold secret_for_decrypt, secret_for.
  destruct (forPeer e) as [p|], (sharedSecrets this) as [m|]; simpl; try done.
  destruct (negb (String.eqb p "")); [|done].
  by destruct (m !! p).
Qed.

Lemma key_at_lookup (secret : Buffer.t) (i : nat) :
  (0 < length secret)%nat ->
  secret !! (i mod length secret)%nat = Some (key_at secret i).
Proof.
  intros HL. unfold key_at.
  destruct (secret !! (i mod length secret)%nat) as [k|] eqn:E; [done|].
  apply lookup_ge_None in E.
  pose proof (Nat.mod_upper_bound i (length secret)). lia.
Qed.

(** C1 (as amended).  For every instance whose secret for [peerId] is [s],
    of positive length L, and every plaintext [m] that is non-empty and
    well-formed Unicode: [encrypt] emits the lowercase hex text of the
    stream ciphertext[i] = plaintext[i] XOR s[i mod L] over the UTF-8
    bytes of [m], tagged format 'hex', and [decrypt] of that envelope on
    the same instance, with or without the peer id, returns [m]. *)
Theorem encrypt_decrypt_round_trip (this : QuantumCrypto.t)
    (peerId : option string) (s : Buffer.t) (m : jsstring) (now : Z) :
  secret_for this peerId = Some s ->
  (0 < length s)%nat ->
  m <> [] ->
  Utf8.well_formed m = true ->
  exists cipher : Buffer.t,
    let envelope :=
      mkEncryptedData (Some (EString (to_hex cipher))) (Some "XOR-Demo") now
        peerId (Some "hex") in
    encrypt this m peerId now = Ok envelope
    /\ length cipher = length (Utf8.encode m)
    /\ (forall i b, Utf8.encode m !! i = Some b ->
          exists k, s !! (i mod length s)%nat = Some k
                    /\ cipher !! i = Some (bxor b k))
    /\ Forall (fun c => (48 <= c <= 57)%N \/ (97 <= c <= 102)%N) (to_hex cipher)
    /\ decrypt this envelope peerId = Ok m
    /\ decrypt this envelope None = Ok m.
Proof.
  intros Hs HL Hm Hwf.
  exists (xor_stream s (Utf8.encode m)). cbn zeta.
  assert (Hne : to_hex (xor_stream s (Utf8.encode m)) <> []).
  { intros H. apply to_hex_nil_inv in H.
    apply (f_equal length) in H. unfold xor_stream in H.
    rewrite xor_from_length in H.
    apply (encode_not_nil m Hm). by apply nil_length_inv. }
  split; [by unfold encrypt; rewrite Hs|].
  split; [apply xor_from_length|].
  split.
  { intros i b Hb. exists (key_at s i). split; [by apply key_at_lookup|].
    unfold xor_stream. by rewrite (xor_from_lookup s _ 0 i b Hb). }
  split; [apply to_hex_lowercase|].
  set (envelope := mkEncryptedData _ _ _ _ _).
  destruct (secret_for_decrypt_same this envelope peerId eq_refl) as [H1 H2].
  assert (Hd : forall q, secret_for_decrypt this envelope q = Some s ->
                         decrypt this envelope q = Ok m).
  { intros q Hq. unfold decrypt. rewrite Hq. subst envelope.
    cbn [encrypted algorithm format falsy_encrypted].
    rewrite bool_decide_eq_false_2 by done.
    rewrite !bool_decide_eq_true_2 by done. cbn [orb].
    rewrite from_hex_to_hex, xor_stream_involutive.
    by rewrite decode_encode. }
  split; apply Hd; congruence.
Qed.

(** The theorem at A's secret with B and the plaintext 'hello'. *)
Lemma encrypt_decrypt_round_trip_witness :
  secret_for Scenario.cryptoA1 (Some "B") = Some Scenario.secretAB
  /\ (0 < length Scenario.secretAB)%nat
  /\ js "hello" <> []
  /\ Utf8.well_formed (js "hello") = true
  /\ exists cipher : Buffer.t,
       let envelope :=
         mkEncryptedData (Some (EString (to_hex cipher))) (Some "XOR-Demo") 7
           (Some "B") (Some "hex") in
       encrypt Scenario.cryptoA1 (js "hello") (Some "B") 7 = Ok envelope
       /\ length cipher = length (Utf8.encode (js "hello"))
       /\ (forall i b, Utf8.encode (js "hello") !! i = Some b ->
             exists k,
               Scenario.secretAB !! (i mod length Scenario.secretAB)%nat = Some k
               /\ cipher !! i = Some (bxor b k))
       /\ Forall (fun c => (48 <= c <= 57)%N \/ (97 <= c <= 102)%N)
            (to_hex cipher)
       /\ decrypt Scenario.cryptoA1 envelope (Some "B") = Ok (js "hello")
       /\ decrypt Scenario.cryptoA1 envelope None = Ok (js "hello").
Proof.
  assert (H1 : secret_for Scenario.cryptoA1 (Some "B") = Some Scenario.secretAB)
    by (vm_compute; reflexivity).
  assert (H2 : (0 < length Scenario.secretAB)%nat) by (vm_compute; lia).
  assert (H3 : js "hello" <> []) by (vm_compute; discriminate).
  assert (H4 : Utf8.well_formed (js "hello") = true) by (vm_compute; reflexivity).
  exact (conj H1 (conj H2 (conj H3 (conj H4
    (encrypt_decrypt_round_trip Scenario.cryptoA1 (Some "B") Scenario.secretAB
       (js "hello") 7 H1 H2 H3 H4))))).
Defined.

(** C1 as stated fails on the empty plaintext: its envelope carries the
    empty hex text, which [decrypt] takes for a missing field.  It also
    fails on a string with an unpaired surrogate, which the UTF-8 encoding
    replaces by U+FFFD. *)
Lemma empty_plaintext_not_recovered :
  secret_for Scenario.cryptoA1 (Some "B") = Some Scenario.secretAB
  /\ (0 < length Scenario.secretAB)%nat
  /\ encrypt Scenario.cryptoA1 [] (Some "B") 7
       = Ok (mkEncryptedData (Some (EString [])) (Some "XOR-Demo") 7 (Some "B")
               (Some "hex"))
  /\ decrypt Scenario.cryptoA1
       (mkEncryptedData (Some (EString [])) (Some "XOR-Demo") 7 (Some "B")
          (Some "hex")) (Some "B")
     = Throw "Failed to decrypt message: Missing required encryption fields"
  /\ match encrypt Scenario.cryptoA1 [0xD83D%N] (Some "B") 7 with
     | Ok envelope => decrypt Scenario.cryptoA1 envelope (Some "B")
     | Throw e => Throw e
     end = Ok [0xFFFD%N].
Proof.
  split; [vm_compute; reflexivity|].
  split; [vm_compute; lia|].
  split; [vm_compute; reflexivity|].
  split; [vm_compute; reflexivity|].
  vm_compute. reflexivity.
Qed.

End RoundTrip.

(** ** Shared-secret derivation *)
Section Derivation.
Import Buffer.

Lemma to_N_inj (x y : byte) : Byte.to_N x = Byte.to_N y -> x = y.
Proof.
  intros H. rewrite <- (byte_of_N_to_N x), <- (byte_of_N_to_N y). by rewrite H.
Qed.

Lemma buffer_compare_antisym (a b : Buffer.t) :
  Buffer.compare b a = CompOpp (Buffer.compare a b).
Proof.
  revert b. induction a as [|x a IH]; intros [|y b]; simpl; try done.
  rewrite (N.compare_antisym (Byte.to_N x) (Byte.to_N y)).
  destruct (Byte.to_N x ?= Byte.to_N y)%N; simpl; auto.
Qed.

Lemma buffer_compare_eq (a b : Buffer.t) : Buffer.compare a b = Eq -> a = b.
Proof.
  revert b. induction a as [|x a IH]; intros [|y b]; simpl; try done.
  destruct (Byte.to_N x ?= Byte.to_N y)%N eqn:E; try done.
  intros H. apply N.compare_eq in E. apply to_N_inj in E.
  f_equal; auto.
Qed.

(** Both orders of the arguments sort to the same concatenation. *)
Lemma buffer_sort2_concat (a b : Buffer.t) :
  concat (QuantumCrypto.sort2 a b) = concat (QuantumCrypto.sort2 b a).
Proof.
  unfold QuantumCrypto.sort2. rewrite (buffer_compare_antisym a b).
  destruct (Buffer.compare a b) eqn:E; simpl; try done.
  apply buffer_compare_eq in E. by subst.
Qed.

Lemma string_compare_antisym (a b : jsstring) :
  ClientQuantumCrypto.compare b a = CompOpp (ClientQuantumCrypto.compare a b).
Proof.
  revert b. induction a as [|x a IH]; intros [|y b]; simpl; try done.
  rewrite (N.compare_antisym x y).
  destruct (x ?= y)%N; simpl; auto.
Qed.

Lemma string_compare_eq (a b : jsstring) :
  ClientQuantumCrypto.compare a b = Eq -> a = b.
Proof.
  revert b. induction a as [|x a IH]; intros [|y b]; simpl; try done.
  destruct (x ?= y)%N eqn:E; try done.
  intros H. apply N.compare_eq in E. subst. f_equal; auto.
Qed.

Lemma string_sort2_concat (a b : jsstring) :
  concat (ClientQuantumCrypto.sort2 a b) = concat (ClientQuantumCrypto.sort2 b a).
Proof.
  unfold ClientQuantumCrypto.sort2. rewrite (string_compare_antisym a b).
  destruct (ClientQuantumCrypto.compare a b) eqn:E; simpl; try done.
  apply string_compare_eq in E. by subst.
Qed.

(** C2.  Derivation is commutative, on the server and in the browser
    client: the two public keys are put in lexicographic order before
    they are concatenated and hashed with SHA-256, so the secret does not
    depend on which side is "own" and which is "peer".  In particular two
    server instances that each receive the other's published (hex) public
    key store the same secret, with or without a peer id. *)
Theorem derive_commutative (pkA pkB : Buffer.t) :
  QuantumCrypto.derive pkA pkB = QuantumCrypto.derive pkB pkA
  /\ (exists lo hi,
        QuantumCrypto.sort2 pkA pkB = [lo; hi]
        /\ Buffer.compare lo hi <> Gt
        /\ QuantumCrypto.derive pkA pkB = NodeCrypto.sha256 (lo ++ hi))
  /\ (forall privA privB sA sB kA kB mA mB idA idB,
        QuantumCrypto.sharedSecret
          (snd (QuantumCrypto.performKeyExchange
                  (QuantumCrypto.mk (Some (QuantumCrypto.mkKeyPair privA pkA)) sA kA mA)
                  (Some (to_hex pkB)) idB))
        = QuantumCrypto.sharedSecret
            (snd (QuantumCrypto.performKeyExchange
                    (QuantumCrypto.mk (Some (QuantumCrypto.mkKeyPair privB pkB)) sB kB mB)
                    (Some (to_hex pkA)) idA)))
  /\ (forall a b : jsstring,
        ClientQuantumCrypto.derive a b = ClientQuantumCrypto.derive b a).
Proof.
  assert (Hc : QuantumCrypto.derive pkA pkB = QuantumCrypto.derive pkB pkA).
  { unfold QuantumCrypto.derive. by rewrite buffer_sort2_concat. }
  split; [done|]. split.
  { unfold QuantumCrypto.derive, QuantumCrypto.sort2.
    destruct (Buffer.compare pkA pkB) eqn:E.
    - exists pkA, pkB. rewrite E. simpl. by rewrite app_nil_r.
    - exists pkA, pkB. rewrite E. simpl. by rewrite app_nil_r.
    - exists pkB, pkA. rewrite (buffer_compare_antisym pkA pkB), E.
      simpl. by rewrite app_nil_r. }
  split.
  { intros. cbn [QuantumCrypto.performKeyExchange QuantumCrypto.keyPair
                 QuantumCrypto.kp_public snd QuantumCrypto.sharedSecret].
    by rewrite !from_hex_to_hex, Hc. }
  intros a b. unfold ClientQuantumCrypto.derive.
  by rewrite string_sort2_concat.
Qed.

End Derivation.

(** ** Signatures *)
Section Signatures.
Import Buffer QuantumCrypto.

(** C8.  [signMessage] keys the HMAC-SHA256 of the message's SHA-256 hash
    with the signer's private signature key; [verifySignature] accepts
    exactly the signature keyed with the bytes of the [publicKey] it is
    given.  So whenever those two keys give different HMAC outputs for the
    message, the honestly produced signature is rejected. *)
Theorem honest_signature_rejected (this : QuantumCrypto.t) (sk : SignatureKey)
    (m publicKey : jsstring) (now : Z) :
  signatureKey this = Some sk ->
  NodeCrypto.hmac_sha256 (sig_private sk) (NodeCrypto.sha256 (Utf8.encode m))
    <> NodeCrypto.hmac_sha256 (from_hex publicKey)
         (NodeCrypto.sha256 (Utf8.encode m)) ->
  exists sd : SignatureData,
    signMessage this m now = Ok sd
    /\ signature sd
       = to_hex (NodeCrypto.hmac_sha256 (sig_private sk)
                   (NodeCrypto.sha256 (Utf8.encode m)))
    /\ (forall sd' : SignatureData,
          verifySignature m sd' (Some publicKey) = true <->
          signature sd'
          = to_hex (NodeCrypto.hmac_sha256 (from_hex publicKey)
                      (NodeCrypto.sha256 (Utf8.encode m))))
    /\ verifySignature m sd (Some publicKey) = false.
Proof.
  intros Hsk Hne. unfold signMessage. rewrite Hsk. eexists.
  split; [reflexivity|]. split; [reflexivity|]. split.
  - intros sd'. unfold verifySignature. apply bool_decide_eq_true.
  - unfold verifySignature. cbn [signature].
    apply bool_decide_eq_false. intros H. by apply to_hex_inj in H.
Qed.

(** The theorem for A signing 'hello' and a verifier holding A's public
    signature key. *)
Lemma honest_signature_rejected_witness :
  let sk := mkSignatureKey (rnd_sig_private Scenario.rndA)
              (rnd_sig_public Scenario.rndA) in
  let publicKey := to_hex (sig_public sk) in
  signatureKey Scenario.cryptoA0 = Some sk
  /\ NodeCrypto.hmac_sha256 (sig_private sk)
       (NodeCrypto.sha256 (Utf8.encode (js "hello")))
     <> NodeCrypto.hmac_sha256 (from_hex publicKey)
          (NodeCrypto.sha256 (Utf8.encode (js "hello")))
  /\ exists sd : SignatureData,
       signMessage Scenario.cryptoA0 (js "hello") 7 = Ok sd
       /\ signature sd
          = to_hex (NodeCrypto.hmac_sha256 (sig_private sk)
                      (NodeCrypto.sha256 (Utf8.encode (js "hello"))))
       /\ (forall sd' : SignatureData,
             verifySignature (js "hello") sd' (Some publicKey) = true <->
             signature sd'
             = to_hex (NodeCrypto.hmac_sha256 (from_hex publicKey)
                         (NodeCrypto.sha256 (Utf8.encode (js "hello")))))
       /\ verifySignature (js "hello") sd (Some publicKey) = false.
Proof.
  intros sk publicKey.
  assert (H1 : signatureKey Scenario.cryptoA0 = Some sk)
    by (vm_compute; reflexivity).
  assert (H2 : NodeCrypto.hmac_sha256 (sig_private sk)
                 (NodeCrypto.sha256 (Utf8.encode (js "hello")))
               <> NodeCrypto.hmac_sha256 (from_hex publicKey)
                    (NodeCrypto.sha256 (Utf8.encode (js "hello"))))
    by (vm_compute; discriminate).
  exact (conj H1 (conj H2
    (honest_signature_rejected Scenario.cryptoA0 sk (js "hello") publicKey 7
       H1 H2))).
Defined.

End Signatures.

(** ** The compatibility field [sharedSecret] *)
Section FallbackSecret.
Import Buffer QuantumCrypto.

Lemma secret_for_unresolved (this : QuantumCrypto.t) (q : option string) :
  resolves this q = false -> secret_for this q = sharedSecret this.
Proof.
  unfold resolves, secret_for.
  destruct q as [p|], (sharedSecrets this) as [m|]; try done.
  destruct (truthy_id (Some p)); [|done]. cbn [andb].
  intros H%bool_decide_eq_false.
  destruct (m !! p) eqn:E; [|done]. destruct H. by eexists.
Qed.

Lemma secret_for_decrypt_unresolved (this : QuantumCrypto.t)
    (e : EncryptedData) (q : option string) :
  resolves this q = false -> resolves this (forPeer e) = false ->
  secret_for_decrypt this e q = sharedSecret this.
Proof.
  assert (Hs : forall o, resolves this o = false ->
             match o, sharedSecrets this with
             | Some p, Some m => if truthy_id o then m !! p else None
             | _, _ => None
             end = None).
  { intros o. unfold resolves.
    destruct o as [p|], (sharedSecrets this) as [m|]; try done.
    destruct (truthy_id (Some p)); [|done]. cbn [andb].
    intros H%bool_decide_eq_false.
    destruct (m !! p) eqn:E; [|done]. destruct H. by eexists. }
  intros Hq He. unfold secret_for_decrypt.
  by rewrite (Hs q Hq), (Hs (forPeer e) He).
Qed.

(** C10.  Every successful [performKeyExchange], with or without a peer id,
    stores the newly derived secret in the single field [sharedSecret];
    from then on every [encrypt] and [decrypt] that does not resolve a
    per-peer secret uses that latest secret, whatever exchanges came
    before: [encrypt] XORs the text with it, [decrypt] XORs the bytes of
    the envelope, in each of its wire forms, with it, and so gives back
    what [encrypt] was given. *)
Theorem exchange_overwrites_fallback_secret (this this' : QuantumCrypto.t)
    (peerPublicKey : option jsstring) (peerId : option string) (ok : bool) :
  performKeyExchange this peerPublicKey peerId = (Ok ok, this') ->
  exists kp pk,
    keyPair this = Some kp /\ peerPublicKey = Some pk
    /\ let secret := derive (kp_public kp) (from_hex pk) in
       sharedSecret this' = Some secret
       /\ forall q : option string,
            resolves this' q = false ->
            (forall m now,
               encrypt this' m q now
               = Ok (mkEncryptedData
                       (Some (EString (to_hex (xor_stream secret (Utf8.encode m)))))
                       (Some "XOR-Demo") now q (Some "hex")))
            /\ (forall e,
                  resolves this' (forPeer e) = false ->
                  secret_for_decrypt this' e q = Some secret)
            /\ (forall (cipher : Buffer.t) (ts : Z) (for_peer fmt : option string),
                  resolves this' for_peer = false ->
                  let envelope enc :=
                    mkEncryptedData (Some enc) (Some "XOR-Demo") ts for_peer fmt in
                  decrypt this' (envelope (EBuffer cipher)) q
                  = Ok (Utf8.decode (xor_stream secret cipher))
                  /\ decrypt this'
                       (envelope (EArray (map (fun x => Z.of_N (Byte.to_N x)) cipher)))
                       q
                     = Ok (Utf8.decode (xor_stream secret cipher))
                  /\ (cipher <> [] ->
                      decrypt this' (envelope (EString (to_hex cipher))) q
                      = Ok (Utf8.decode (xor_stream secret cipher))))
            /\ (forall m now,
                  m <> [] -> Utf8.well_formed m = true ->
                  match encrypt this' m q now with
                  | Ok e => decrypt this' e q
                  | Throw reason => Throw reason
                  end = Ok m).
Proof.
  unfold performKeyExchange.
  destruct (keyPair this) as [kp|] eqn:Hkp; [|done].
  destruct peerPublicKey as [pk|]; [|done].
  intros H. injection H as _ <-. exists kp, pk.
  split; [done|]. split; [done|]. cbn zeta. split; [done|].
  intros q Hq.
  set (this' := mk (Some kp) (Some (derive (kp_public kp) (from_hex pk)))
                  (signatureKey this) _) in *.
  set (secret := derive (kp_public kp) (from_hex pk)).
  assert (Hdec : forall e, resolves this' (forPeer e) = false ->
                 secret_for_decrypt this' e q = Some secret).
  { intros e He. by rewrite (secret_for_decrypt_unresolved _ e q Hq He). }
  assert (Henc : forall m now,
            encrypt this' m q now
            = Ok (mkEncryptedData
                    (Some (EString (to_hex (xor_stream secret (Utf8.encode m)))))
                    (Some "XOR-Demo") now q (Some "hex"))).
  { intros m now. unfold encrypt. by rewrite (secret_for_unresolved _ q Hq). }
  assert (Hhex : forall cipher ts for_peer fmt,
            resolves this' for_peer = false -> cipher <> [] ->
            decrypt this'
              (mkEncryptedData (Some (EString (to_hex cipher))) (Some "XOR-Demo")
                 ts for_peer fmt) q
            = Ok (Utf8.decode (xor_stream secret cipher))).
  { intros cipher ts fp fmt Hfp Hc. unfold decrypt. rewrite Hdec by done.
    cbn [encrypted algorithm format falsy_encrypted].
    rewrite (bool_decide_eq_false_2 (to_hex cipher = []))
      by (intros E; by apply to_hex_nil_inv in E).
    rewrite bool_decide_eq_true_2 by done.
    by rewrite hexPattern_test_to_hex, orb_true_r, from_hex_to_hex. }
  split_and!; [exact Henc|exact Hdec| |].
  - intros cipher ts fp fmt Hfp. cbn zeta. split_and!.
    + unfold decrypt. rewrite Hdec by done.
      cbn [encrypted algorithm format falsy_encrypted].
      by rewrite bool_decide_eq_true_2.
    + unfold decrypt. rewrite Hdec by done.
      cbn [encrypted algorithm format falsy_encrypted].
      by rewrite bool_decide_eq_true_2, from_array_bytes.
    + by apply Hhex.
  - intros m now Hm Hwf. rewrite Henc, Hhex.
    + by rewrite xor_stream_involutive, decode_encode.
    + done.
    + unfold xor_stream. intros E. apply (f_equal length) in E.
      rewrite xor_from_length in E. apply (encode_not_nil m Hm).
      by destruct (Utf8.encode m).
Qed.

(** The theorem for A, who exchanged with B under B's id and then with C
    without an id: a message for C is encrypted under the secret with C,
    and so is a message for an unknown peer D. *)
Lemma exchange_overwrites_fallback_secret_witness :
  performKeyExchange Scenario.cryptoA1 (Some Scenario.pkC) None
    = (Ok true, Scenario.cryptoA2)
  /\ exists kp pk,
       keyPair Scenario.cryptoA1 = Some kp /\ Some Scenario.pkC = Some pk
       /\ let secret := derive (kp_public kp) (from_hex pk) in
          sharedSecret Scenario.cryptoA2 = Some secret
          /\ forall q : option string,
               resolves Scenario.cryptoA2 q = false ->
               (forall m now,
                  encrypt Scenario.cryptoA2 m q now
                  = Ok (mkEncryptedData
                          (Some (EString
                                   (to_hex (xor_stream secret (Utf8.encode m)))))
                          (Some "XOR-Demo") now q (Some "hex")))
               /\ (forall e,
                     resolves Scenario.cryptoA2 (forPeer e) = false ->
                     secret_for_decrypt Scenario.cryptoA2 e q = Some secret)
               /\ (forall (cipher : Buffer.t) (ts : Z)
                     (for_peer fmt : option string),
                     resolves Scenario.cryptoA2 for_peer = false ->
                     let envelope enc :=
                       mkEncryptedData (Some enc) (Some "XOR-Demo") ts for_peer
                         fmt in
                     decrypt Scenario.cryptoA2 (envelope (EBuffer cipher)) q
                     = Ok (Utf8.decode (xor_stream secret cipher))
                     /\ decrypt Scenario.cryptoA2
                          (envelope
                             (EArray (map (fun x => Z.of_N (Byte.to_N x)) cipher)))
                          q
                        = Ok (Utf8.decode (xor_stream secret cipher))
                     /\ (cipher <> [] ->
                         decrypt Scenario.cryptoA2
                           (envelope (EString (to_hex cipher))) q
                         = Ok (Utf8.decode (xor_stream secret cipher))))
               /\ (forall m now,
                     m <> [] -> Utf8.well_formed m = true ->
                     match encrypt Scenario.cryptoA2 m q now with
                     | Ok e => decrypt Scenario.cryptoA2 e q
                     | Throw reason => Throw reason
                     end = Ok m).
Proof.
  assert (H1 : performKeyExchange Scenario.cryptoA1 (Some Scenario.pkC) None
               = (Ok true, Scenario.cryptoA2))
    by (vm_compute; reflexivity).
  exact (conj H1
    (exchange_overwrites_fallback_secret Scenario.cryptoA1 Scenario.cryptoA2
       (Some Scenario.pkC) None true H1)).
Defined.

(** After the exchanges with B (named) and C (unnamed), A's messages for C
    and for an unknown D both use the secret with C; only B resolves. *)
Example fallback_secret_is_latest :
  sharedSecret Scenario.cryptoA2 = Some Scenario.secretAC
  /\ secret_for Scenario.cryptoA2 (Some "C") = Some Scenario.secretAC
  /\ secret_for Scenario.cryptoA2 (Some "D") = Some Scenario.secretAC
  /\ secret_for Scenario.cryptoA2 None = Some Scenario.secretAC
  /\ secret_for Scenario.cryptoA2 (Some "B") = Some Scenario.secretAB.
Proof. split_and!; vm_compute; reflexivity. Qed.

End FallbackSecret.

(** ** The relay *)
Section RelayFacts.
Import Server.
Context {Payload : Type}.

Implicit Types (reg : gmap string Client) (out : list (@Event Payload)).

Lemma is_open_OPEN (c : Client) : is_open c = true <-> readyState (ws c) = OPEN.
Proof. unfold is_open. by destruct (readyState (ws c)). Qed.

Lemma ws_send_open (to : string) (c : Client) (m : @ServerMsg Payload) reg :
  is_open c = true -> ws_send to (ws c) m reg = (Ok tt, reg, [Send to m]).
Proof. intros H%is_open_OPEN. unfold ws_send. by rewrite H. Qed.

(** A loop whose body only writes to sockets writes the outputs of its
    iterations in order. *)
Lemma forEach_emit {A} (l : list A) (f : A -> @M Payload unit)
    (g : A -> list (@Event Payload)) reg :
  (forall x, x ∈ l -> f x reg = (Ok tt, reg, g x)) ->
  forEach l f reg = (Ok tt, reg, l ≫= g).
Proof.
  induction l as [|x l IH]; intros H; [done|].
  cbn [forEach]. unfold bind at 1.
  rewrite (H x) by apply list_elem_of_here.
  rewrite IH by (intros y Hy; apply H; by apply list_elem_of_further).
  done.
Qed.

(** The recipients of a broadcast filtered by [keep]. *)
Lemma broadcast_emit (keep : string -> Client -> bool)
    (message : @ServerMsg Payload) reg :
  (forall id c, keep id c = true -> is_open c = true) ->
  clients_forEach (fun '(clientId, client) =>
      if keep clientId client then ws_send clientId (ws client) message
      else ret tt) reg
  = (Ok tt, reg,
     map_to_list reg ≫= (fun '(id, c) =>
       if keep id c then [Send id message] else [])).
Proof.
  intros Hk. unfold clients_forEach. apply forEach_emit.
  intros [id c] _. destruct (keep id c) eqn:E; [|done].
  by apply ws_send_open, (Hk id).
Qed.

Lemma elem_of_broadcast (keep : string -> Client -> bool)
    (message : @ServerMsg Payload) reg (to : string) (m : @ServerMsg Payload) :
  Send to m ∈ (map_to_list reg ≫= (fun '(id, c) =>
                 if keep id c then [Send id message] else []))
  <-> m = message /\ exists c, reg !! to = Some c /\ keep to c = true.
Proof.
  rewrite list_elem_of_bind. split.
  - intros [[id c] [Hin Hreg]]. apply elem_of_map_to_list in Hreg.
    destruct (keep id c) eqn:E; [|by apply elem_of_nil in Hin].
    apply list_elem_of_singleton in Hin. injection Hin as -> ->. eauto.
  - intros [-> [c [Hreg Hk]]]. exists (to, c). rewrite Hk.
    split; [by apply list_elem_of_singleton|by apply elem_of_map_to_list].
Qed.

Lemma broadcastToReady_emit (message : @ServerMsg Payload)
    (exclude : option string) reg :
  broadcastToReady message exclude reg
  = (Ok tt, reg,
     map_to_list reg ≫= (fun '(id, c) =>
       if bool_decide (Some id <> exclude) && ready c && is_open c
       then [Send id message] else [])).
Proof.
  unfold broadcastToReady.
  apply (broadcast_emit
           (fun id c => bool_decide (Some id <> exclude) && ready c && is_open c)).
  intros id c H. by apply andb_true_iff in H as [_ H].
Qed.

Lemma broadcastToAll_emit (message : @ServerMsg Payload)
    (exclude : option string) reg :
  broadcastToAll message exclude reg
  = (Ok tt, reg,
     map_to_list reg ≫= (fun '(id, c) =>
       if bool_decide (Some id <> exclude) && is_open c
       then [Send id message] else [])).
Proof.
  unfold broadcastToAll.
  apply (broadcast_emit
           (fun id c => bool_decide (Some id <> exclude) && is_open c)).
  intros id c H. by apply andb_true_iff in H as [_ H].
Qed.

(** What a group send writes, for a registered sender whose socket is
    open. *)
Lemma handleGroupMessage_open reg (sender : string) (client : Client)
    (entries : list (@Entry Payload)) (now : Z) :
  reg !! sender = Some client ->
  is_open client = true ->
  handleGroupMessage sender (Some entries) now reg
  = (Ok tt, reg,
     (entries ≫= (fun entry =>
        match reg !! forPeer entry with
        | Some recipient =>
            if is_open recipient
            then [Send (forPeer entry)
                    (message_received_fromPeer sender (data entry) now)]
            else []
        | None => []
        end))
     ++ [Send sender (message_sent None now)]).
Proof.
  intros Hreg Hopen. unfold handleGroupMessage.
  unfold bind at 1. unfold get_client at 1. rewrite Hreg.
  unfold try_catch, bind.
  erewrite forEach_emit.
  - rewrite ws_send_open by done. by rewrite app_nil_l.
  - intros entry _. unfold get_client.
    destruct (reg !! forPeer entry) as [recipient|]; [|done].
    destruct (is_open recipient) eqn:E; [|done].
    rewrite ws_send_open by done. done.
Qed.

(** C3.  In an addressed group send by a registered sender with an open
    connection, the relay writes one [message_received] for exactly those
    entries whose [forPeer] is registered with an open connection, each to
    the session registered under that [forPeer] and carrying that entry's
    payload; entries for absent or closed peers produce nothing (no error,
    and the other entries are still delivered); then the sender gets one
    [message_sent], whatever the number of entries.  The registry is left
    unchanged. *)
Theorem group_send_addressed reg (sender : string) (client : Client)
    (entries : list (@Entry Payload)) (now : Z) :
  reg !! sender = Some client ->
  is_open client = true ->
  exists deliveries : list (@Event Payload),
    handleGroupMessage sender (Some entries) now reg
    = (Ok tt, reg, deliveries ++ [Send sender (message_sent None now)])
    /\ (forall to m,
          Send to m ∈ deliveries <->
          exists entry recipient,
            entry ∈ entries /\ forPeer entry = to
            /\ reg !! to = Some recipient /\ is_open recipient = true
            /\ m = message_received_fromPeer sender (data entry) now)
    /\ length deliveries <= length entries.
Proof.
  intros Hreg Hopen. eexists.
  split; [by apply (handleGroupMessage_open reg sender client)|].
  split.
  - intros to m. rewrite list_elem_of_bind. split.
    + intros [entry [Hin Hentry]].
      destruct (reg !! forPeer entry) as [recipient|] eqn:Hr;
        [|by apply elem_of_nil in Hin].
      destruct (is_open recipient) eqn:Ho; [|by apply elem_of_nil in Hin].
      apply list_elem_of_singleton in Hin. injection Hin as -> ->.
      by exists entry, recipient.
    + intros (entry & recipient & Hentry & <- & Hr & Ho & ->).
      exists entry. rewrite Hr, Ho. split; [by apply list_elem_of_singleton|done].
  - clear. induction entries as [|entry entries IH]; [done|].
    change ((entry :: entries) ≫= ?f) with (f entry ++ (entries ≫= f)).
    rewrite length_app. cbn [length].
    destruct (reg !! forPeer entry) as [recipient|]; [|simpl; lia].
    destruct (is_open recipient); simpl; lia.
Qed.

(** The legacy path answers a sender that is not ready with an error and
    relays nothing. *)
Lemma handleEncryptedMessage_not_ready reg (sender : string) (client : Client)
    (encryptedData : option Payload) (now : Z) :
  reg !! sender = Some client ->
  is_open client = true ->
  ready client = false ->
  handleEncryptedMessage sender encryptedData now reg
  = (Ok tt, reg,
     [Send sender (error "Client not ready for secure communication" None)]).
Proof.
  intros Hreg Hopen Hready. unfold handleEncryptedMessage.
  unfold bind, get_client. rewrite Hreg, Hready. cbn [negb].
  by rewrite ws_send_open.
Qed.

(** C4 (as amended).  A legacy broadcast from a registered sender with an
    open connection: if the sender is not ready, the only effect is one
    error message to the sender, and nothing is relayed; if the sender is
    ready, the ciphertext goes to exactly the sessions other than the
    sender that are ready and whose connection is open (so to no session
    that is not ready), followed by one [message_sent] to the sender. *)
Theorem legacy_broadcast reg (sender : string) (client : Client)
    (encryptedData : option Payload) (now : Z) :
  reg !! sender = Some client ->
  is_open client = true ->
  (ready client = false ->
   handleEncryptedMessage sender encryptedData now reg
   = (Ok tt, reg,
      [Send sender (error "Client not ready for secure communication" None)]))
  /\ (ready client = true ->
      exists deliveries : list (@Event Payload),
        handleEncryptedMessage sender encryptedData now reg
        = (Ok tt, reg,
           deliveries
             ++ [Send sender (message_sent (Some "Message sent securely") now)])
        /\ forall to m,
             Send to m ∈ deliveries <->
             m = message_received_from sender encryptedData now
             /\ to <> sender
             /\ exists c, reg !! to = Some c /\ ready c = true
                          /\ is_open c = true).
Proof.
  intros Hreg Hopen. split.
  { by apply (handleEncryptedMessage_not_ready reg sender client). }
  intros Hready. eexists. split.
  - unfold handleEncryptedMessage. unfold bind at 1. unfold get_client.
    rewrite Hreg, Hready. cbn [negb]. unfold try_catch, bind.
    rewrite broadcastToReady_emit, ws_send_open by done. done.
  - intros to m.
    rewrite (elem_of_broadcast
               (fun id c => bool_decide (Some id <> Some sender) && ready c
                            && is_open c)).
    split.
    + intros [-> [c [Hc Hk]]].
      apply andb_true_iff in Hk as [Hk Ho].
      apply andb_true_iff in Hk as [Hn Hr].
      apply bool_decide_eq_true in Hn.
      split; [done|]. split; [congruence|]. eauto.
    + intros [-> [Hn [c [Hc [Hr Ho]]]]]. split; [done|].
      exists c. split; [done|]. rewrite Hr, Ho.
      rewrite bool_decide_eq_true_2 by congruence. done.
Qed.

(** C7.  When the requesting session has no key pair, a pairwise exchange
    ends in the error 'Key exchange failed', written to the requester
    alone; the registry, hence every session's state (the requester's
    readiness and secrets included), is unchanged. *)
Theorem exchange_without_key_pair reg (requester : string) (client : Client)
    (peerPublicKey : option jsstring) (peerId : option string) (now : Z) :
  reg !! requester = Some client ->
  QuantumCrypto.keyPair (crypto client) = None ->
  is_open client = true ->
  @handlePublicKeyExchange Payload requester peerPublicKey peerId now reg
  = (Ok tt, reg,
     [Send requester
        (error "Key exchange failed" (Some "Failed to establish shared secret"))]).
Proof.
  intros Hreg Hkp Hopen. unfold handlePublicKeyExchange.
  unfold bind at 1. unfold get_client at 1. rewrite Hreg.
  unfold QuantumCrypto.performKeyExchange. rewrite Hkp.
  unfold try_catch, throw. by rewrite ws_send_open.
Qed.

(** C9.  The addressed path does not look at the sender's readiness: a
    registered sender with an open connection that is not ready still has
    every deliverable entry forwarded and receives [message_sent], while
    the same sender's legacy broadcast is answered with an error. *)
Theorem group_send_ignores_readiness reg (sender : string) (client : Client)
    (entries : list (@Entry Payload)) (encryptedData : option Payload)
    (now : Z) :
  reg !! sender = Some client ->
  is_open client = true ->
  ready client = false ->
  (exists deliveries : list (@Event Payload),
     handleGroupMessage sender (Some entries) now reg
     = (Ok tt, reg, deliveries ++ [Send sender (message_sent None now)])
     /\ forall entry recipient,
          entry ∈ entries ->
          reg !! forPeer entry = Some recipient ->
          is_open recipient = true ->
          Send (forPeer entry) (message_received_fromPeer sender (data entry) now)
            ∈ deliveries)
  /\ handleEncryptedMessage sender encryptedData now reg
     = (Ok tt, reg,
        [Send sender (error "Client not ready for secure communication" None)]).
Proof.
  intros Hreg Hopen Hready. split.
  - eexists. split; [by apply (handleGroupMessage_open reg sender client)|].
    intros entry recipient Hin Hr Ho. apply list_elem_of_bind.
    exists entry. rewrite Hr, Ho. split; [by apply list_elem_of_singleton|done].
  - by apply (handleEncryptedMessage_not_ready reg sender client).
Qed.

End RelayFacts.

(** ** The relay on the example sessions *)
Section RelayExamples.
Import Server.

Local Abbreviation Envelope := QuantumCrypto.EncryptedData.

(** The theorem for A's group message to B, the absent D, and C. *)
Lemma group_send_addressed_witness :
  Scenario.registry !! "A" = Some (Scenario.sessionA Scenario.registry)
  /\ is_open (Scenario.sessionA Scenario.registry) = true
  /\ exists deliveries : list (@Event Envelope),
       handleGroupMessage "A" (Some Scenario.batch) 8 Scenario.registry
       = (Ok tt, Scenario.registry,
          deliveries ++ [Send "A" (message_sent None 8)])
       /\ (forall to m,
             Send to m ∈ deliveries <->
             exists entry recipient,
               entry ∈ Scenario.batch /\ forPeer entry = to
               /\ Scenario.registry !! to = Some recipient
               /\ is_open recipient = true
               /\ m = message_received_fromPeer "A" (data entry) 8)
       /\ length deliveries <= length Scenario.batch.
Proof.
  assert (H1 : Scenario.registry !! "A"
               = Some (Scenario.sessionA Scenario.registry))
    by (vm_compute; reflexivity).
  assert (H2 : is_open (Scenario.sessionA Scenario.registry) = true)
    by (vm_compute; reflexivity).
  exact (conj H1 (conj H2
    (group_send_addressed Scenario.registry "A"
       (Scenario.sessionA Scenario.registry) Scenario.batch 8 H1 H2))).
Defined.

(** What that group message writes: B and C each get their own envelope,
    the entry for D is dropped. *)
Example group_send_trace :
  handleGroupMessage "A" (Some Scenario.batch) 8 Scenario.registry
  = (Ok tt, Scenario.registry,
     [Send "B" (message_received_fromPeer "A" Scenario.envelopeB 8);
      Send "C" (message_received_fromPeer "A" Scenario.envelopeC 8);
      Send "A" (message_sent None 8)]).
Proof. vm_compute. reflexivity. Qed.

(** The theorem for a legacy broadcast by A after the handshake. *)
Lemma legacy_broadcast_witness :
  Scenario.registry !! "A" = Some (Scenario.sessionA Scenario.registry)
  /\ is_open (Scenario.sessionA Scenario.registry) = true
  /\ (ready (Scenario.sessionA Scenario.registry) = false ->
      handleEncryptedMessage "A" (Some Scenario.envelopeB) 9 Scenario.registry
      = (Ok tt, Scenario.registry,
         [Send "A" (error "Client not ready for secure communication" None)]))
  /\ (ready (Scenario.sessionA Scenario.registry) = true ->
      exists deliveries : list (@Event Envelope),
        handleEncryptedMessage "A" (Some Scenario.envelopeB) 9 Scenario.registry
        = (Ok tt, Scenario.registry,
           deliveries
             ++ [Send "A" (message_sent (Some "Message sent securely") 9)])
        /\ forall to m,
             Send to m ∈ deliveries <->
             m = message_received_from "A" (Some Scenario.envelopeB) 9
             /\ to <> "A"
             /\ exists c, Scenario.registry !! to = Some c /\ ready c = true
                          /\ is_open c = true).
Proof.
  assert (H1 : Scenario.registry !! "A"
               = Some (Scenario.sessionA Scenario.registry))
    by (vm_compute; reflexivity).
  assert (H2 : is_open (Scenario.sessionA Scenario.registry) = true)
    by (vm_compute; reflexivity).
  exact (conj H1 (conj H2
    (legacy_broadcast Scenario.registry "A"
       (Scenario.sessionA Scenario.registry) (Some Scenario.envelopeB) 9 H1 H2))).
Defined.

(** C4 as stated fails when a ready session's connection is not open: B is
    ready and is not the sender, but its socket is closing, and A's legacy
    broadcast writes nothing to it. *)
Lemma legacy_broadcast_skips_closing_session :
  Scenario.registry_closing !! "A"
    = Some (Scenario.sessionA Scenario.registry_closing)
  /\ ready (Scenario.sessionA Scenario.registry_closing) = true
  /\ Scenario.registry_closing !! "B"
      = Some (Scenario.sessionB Scenario.registry_closing)
  /\ ready (Scenario.sessionB Scenario.registry_closing) = true
  /\ handleEncryptedMessage "A" (Some Scenario.envelopeB) 9
       Scenario.registry_closing
     = (Ok tt, Scenario.registry_closing,
        [Send "A" (message_sent (Some "Message sent securely") 9)])
  /\ ~ (forall id c,
          Scenario.registry_closing !! id = Some c -> ready c = true ->
          id <> "A" ->
          Send id (message_received_from "A" (Some Scenario.envelopeB) 9)
            ∈ snd (handleEncryptedMessage "A" (Some Scenario.envelopeB) 9
                     Scenario.registry_closing)).
Proof.
  assert (HB : Scenario.registry_closing !! "B"
               = Some (Scenario.sessionB Scenario.registry_closing))
    by (vm_compute; reflexivity).
  assert (HrB : ready (Scenario.sessionB Scenario.registry_closing) = true)
    by (vm_compute; reflexivity).
  assert (Hrun : handleEncryptedMessage "A" (Some Scenario.envelopeB) 9
                   Scenario.registry_closing
                 = (Ok tt, Scenario.registry_closing,
                    [Send "A" (message_sent (Some "Message sent securely") 9)]))
    by (vm_compute; reflexivity).
  split; [vm_compute; reflexivity|].
  split; [vm_compute; reflexivity|].
  split; [exact HB|]. split; [exact HrB|]. split; [exact Hrun|].
  intros H. specialize (H "B" _ HB HrB ltac:(discriminate)).
  rewrite Hrun in H. cbn [snd] in H.
  apply list_elem_of_singleton in H. discriminate H.
Qed.

(** The theorem for a key-less session C asking to exchange with A. *)
Lemma exchange_without_key_pair_witness :
  Scenario.registry !! "C" = Some (Scenario.sessionC Scenario.registry)
  /\ QuantumCrypto.keyPair (crypto (Scenario.sessionC Scenario.registry)) = None
  /\ is_open (Scenario.sessionC Scenario.registry) = true
  /\ @handlePublicKeyExchange Envelope "C" (Some Scenario.pkA) (Some "A") 9
       Scenario.registry
     = (Ok tt, Scenario.registry,
        [Send "C"
           (error "Key exchange failed"
              (Some "Failed to establish shared secret"))]).
Proof.
  assert (H1 : Scenario.registry !! "C"
               = Some (Scenario.sessionC Scenario.registry))
    by (vm_compute; reflexivity).
  assert (H2 : QuantumCrypto.keyPair
                 (crypto (Scenario.sessionC Scenario.registry)) = None)
    by (vm_compute; reflexivity).
  assert (H3 : is_open (Scenario.sessionC Scenario.registry) = true)
    by (vm_compute; reflexivity).
  exact (conj H1 (conj H2 (conj H3
    (exchange_without_key_pair Scenario.registry "C"
       (Scenario.sessionC Scenario.registry) (Some Scenario.pkA) (Some "A") 9
       H1 H2 H3)))).
Defined.

(** The theorem for C, connected but not ready, sending to A and B. *)
Lemma group_send_ignores_readiness_witness :
  Scenario.registry !! "C" = Some (Scenario.sessionC Scenario.registry)
  /\ is_open (Scenario.sessionC Scenario.registry) = true
  /\ ready (Scenario.sessionC Scenario.registry) = false
  /\ (exists deliveries : list (@Event Envelope),
        handleGroupMessage "C"
          (Some [mkEntry "A" Scenario.envelopeC; mkEntry "B" Scenario.envelopeB])
          9 Scenario.registry
        = (Ok tt, Scenario.registry,
           deliveries ++ [Send "C" (message_sent None 9)])
        /\ forall entry recipient,
             entry ∈ [mkEntry "A" Scenario.envelopeC;
                      mkEntry "B" Scenario.envelopeB] ->
             Scenario.registry !! forPeer entry = Some recipient ->
             is_open recipient = true ->
             Send (forPeer entry)
               (message_received_fromPeer "C" (data entry) 9) ∈ deliveries)
  /\ handleEncryptedMessage "C" (Some Scenario.envelopeB) 9 Scenario.registry
     = (Ok tt, Scenario.registry,
        [Send "C" (error "Client not ready for secure communication" None)]).
Proof.
  assert (H1 : Scenario.registry !! "C"
               = Some (Scenario.sessionC Scenario.registry))
    by (vm_compute; reflexivity).
  assert (H2 : is_open (Scenario.sessionC Scenario.registry) = true)
    by (vm_compute; reflexivity).
  assert (H3 : ready (Scenario.sessionC Scenario.registry) = false)
    by (vm_compute; reflexivity).
  exact (conj H1 (conj H2 (conj H3
    (group_send_ignores_readiness Scenario.registry "C"
       (Scenario.sessionC Scenario.registry)
       [mkEntry "A" Scenario.envelopeC; mkEntry "B" Scenario.envelopeB]
       (Some Scenario.envelopeB) 9 H1 H2 H3)))).
Defined.

(** C5 on the code: A, holding a key pair, processes B's public key sent
    with [peerId] B.  A becomes ready and the derived secret is stored in
    the single [sharedSecret] field, but the handler calls
    [performKeyExchange] without the peer id, so nothing is stored under
    B: A's per-peer map does not even exist afterwards. *)
Example exchange_leaves_peer_map_empty :
  let result :=
    @handlePublicKeyExchange Envelope "A" (Some Scenario.pkB) (Some "B") 7
      Scenario.registry_keys in
  QuantumCrypto.keyPair (crypto (Scenario.sessionA Scenario.registry_keys))
    = Some (QuantumCrypto.mkKeyPair (QuantumCrypto.rnd_private Scenario.rndA)
              (QuantumCrypto.rnd_public Scenario.rndA))
  /\ result.1.1 = Ok tt
  /\ result.1.2 !! "A" = Some (Scenario.sessionA result.1.2)
  /\ ready (Scenario.sessionA result.1.2) = true
  /\ QuantumCrypto.sharedSecret (crypto (Scenario.sessionA result.1.2))
     = Some Scenario.secretAB
  /\ QuantumCrypto.sharedSecrets (crypto (Scenario.sessionA result.1.2)) = None
  /\ QuantumCrypto.hasSharedSecretWith (crypto (Scenario.sessionA result.1.2)) "B"
     = false.
Proof. cbn zeta. split_and!; vm_compute; reflexivity. Qed.

End RelayExamples.

(** ** Announcements of public keys *)
Section Announcements.
Import Server.
Context {Payload : Type} (A B : string).

Implicit Types (reg : gmap string Client) (out : list (@Event Payload)).

Lemma announcements_app out1 out2 :
  announcements A B (out1 ++ out2)
  = announcements A B out1 ++ announcements A B out2.
Proof. unfold announcements. apply List.filter_app. Qed.

(** *** Rules for [quiet_at] *)

Lemma quiet_ret {T} (a : T) reg : quiet_at A B (@ret Payload T a) reg.
Proof. by split. Qed.

Lemma quiet_throw {T} (e : string) reg : quiet_at A B (@throw Payload T e) reg.
Proof. by split. Qed.

Lemma quiet_get_client (id : string) reg :
  quiet_at A B (@get_client Payload id) reg.
Proof. by split. Qed.

Lemma quiet_bind {T U} (m : @M Payload T) (f : T -> @M Payload U) reg :
  quiet_at A B m reg ->
  (forall a reg1 out1, m reg = (Ok a, reg1, out1) -> quiet_at A B (f a) reg1) ->
  quiet_at A B (bind m f) reg.
Proof.
  unfold quiet_at, bind. intros [Ha Hs] Hf.
  destruct (m reg) as [[[a|e] reg1] out1] eqn:Em; [|done].
  specialize (Hf a reg1 out1 eq_refl) as [Ha2 Hs2].
  destruct (f a reg1) as [[r reg2] out2]. cbn [fst snd] in *.
  rewrite announcements_app, Ha, Ha2. auto.
Qed.

Lemma quiet_try_catch {T} (body : @M Payload T) (h : string -> @M Payload T) reg :
  quiet_at A B body reg ->
  (forall e reg1 out1, body reg = (Throw e, reg1, out1) -> quiet_at A B (h e) reg1) ->
  quiet_at A B (try_catch body h) reg.
Proof.
  unfold quiet_at, try_catch. intros [Ha Hs] Hf.
  destruct (body reg) as [[[a|e] reg1] out1] eqn:Em; [done|].
  specialize (Hf e reg1 out1 eq_refl) as [Ha2 Hs2].
  destruct (h e reg1) as [[r reg2] out2]. cbn [fst snd] in *.
  rewrite announcements_app, Ha, Ha2. auto.
Qed.

Lemma quiet_forEach {T} (l : list T) (f : T -> @M Payload unit) reg :
  (forall x reg1, quiet_at A B (f x) reg1) ->
  quiet_at A B (forEach l f) reg.
Proof.
  intros Hf. revert reg. induction l as [|x l IH]; intros reg.
  - apply quiet_ret.
  - cbn [forEach]. apply quiet_bind; [apply Hf|]. intros. apply IH.
Qed.

Lemma quiet_clients_forEach (f : string * Client -> @M Payload unit) reg :
  (forall x reg1, quiet_at A B (f x) reg1) ->
  quiet_at A B (clients_forEach f) reg.
Proof. intros Hf. unfold clients_forEach. exact (quiet_forEach _ f reg Hf). Qed.

Lemma quiet_ws_send (to : string) (w : WebSocket) (m : @ServerMsg Payload) reg :
  is_announcement A B (Send to m) = false ->
  quiet_at A B (ws_send to w m) reg.
Proof.
  intros H. unfold quiet_at, ws_send.
  destruct (readyState w); cbn [fst snd]; try done.
  unfold announcements. cbn [List.filter]. by rewrite H.
Qed.

Lemma settled_alter (f : Client -> Client) (id : string) reg :
  (forall c, reg !! id = Some c -> recorded A c = true -> recorded A (f c) = true) ->
  settled A B reg = true -> settled A B (alter f id reg) = true.
Proof.
  intros Hf. unfold settled. rewrite lookup_alter.
  destruct (decide (id = B)) as [->|]; [|done].
  destruct (reg !! B) as [c|] eqn:E; [|done]. cbn. by apply Hf.
Qed.

Lemma quiet_update_client (f : Client -> Client) (id : string) reg :
  (forall c, reg !! id = Some c -> recorded A c = true -> recorded A (f c) = true) ->
  quiet_at A B (@update_client Payload id f) reg.
Proof. intros Hf. split; [done|]. cbn [fst snd]. by apply settled_alter. Qed.


(** *** Handlers that never announce [A]'s key to [B] *)

Local Ltac quiet_step :=
  match goal with
  | |- quiet_at _ _ (ret _) _ => apply quiet_ret
  | |- quiet_at _ _ (throw _) _ => apply quiet_throw
  | |- quiet_at _ _ (get_client _) _ => apply quiet_get_client
  | |- quiet_at _ _ (ws_send _ _ _) _ => apply quiet_ws_send; try reflexivity
  | |- quiet_at _ _ (bind _ _) _ => apply quiet_bind; [|intros ? ? ? ?]
  | |- quiet_at _ _ (try_catch _ _) _ => apply quiet_try_catch; [|intros ? ? ? ?]
  | |- quiet_at _ _ (forEach _ _) _ => apply quiet_forEach; intros ? ?
  | |- quiet_at _ _ (clients_forEach _) _ =>
      apply quiet_clients_forEach; intros [? ?] ?
  | |- quiet_at _ _ (match ?x with _ => _ end) _ => destruct x eqn:?
  end.

Lemma quiet_broadcastToAll (message : @ServerMsg Payload)
    (exclude : option string) reg :
  (forall to, is_announcement A B (Send to message) = false) ->
  quiet_at A B (broadcastToAll message exclude) reg.
Proof.
  intros H. unfold broadcastToAll. repeat quiet_step. apply H.
Qed.

Lemma quiet_broadcastToReady (message : @ServerMsg Payload)
    (exclude : option string) reg :
  (forall to, is_announcement A B (Send to message) = false) ->
  quiet_at A B (broadcastToReady message exclude) reg.
Proof.
  intros H. unfold broadcastToReady. repeat quiet_step. apply H.
Qed.

Lemma quiet_handleSecurityInfoRequest (id : string) (now : Z) reg :
  quiet_at A B (@handleSecurityInfoRequest Payload id now) reg.
Proof. unfold handleSecurityInfoRequest. repeat quiet_step. Qed.

Lemma quiet_initiateKeyExchange (id : string) (now : Z) reg :
  quiet_at A B (@initiateKeyExchange Payload id now) reg.
Proof. unfold initiateKeyExchange. repeat quiet_step. Qed.

Lemma quiet_handleGroupMessage (id : string)
    (entries : option (list (@Entry Payload))) (now : Z) reg :
  quiet_at A B (handleGroupMessage id entries now) reg.
Proof. unfold handleGroupMessage. repeat quiet_step. Qed.

Lemma quiet_handleEncryptedMessage (id : string)
    (encryptedData : option Payload) (now : Z) reg :
  quiet_at A B (handleEncryptedMessage id encryptedData now) reg.
Proof.
  unfold handleEncryptedMessage. repeat quiet_step.
  by apply quiet_broadcastToReady.
Qed.

Lemma generateKeyPair_recorded (this : QuantumCrypto.t)
    (rnd : QuantumCrypto.Entropy) :
  QuantumCrypto.hasSharedSecretWith (QuantumCrypto.generateKeyPair this rnd).1 A
  = QuantumCrypto.hasSharedSecretWith this A.
Proof. done. Qed.

Lemma quiet_handleKeyGeneration (id : string) (rnd : QuantumCrypto.Entropy)
    (now : Z) reg :
  id <> A ->
  quiet_at A B (@handleKeyGeneration Payload id rnd now) reg.
Proof.
  intros Hid. unfold handleKeyGeneration.
  assert (Hpk : forall to k a t,
            is_announcement A B (@Send Payload to (peer_public_key id k a t)) = false).
  { intros. cbn. rewrite (bool_decide_eq_false_2 (id = A)) by done.
    apply andb_false_r. }
  apply quiet_bind; [apply quiet_get_client|].
  intros o reg1 out1 Hget. unfold get_client in Hget. simplify_eq.
  destruct (reg1 !! id) as [client|] eqn:Hreg; [|apply quiet_ret].
  repeat quiet_step.
  - apply quiet_update_client. intros c Hc. simplify_eq.
    unfold QuantumCrypto.generateKeyPair in *. by simplify_eq.
  - by apply quiet_broadcastToAll.
Qed.


(** *** Rules for [once_at] *)

Lemma once_of_quiet {T} (m : @M Payload T) reg :
  quiet_at A B m reg -> once_at A B m reg.
Proof.
  intros [Ha Hs]. unfold once_at. rewrite Ha. cbn [length].
  split; [auto|]. split; [lia|done].
Qed.

Lemma once_seq reg (reg1 reg2 : gmap string Client) out1 out2 :
  ((settled A B reg = true ->
    announcements A B out1 = [] /\ settled A B reg1 = true)
   /\ length (announcements A B out1) <= 1
   /\ (announcements A B out1 <> [] -> settled A B reg1 = true)) ->
  ((settled A B reg1 = true ->
    announcements A B out2 = [] /\ settled A B reg2 = true)
   /\ length (announcements A B out2) <= 1
   /\ (announcements A B out2 <> [] -> settled A B reg2 = true)) ->
  (settled A B reg = true ->
   announcements A B (out1 ++ out2) = [] /\ settled A B reg2 = true)
  /\ length (announcements A B (out1 ++ out2)) <= 1
  /\ (announcements A B (out1 ++ out2) <> [] -> settled A B reg2 = true).
Proof.
  intros (H1 & L1 & S1) (H2 & L2 & S2). rewrite announcements_app.
  split; [|split].
  - intros Hs. destruct (H1 Hs) as [-> Hs1]. by destruct (H2 Hs1) as [-> Hs2].
  - destruct (announcements A B out1) as [|e l1] eqn:E1; [done|].
    destruct (H2 (S1 ltac:(done))) as [-> _].
    by rewrite app_nil_r.
  - destruct (announcements A B out1) as [|e l1] eqn:E1; [done|].
    intros _. by destruct (H2 (S1 ltac:(done))).
Qed.

Lemma once_bind {T U} (m : @M Payload T) (f : T -> @M Payload U) reg :
  once_at A B m reg ->
  (forall a reg1 out1, m reg = (Ok a, reg1, out1) -> once_at A B (f a) reg1) ->
  once_at A B (bind m f) reg.
Proof.
  unfold once_at, bind. intros Hm Hf.
  destruct (m reg) as [[[a|e] reg1] out1] eqn:Em; [|done].
  specialize (Hf a reg1 out1 eq_refl).
  destruct (f a reg1) as [[r reg2] out2]. cbn [fst snd] in *.
  by apply (once_seq reg reg1 reg2).
Qed.

Lemma once_try_catch {T} (body : @M Payload T) (h : string -> @M Payload T) reg :
  once_at A B body reg ->
  (forall e reg1 out1, body reg = (Throw e, reg1, out1) -> once_at A B (h e) reg1) ->
  once_at A B (try_catch body h) reg.
Proof.
  unfold once_at, try_catch. intros Hm Hf.
  destruct (body reg) as [[[a|e] reg1] out1] eqn:Em; [done|].
  specialize (Hf e reg1 out1 eq_refl).
  destruct (h e reg1) as [[r reg2] out2]. cbn [fst snd] in *.
  by apply (once_seq reg reg1 reg2).
Qed.

Lemma includes_snoc (l : option (list string)) (x y : string) :
  includes l y = true -> includes (Some (default [] l ++ [x])) y = true.
Proof.
  destruct l as [ids|]; [|done]. cbn.
  rewrite !bool_decide_eq_true. intros H. apply elem_of_app. by left.
Qed.

Lemma includes_snoc_same (l : option (list string)) (x : string) :
  includes (Some (default [] l ++ [x])) x = true.
Proof.
  cbn. rewrite bool_decide_eq_true. apply elem_of_app. right.
  by apply list_elem_of_singleton.
Qed.

Lemma recorded_snoc (c : Client) (x : string) :
  recorded A c = true ->
  recorded A (set_sentPublicKeyTo c (Some (default [] (sentPublicKeyTo c) ++ [x])))
  = true.
Proof.
  unfold recorded. cbn [crypto sentPublicKeyTo set_sentPublicKeyTo].
  rewrite !orb_true_iff. intros [H|H]; [by left|right].
  by apply includes_snoc.
Qed.

(** The guarded announcement at the end of the exchange handler. *)
Lemma once_guarded_announcement (clientId peer : string) (peerClient : Client)
    (k : option jsstring) (now : Z) reg :
  reg !! peer = Some peerClient ->
  once_at A B
    (if negb (QuantumCrypto.hasSharedSecretWith (crypto peerClient) clientId)
        && negb (includes (sentPublicKeyTo peerClient) clientId)
     then
       bind
         (update_client peer (fun c =>
            set_sentPublicKeyTo c
              (Some (default [] (sentPublicKeyTo c) ++ [clientId]))))
         (fun _ =>
            @ws_send Payload peer (ws peerClient)
              (peer_public_key clientId k "Kyber-1024" now))
     else ret tt) reg.
Proof.
  intros Hpeer.
  destruct (negb _ && negb _) eqn:Hcheck; [|apply once_of_quiet, quiet_ret].
  apply andb_true_iff in Hcheck as [Hs Hi].
  apply negb_true_iff in Hs. apply negb_true_iff in Hi.
  destruct (decide (peer = B /\ clientId = A)) as [[-> ->]|Hne].
  - (* the announcement itself *)
    unfold once_at, bind, update_client, ws_send.
    assert (Hset : settled A B
              (alter (fun c => set_sentPublicKeyTo c
                        (Some (default [] (sentPublicKeyTo c) ++ [A]))) B reg)
            = true).
    { unfold settled. rewrite lookup_alter_eq, Hpeer.
      change (recorded A
                (set_sentPublicKeyTo peerClient
                   (Some (default [] (sentPublicKeyTo peerClient) ++ [A])))
              = true).
      unfold recorded. cbn [set_sentPublicKeyTo sentPublicKeyTo crypto].
      rewrite includes_snoc_same. apply orb_true_r. }
    assert (Hnot : settled A B reg = false).
    { unfold settled. rewrite Hpeer. unfold recorded. by rewrite Hs, Hi. }
    destruct (readyState (ws peerClient)); cbn [fst snd app length];
      (split; [congruence|]); (split; [|done]);
      unfold announcements; cbn [List.filter is_announcement];
      rewrite ?bool_decide_eq_true_2 by done; cbn; lia.
  - apply once_of_quiet. apply quiet_bind.
    + apply quiet_update_client. intros c _. apply recorded_snoc.
    + intros. apply quiet_ws_send. cbn.
      apply andb_false_iff.
      destruct (decide (peer = B)) as [->|]; [right|left];
        apply bool_decide_eq_false; intros ->; by apply Hne.
Qed.

Lemma performKeyExchange_recorded (this this' : QuantumCrypto.t)
    (pk : option jsstring) (r : Result bool) :
  QuantumCrypto.performKeyExchange this pk None = (r, this') ->
  QuantumCrypto.hasSharedSecretWith this' A
  = QuantumCrypto.hasSharedSecretWith this A.
Proof.
  unfold QuantumCrypto.performKeyExchange.
  destruct (QuantumCrypto.keyPair this), pk; intros H; by simplify_eq.
Qed.

(** The exchange handler announces at most once, and not at all for a
    settled pair. *)
Lemma once_handlePublicKeyExchange (clientId : string)
    (peerPublicKey : option jsstring) (peerId : option string) (now : Z) reg :
  once_at A B (@handlePublicKeyExchange Payload clientId peerPublicKey peerId now)
    reg.
Proof.
  unfold handlePublicKeyExchange.
  apply once_bind; [apply once_of_quiet, quiet_get_client|].
  intros o reg1 out1 Hget. unfold get_client in Hget. simplify_eq.
  destruct (reg1 !! clientId) as [client|] eqn:Hreg;
    [|apply once_of_quiet, quiet_ret].
  apply once_try_catch;
    [|intros; apply once_of_quiet, quiet_ws_send; reflexivity].
  destruct (QuantumCrypto.performKeyExchange _ _ _) as [[success|e] crypto']
    eqn:Hperf; [|apply once_of_quiet, quiet_throw].
  apply once_bind.
  { apply once_of_quiet, quiet_update_client. intros c Hc. simplify_eq.
    unfold recorded. cbn [set_crypto crypto sentPublicKeyTo].
    by rewrite (performKeyExchange_recorded _ _ _ _ Hperf). }
  intros _ reg2 out2 _.
  destruct success; [|apply once_of_quiet, quiet_ret].
  apply once_bind; [by apply once_of_quiet, quiet_update_client|].
  intros _ reg3 out3 _.
  apply once_bind; [apply once_of_quiet, quiet_ws_send; reflexivity|].
  intros _ reg4 out4 _.
  destruct peerId as [peer|]; [|apply once_of_quiet, quiet_ret].
  destruct (truthy_id (Some peer)); [|apply once_of_quiet, quiet_ret].
  apply once_bind; [apply once_of_quiet, quiet_get_client|].
  intros p reg5 out5 Hget. unfold get_client in Hget. simplify_eq.
  destruct (reg5 !! peer) as [peerClient|] eqn:Hpeer;
    [|apply once_of_quiet, quiet_ret].
  destruct (is_open peerClient); [|apply once_of_quiet, quiet_ret].
  apply once_bind; [apply once_of_quiet, quiet_ws_send; reflexivity|].
  intros [] reg6 out6 Hsend.
  assert (reg6 = reg5) as ->.
  { unfold ws_send in Hsend. destruct (readyState (ws peerClient)); by simplify_eq. }
  by apply once_guarded_announcement.
Qed.


Lemma quiet_set_client (id : string) (c : Client) reg :
  id <> B -> quiet_at A B (@set_client Payload id c) reg.
Proof.
  intros Hid. split; [done|]. unfold set_client, settled. cbn [fst snd].
  by rewrite lookup_insert_ne.
Qed.

Lemma quiet_delete_client (id : string) reg :
  quiet_at A B (@delete_client Payload id) reg.
Proof.
  split; [done|]. unfold delete_client, settled. cbn [fst snd].
  rewrite lookup_delete. by destruct (decide (id = B)).
Qed.

Lemma once_handleMessage (id : string) (message : @ClientMsg Payload)
    (rnd : QuantumCrypto.Entropy) (now : Z) reg :
  generates_keys A (on_message id (Some message) rnd now) = false ->
  once_at A B (handleMessage id message rnd now) reg.
Proof.
  intros Hgen. unfold handleMessage.
  apply once_bind; [apply once_of_quiet, quiet_get_client|].
  intros o reg1 out1 _. destruct o; [|apply once_of_quiet, quiet_ret].
  destruct message.
  - apply once_of_quiet, quiet_handleKeyGeneration.
    cbn in Hgen. by apply bool_decide_eq_false in Hgen.
  - apply once_handlePublicKeyExchange.
  - apply once_of_quiet, quiet_handleEncryptedMessage.
  - apply once_of_quiet, quiet_handleGroupMessage.
  - apply once_of_quiet, quiet_handleSecurityInfoRequest.
  - apply once_of_quiet, quiet_ret.
Qed.

(** One event of the loop, other than a key generation by [A] or a new
    registration under [B]. *)
Lemma once_dispatch (ev : @ServerEvent Payload) reg :
  generates_keys A ev = false ->
  registers B ev = false ->
  once_at A B (dispatch ev) reg.
Proof.
  intros Hgen Hregs. destruct ev as [id now|id message rnd now|id now|id now
                                    |id rnd now|id state]; cbn [dispatch].
  - apply once_of_quiet. apply quiet_bind.
    + apply quiet_set_client. cbn in Hregs.
      by apply bool_decide_eq_false in Hregs.
    + intros. by apply quiet_ws_send.
  - apply once_bind; [apply once_of_quiet, quiet_get_client|].
    intros o reg1 out1 _. destruct o; [|apply once_of_quiet, quiet_ret].
    apply once_try_catch.
    + destruct message as [m|]; [|apply once_of_quiet, quiet_throw].
      by apply once_handleMessage.
    + intros. by apply once_of_quiet, quiet_ws_send.
  - apply once_of_quiet. apply quiet_bind; [apply quiet_delete_client|].
    intros. by apply quiet_broadcastToAll.
  - apply once_of_quiet, quiet_initiateKeyExchange.
  - apply once_of_quiet, quiet_handleKeyGeneration.
    cbn in Hgen. by apply bool_decide_eq_false in Hgen.
  - by apply once_of_quiet, quiet_update_client.
Qed.

(** A whole run without key generation by [A] and without registration
    under [B]. *)
Lemma once_run (evs : list (@ServerEvent Payload)) reg :
  Forall (fun ev => generates_keys A ev = false /\ registers B ev = false) evs ->
  (settled A B reg = true -> announcements A B (run reg evs).2 = [])
  /\ length (announcements A B (run reg evs).2) <= 1.
Proof.
  intros Hevs. revert reg.
  induction Hevs as [|ev evs [Hgen Hregs] _ IH]; intros reg;
    [split; [done|cbn; lia]|].
  cbn [run].
  destruct (once_dispatch ev reg Hgen Hregs) as (H1 & L1 & S1).
  destruct (dispatch ev reg) as [[[[]|e] reg1] out1]; cbn [fst snd] in *.
  - destruct (IH reg1) as [H2 L2].
    destruct (run reg1 evs) as [reg2 out2]. cbn [fst snd] in *.
    rewrite announcements_app. split.
    + intros Hs. destruct (H1 Hs) as [-> Hs1]. by rewrite (H2 Hs1).
    + destruct (announcements A B out1) as [|e l1] eqn:E1; [done|].
      rewrite (H2 (S1 ltac:(done))). by rewrite app_nil_r.
  - split; [|done]. intros Hs. by destruct (H1 Hs).
Qed.

(** Key generation announces the new key to every other open session; the
    records play no part. *)
Lemma handleKeyGeneration_announces (rnd : QuantumCrypto.Entropy) (now : Z)
    (a b : Client) reg :
  A <> B ->
  reg !! A = Some a -> is_open a = true ->
  reg !! B = Some b -> is_open b = true ->
  @Send Payload B
    (peer_public_key A
       (Some (Buffer.to_hex (QuantumCrypto.rnd_public rnd))) "Kyber-1024" now)
    ∈ (handleKeyGeneration A rnd now reg).2.
Proof.
  intros Hne Ha Hoa Hb Hob. unfold handleKeyGeneration.
  unfold bind at 1. unfold get_client. rewrite Ha.
  unfold try_catch. cbn [QuantumCrypto.generateKeyPair].
  unfold bind, update_client. rewrite ws_send_open by done.
  rewrite broadcastToAll_emit. cbn [fst snd].
  rewrite !elem_of_app.
  repeat match goal with |- _ \/ _ => right end.
  apply (elem_of_broadcast
           (fun id c => bool_decide (Some id <> Some A) && is_open c)).
  split; [done|]. exists b. split.
  - by rewrite lookup_alter_ne.
  - rewrite Hob. rewrite bool_decide_eq_true_2 by congruence. done.
Qed.

(** The test and the record of the exchange handler.  It sends [A]'s
    public key to [B] only when [B]'s entry has no per-peer secret with [A]
    and does not list [A] in [sentPublicKeyTo], and it lists [A] there
    when it sends.  Consequently, in every run of the server in which [A]
    does not generate a new key pair and no new session is registered
    under [B]'s id, the handler announces [A]'s key to [B] at most once,
    and never if the pair was settled at the start.  The broadcast made at
    key generation is outside this test: it announces the new key to every
    other open session whatever the entries say. *)
Theorem exchange_announces_once (evs : list (@ServerEvent Payload)) reg :
  Forall (fun ev => generates_keys A ev = false /\ registers B ev = false) evs ->
  (settled A B reg = true -> announcements A B (run reg evs).2 = [])
  /\ length (announcements A B (run reg evs).2) <= 1
  /\ (forall clientId peerPublicKey peerId now reg0,
        announcements A B
          (@handlePublicKeyExchange Payload clientId peerPublicKey peerId now
             reg0).2 <> [] ->
        settled A B reg0 = false
        /\ settled A B
             (@handlePublicKeyExchange Payload clientId peerPublicKey peerId now
                reg0).1.2 = true)
  /\ (forall rnd now a b reg0,
        A <> B ->
        reg0 !! A = Some a -> is_open a = true ->
        reg0 !! B = Some b -> is_open b = true ->
        @Send Payload B
          (peer_public_key A
             (Some (Buffer.to_hex (QuantumCrypto.rnd_public rnd)))
             "Kyber-1024" now)
          ∈ (handleKeyGeneration A rnd now reg0).2).
Proof.
  intros Hevs. destruct (once_run evs reg Hevs) as [H0 H1].
  split; [done|]. split; [done|]. split.
  - intros clientId pk peerId now reg0 Hne.
    destruct (once_handlePublicKeyExchange clientId pk peerId now reg0)
      as (Hq & _ & Hs).
    split; [|by apply Hs].
    destruct (settled A B reg0) eqn:E; [|done].
    by destruct (Hq eq_refl) as [Hnil _].
  - intros. by eapply handleKeyGeneration_announces.
Qed.


End Announcements.

(** ** Announcements in the example run *)
Section AnnouncementExamples.
Import Server.

Local Abbreviation Envelope := QuantumCrypto.EncryptedData.

(** The theorem for A and B from the state in which both hold keys: B
    and A process each other's key, and A then asks twice more. *)
Lemma exchange_announces_once_witness :
  Forall (fun ev => generates_keys "A" ev = false /\ registers "B" ev = false)
    Scenario.exchanges
  /\ (settled "A" "B" Scenario.registry_keys = true ->
      announcements "A" "B" (run Scenario.registry_keys Scenario.exchanges).2 = [])
  /\ length (announcements "A" "B"
               (run Scenario.registry_keys Scenario.exchanges).2) <= 1
  /\ (forall clientId peerPublicKey peerId now reg0,
        announcements "A" "B"
          (@handlePublicKeyExchange Envelope clientId peerPublicKey peerId now
             reg0).2 <> [] ->
        settled "A" "B" reg0 = false
        /\ settled "A" "B"
             (@handlePublicKeyExchange Envelope clientId peerPublicKey peerId
                now reg0).1.2 = true)
  /\ (forall rnd now a b reg0,
        "A" <> "B" ->
        reg0 !! "A" = Some a -> is_open a = true ->
        reg0 !! "B" = Some b -> is_open b = true ->
        @Send Envelope "B"
          (peer_public_key "A"
             (Some (Buffer.to_hex (QuantumCrypto.rnd_public rnd)))
             "Kyber-1024" now)
          ∈ (handleKeyGeneration "A" rnd now reg0).2).
Proof.
  assert (H : Forall (fun ev : @ServerEvent Envelope =>
                        generates_keys "A" ev = false
                        /\ registers "B" ev = false) Scenario.exchanges)
    by (repeat constructor).
  exact (conj H
    (exchange_announces_once "A" "B" Scenario.exchanges Scenario.registry_keys H)).
Defined.

(** In that run the exchange handler announces A's key to B exactly
    once. *)
Example exchanges_announce_once :
  announcements "A" "B" (run Scenario.registry_keys Scenario.exchanges).2
  = [Send "B" (peer_public_key "A" (Some Scenario.pkA) "Kyber-1024" 7)].
Proof. vm_compute. reflexivity. Qed.

(** C6 on the code: the handshake of A and B.  A's key reaches B through
    the broadcast made when A generates it (clock 5).  B then processes
    A's key (clock 6) and from then on is ready and holds the secret it
    derived with A.  When A processes B's key (clock 7) the exchange
    handler tests B's entry: [hasSharedSecretWith] answers false, because
    the handler ran B's [performKeyExchange] without the peer id and B's
    per-peer map was never created, and B's [sentPublicKeyTo] does not
    list A.  So A's key is sent to B a second time, although B shares a
    secret with A.  Had B's secret been filed under A's id, as
    [performKeyExchange] does when it is given the id, the same handler
    would have sent nothing to B on the same message. *)
Example second_announcement_despite_secret :
  let before :=
    run ∅ (Scenario.keys_generated
             ++ [on_message "B"
                   (Some (public_key (Some Scenario.pkA) (Some "A")))
                   Scenario.rndB 6]) in
  let request :=
    on_message "A" (Some (public_key (Some Scenario.pkB) (Some "B")))
      Scenario.rndA 7 in
  let filed :=
    set_crypto (Scenario.sessionB before.1)
      (QuantumCrypto.performKeyExchange
         (crypto (Scenario.sessionB Scenario.registry_keys))
         (Some Scenario.pkA) (Some "A")).2 in
  announcements "A" "B" before.2
    = [@Send Envelope "B" (peer_public_key "A" (Some Scenario.pkA) "Kyber-1024" 5)]
  /\ ready (Scenario.sessionB before.1) = true
  /\ QuantumCrypto.sharedSecret (crypto (Scenario.sessionB before.1))
     = Some Scenario.secretAB
  /\ QuantumCrypto.sharedSecrets (crypto (Scenario.sessionB before.1)) = None
  /\ QuantumCrypto.hasSharedSecretWith (crypto (Scenario.sessionB before.1)) "A"
     = false
  /\ includes (sentPublicKeyTo (Scenario.sessionB before.1)) "A" = false
  /\ announcements "A" "B" (dispatch request before.1).2
     = [@Send Envelope "B"
          (peer_public_key "A" (Some Scenario.pkA) "Kyber-1024" 7)]
  /\ announcements "A" "B" (run ∅ Scenario.handshake).2
     = [@Send Envelope "B" (peer_public_key "A" (Some Scenario.pkA) "Kyber-1024" 5);
        @Send Envelope "B" (peer_public_key "A" (Some Scenario.pkA) "Kyber-1024" 7)]
  /\ QuantumCrypto.sharedSecret (crypto filed) = Some Scenario.secretAB
  /\ QuantumCrypto.hasSharedSecretWith (crypto filed) "A" = true
  /\ announcements "A" "B"
       (@dispatch Envelope request (<["B" := filed]> before.1)).2 = [].
Proof. cbn zeta. split_and!; vm_compute; reflexivity. Qed.

(** Once B's entry lists A, a key generation requested by A still
    announces the new key to B. *)
Example regenerated_key_is_announced :
  settled "A" "B" Scenario.registry = true
  /\ announcements "A" "B"
       (dispatch (on_message "A" (Some generate_keys) Scenario.rndC 8)
          Scenario.registry).2
     = [@Send Envelope "B" (peer_public_key "A" (Some Scenario.pkC) "Kyber-1024" 8)].
Proof. split; vm_compute; reflexivity. Qed.

End AnnouncementExamples.

(** ** Test vectors for the runtime primitives *)
Section TestVectors.

Example utf8_round_trip_mixed :
  Utf8.decode (Utf8.encode [0x20AC; 0xE9; 0xD83D; 0xDE00; 65]%N)
  = [0x20AC; 0xE9; 0xD83D; 0xDE00; 65]%N.
Proof. vm_compute. reflexivity. Qed.

Example utf8_hex_mixed :
  Buffer.to_hex (Utf8.encode [0x20AC; 0xE9; 0xD83D; 0xDE00; 65]%N)
  = js "e282acc3a9f09f988041".
Proof. vm_compute. reflexivity. Qed.

Example from_hex_stops_at_first_bad_pair :
  Buffer.from_hex (js "E282acC3a9zz11") = Utf8.encode [0x20AC; 0xE9]%N.
Proof. vm_compute. reflexivity. Qed.

Example sha256_empty :
  Buffer.to_hex (NodeCrypto.sha256 [])
  = js "e3b0c44298fc1c149afbf4c8996fb92427ae41e4649b934ca495991b7852b855".
Proof. vm_compute. reflexivity. Qed.

Example sha256_abc :
  Buffer.to_hex (NodeCrypto.sha256 (Utf8.encode (js "abc")))
  = js "ba7816bf8f01cfea414140de5dae2223b00361a396177a9cb410ff61f20015ad".
Proof. vm_compute. reflexivity. Qed.

Example sha256_two_blocks :
  Buffer.to_hex
    (NodeCrypto.sha256
       (Utf8.encode (js "abcdbcdecdefdefgefghfghighijhijkijkljklmklmnlmnomnopnopq")))
  = js "248d6a61d20638b8e5c026930c3e6039a33ce45964ff2167f6ecedd419db06c1".
Proof. vm_compute. reflexivity. Qed.

Example hmac_sha256_rfc4231_case1 :
  Buffer.to_hex
    (NodeCrypto.hmac_sha256 (repeat (Buffer.byte_of_N 11) 20)
       (Utf8.encode (js "Hi There")))
  = js "b0344c61d8db38535ca8afceaf0bf12b881dc200c9833da726e9376c2e32cff7".
Proof. vm_compute. reflexivity. Qed.

Example hmac_sha256_rfc4231_case6 :
  Buffer.to_hex
    (NodeCrypto.hmac_sha256 (repeat (Buffer.byte_of_N 0xaa) 131)
       (Utf8.encode (js "Test Using Larger Than Block-Size Key - Hash Key First")))
  = js "60e431591ee0b67f0d8a26aacbf5b77f8e0bc6213728c5140546040f0ee37f54".
Proof. vm_compute. reflexivity. Qed.

End TestVectors.

(** ** The per-peer cache and key regeneration *)
Section PeerCache.
Import Buffer QuantumCrypto.

Lemma truthy_id_Some (p : string) : truthy_id (Some p) = true <-> p <> ""%string.
Proof.
  unfold truthy_id. destruct (String.eqb_spec p ""); simpl; split; congruence.
Qed.

(** X1 — [performKeyExchange] with a peer id: the exchange succeeds exactly
    when the instance has a key pair; it then files the derived secret under
    that id, where [hasSharedSecretWith] and [encrypt] find it, and leaves
    the entry of every other id as it was. *)
Theorem exchange_caches_per_peer (this : QuantumCrypto.t) (kp : KeyPair)
    (pk : jsstring) (p : string) :
  keyPair this = Some kp ->
  p <> ""%string ->
  let secret := derive (kp_public kp) (from_hex pk) in
  let this' := (performKeyExchange this (Some pk) (Some p)).2 in
  (performKeyExchange this (Some pk) (Some p)).1 = Ok true
  /\ hasSharedSecretWith this' p = true
  /\ secret_for this' (Some p) = Some secret
  /\ (forall m now,
        encrypt this' m (Some p) now
        = Ok (mkEncryptedData
                (Some (EString (to_hex (xor_stream secret (Utf8.encode m)))))
                (Some "XOR-Demo") now (Some p) (Some "hex")))
  /\ (forall q, q <> p ->
        hasSharedSecretWith this' q = hasSharedSecretWith this q
        /\ default ∅ (sharedSecrets this') !! q
           = default ∅ (sharedSecrets this) !! q).
Proof.
  intros Hkp Hp. apply truthy_id_Some in Hp.
  cbn zeta. unfold performKeyExchange. rewrite Hkp, Hp. cbn [fst snd].
  assert (Hsec : secret_for
      (mk (Some kp) (Some (derive (kp_public kp) (from_hex pk))) (signatureKey this)
         (Some (<[p:=derive (kp_public kp) (from_hex pk)]>
                  (default ∅ (sharedSecrets this))))) (Some p)
      = Some (derive (kp_public kp) (from_hex pk))).
  { unfold secret_for. cbn [sharedSecrets]. rewrite Hp, lookup_insert_eq. done. }
  split_and!.
  - done.
  - unfold hasSharedSecretWith. cbn [sharedSecrets].
    rewrite lookup_insert_eq. apply bool_decide_eq_true. eauto.
  - exact Hsec.
  - intros m now. unfold encrypt. rewrite Hsec. done.
  - intros q Hq. unfold hasSharedSecretWith. cbn [sharedSecrets].
    change (default ∅ (Some ?m)) with m.
    rewrite lookup_insert_ne by done.
    split; [|done].
    destruct (sharedSecrets this) as [ms|]; cbn [default]; [done|].
    rewrite lookup_empty. apply bool_decide_eq_false. by intros [? ?].
Qed.

Lemma exchange_caches_per_peer_witness :
  keyPair Scenario.cryptoA0
    = Some (mkKeyPair (rnd_private Scenario.rndA) (rnd_public Scenario.rndA))
  /\ hasSharedSecretWith
       (performKeyExchange Scenario.cryptoA0 (Some Scenario.pkB) (Some "B")).2 "B"
     = true.
Proof.
  split; [reflexivity|].
  apply (exchange_caches_per_peer Scenario.cryptoA0
           (mkKeyPair (rnd_private Scenario.rndA) (rnd_public Scenario.rndA))
           Scenario.pkB "B"); [reflexivity|discriminate].
Defined.

(** X2 — a secret filed under a peer id outlives later exchanges: an
    exchange made for another peer, or without a peer id, replaces the
    single compatibility secret but not the entry of [p], so messages for
    [p] are encrypted as before. *)
Theorem per_peer_secret_survives (this : QuantumCrypto.t)
    (secrets : gmap string Buffer.t) (p : string) (s : Buffer.t)
    (peerPublicKey : option jsstring) (peerId : option string) :
  p <> ""%string ->
  sharedSecrets this = Some secrets ->
  secrets !! p = Some s ->
  peerId <> Some p ->
  let this' := (performKeyExchange this peerPublicKey peerId).2 in
  secret_for this' (Some p) = Some s
  /\ hasSharedSecretWith this' p = true
  /\ forall m now, encrypt this' m (Some p) now = encrypt this m (Some p) now.
Proof.
  intros Hp Hsecrets Hs Hne. apply truthy_id_Some in Hp. cbn zeta.
  assert (Hbefore : secret_for this (Some p) = Some s).
  { unfold secret_for. by rewrite Hsecrets, Hp, Hs. }
  assert (Hafter :
    default ∅ (sharedSecrets (performKeyExchange this peerPublicKey peerId).2) !! p
    = Some s
    /\ is_Some (sharedSecrets (performKeyExchange this peerPublicKey peerId).2)).
  { unfold performKeyExchange.
    destruct (keyPair this) as [kp|], peerPublicKey as [pk|];
      cbv zeta; cbn [snd sharedSecrets];
      try (rewrite Hsecrets; split; [exact Hs|eauto]).
    destruct peerId as [q|]; [|rewrite Hsecrets; split; [exact Hs|eauto]].
    destruct (truthy_id (Some q)); [|rewrite Hsecrets; split; [exact Hs|eauto]].
    rewrite Hsecrets. cbn [default from_option id]. split; [|eauto].
    rewrite lookup_insert_ne; [exact Hs|congruence]. }
  destruct Hafter as [Hlookup [secrets' Hsecrets']].
  rewrite Hsecrets' in Hlookup. cbn [default from_option id] in Hlookup.
  assert (Hsec : secret_for (performKeyExchange this peerPublicKey peerId).2 (Some p)
                 = Some s).
  { unfold secret_for. by rewrite Hsecrets', Hp, Hlookup. }
  split_and!.
  - exact Hsec.
  - unfold hasSharedSecretWith. rewrite Hsecrets', Hlookup.
    apply bool_decide_eq_true. eauto.
  - intros m now. unfold encrypt. by rewrite Hsec, Hbefore.
Qed.

Lemma per_peer_secret_survives_witness :
  secret_for (performKeyExchange Scenario.cryptoA1 (Some Scenario.pkC) (Some "C")).2
    (Some "B")
  = Some Scenario.secretAB.
Proof.
  apply (per_peer_secret_survives Scenario.cryptoA1
           (<["B" := Scenario.secretAB]> ∅) "B" Scenario.secretAB
           (Some Scenario.pkC) (Some "C")).
  - discriminate.
  - vm_compute. reflexivity.
  - apply lookup_insert_eq.
  - discriminate.
Defined.

(** X3 — generating a new key pair publishes the hex text of the fresh
    public key and touches no secret: every [encrypt] and [decrypt] gives
    what it gave before, and an instance that held a secret still reports
    the status 'Ready'. *)
Theorem regeneration_keeps_secrets (this : QuantumCrypto.t) (rnd : Entropy) :
  let this' := (generateKeyPair this rnd).1 in
  let keyInfo := (generateKeyPair this rnd).2 in
  from_hex (ki_publicKey keyInfo) = rnd_public rnd
  /\ (forall m q now, encrypt this' m q now = encrypt this m q now)
  /\ (forall e q, decrypt this' e q = decrypt this e q)
  /\ si_status (getSecurityInfo this')
     = (if bool_decide (is_Some (sharedSecret this)) then "Ready"
        else "Setting up...")%string.
Proof.
  cbn zeta. unfold generateKeyPair. cbn [fst snd ki_publicKey kp_public].
  split_and!.
  - apply from_hex_to_hex.
  - done.
  - done.
  - unfold getSecurityInfo. cbn [si_status keyPair sharedSecret].
    rewrite (bool_decide_eq_true_2 (is_Some (Some _))) by eauto. done.
Qed.

(** ** Wire forms accepted by [decrypt] *)

(** X4 — [decrypt] reads the same bytes from every wire form: the hex text
    (whatever the [format] tag says, since the text passes the hex test),
    the array of numbers and the buffer of a non-empty ciphertext are
    decrypted alike. *)
Theorem decrypt_wire_forms (this : QuantumCrypto.t) (cipher : Buffer.t)
    (algorithm : option string) (ts : Z) (forPeer format format' : option string)
    (peerId : option string) :
  cipher <> [] ->
  let envelope enc fmt := mkEncryptedData (Some enc) algorithm ts forPeer fmt in
  decrypt this (envelope (EString (to_hex cipher)) format) peerId
  = decrypt this (envelope (EBuffer cipher) format') peerId
  /\ decrypt this
       (envelope (EArray (map (fun x => Z.of_N (Byte.to_N x)) cipher)) format)
       peerId
     = decrypt this (envelope (EBuffer cipher) format') peerId.
Proof.
  intros Hc. cbn zeta. unfold decrypt, secret_for_decrypt.
  cbn [QuantumCrypto.forPeer encrypted QuantumCrypto.algorithm QuantumCrypto.format
       falsy_encrypted].
  rewrite hexPattern_test_to_hex, orb_true_r, from_hex_to_hex, from_array_bytes
    by done.
  rewrite (bool_decide_eq_false_2 (to_hex cipher = []))
    by (intros E; by apply to_hex_nil_inv in E).
  done.
Qed.

Lemma decrypt_wire_forms_witness :
  decrypt Scenario.cryptoA1
    (mkEncryptedData (Some (EString (to_hex (from_hex (js "0a0b")))))
       (Some "XOR-Demo") 7 (Some "B") None) None
  = decrypt Scenario.cryptoA1
      (mkEncryptedData (Some (EBuffer (from_hex (js "0a0b"))))
         (Some "XOR-Demo") 7 (Some "B") (Some "hex")) None.
Proof.
  apply (decrypt_wire_forms Scenario.cryptoA1 (from_hex (js "0a0b"))
           (Some "XOR-Demo") 7 (Some "B") None (Some "hex") None).
  vm_compute. discriminate.
Defined.

End PeerCache.

(** ** The stream cipher seen from the wire *)
Section Keystream.
Import Buffer QuantumCrypto.

Lemma bxor_cancel_key (a b k : byte) : bxor (bxor a k) (bxor b k) = bxor a b.
Proof.
  apply to_N_inj. rewrite !to_N_bxor.
  rewrite N.lxor_assoc, (N.lxor_comm (Byte.to_N k)), N.lxor_assoc, N.lxor_nilpotent,
    N.lxor_0_r. done.
Qed.

Lemma bxor_recover_key (a k : byte) : bxor (bxor a k) a = k.
Proof.
  apply to_N_inj. rewrite !to_N_bxor.
  rewrite (N.lxor_comm (Byte.to_N a)), N.lxor_assoc, N.lxor_nilpotent, N.lxor_0_r.
  done.
Qed.

(** X5 — the key stream depends only on the position: two messages
    encrypted under the same secret give ciphertexts whose XOR is the XOR of
    the two plaintexts, and XORing a ciphertext byte with its plaintext byte
    gives the byte of the secret used at that position. *)
Theorem keystream_reuse (this : QuantumCrypto.t) (peerId : option string)
    (secret : Buffer.t) (m1 m2 : jsstring) (now1 now2 : Z) :
  secret_for this peerId = Some secret ->
  exists e1 e2,
    encrypt this m1 peerId now1 = Ok e1
    /\ encrypt this m2 peerId now2 = Ok e2
    /\ forall i b1 b2,
         Utf8.encode m1 !! i = Some b1 ->
         Utf8.encode m2 !! i = Some b2 ->
         exists c1 c2,
           Wire.cipher_bytes e1 !! i = Some c1
           /\ Wire.cipher_bytes e2 !! i = Some c2
           /\ bxor c1 c2 = bxor b1 b2
           /\ bxor c1 b1 = key_at secret i
           /\ bxor c2 b2 = key_at secret i.
Proof.
  intros Hsec. unfold encrypt. rewrite Hsec.
  eexists _, _. split_and!; [done..|].
  intros i b1 b2 H1 H2. unfold Wire.cipher_bytes. cbn [encrypted].
  rewrite !from_hex_to_hex. unfold xor_stream.
  exists (bxor b1 (key_at secret i)), (bxor b2 (key_at secret i)).
  split_and!.
  - by apply (xor_from_lookup secret _ 0 i).
  - by apply (xor_from_lookup secret _ 0 i).
  - apply bxor_cancel_key.
  - apply bxor_recover_key.
  - apply bxor_recover_key.
Qed.

Lemma keystream_reuse_witness :
  exists e1 e2,
    encrypt Scenario.cryptoA1 (js "attack") (Some "B") 7 = Ok e1
    /\ encrypt Scenario.cryptoA1 (js "retreat") (Some "B") 8 = Ok e2
    /\ forall i b1 b2,
         Utf8.encode (js "attack") !! i = Some b1 ->
         Utf8.encode (js "retreat") !! i = Some b2 ->
         exists c1 c2,
           Wire.cipher_bytes e1 !! i = Some c1
           /\ Wire.cipher_bytes e2 !! i = Some c2
           /\ bxor c1 c2 = bxor b1 b2
           /\ bxor c1 b1 = key_at Scenario.secretAB i
           /\ bxor c2 b2 = key_at Scenario.secretAB i.
Proof.
  apply (keystream_reuse Scenario.cryptoA1 (Some "B") Scenario.secretAB).
  vm_compute. reflexivity.
Defined.

End Keystream.

(** ** [QuantumUtils] *)
Section Utils.
Import Buffer.

Lemma to_hex_length (b : Buffer.t) : length (to_hex b) = (2 * length b)%nat.
Proof. induction b as [|x r IH]; [done|]. cbn [to_hex length]. lia. Qed.

(** X6 — [calculateSecurityLevel] answers 'Level 1' for every key size and
    algorithm: the loop returns at the first level whose bit count the key
    size reaches, which is the lowest, and the result after the loop is the
    same. *)
Theorem calculateSecurityLevel_constant (keySize : Z) (algorithm : string) :
  QuantumUtils.calculateSecurityLevel keySize algorithm = "Level 1"%string.
Proof.
  unfold QuantumUtils.calculateSecurityLevel, QuantumUtils.levels.
  cbn [List.find snd fst].
  destruct (Z.leb_spec 128 keySize) as [H|H]; [done|].
  repeat match goal with
         | |- context [(?b <=? keySize)%Z] =>
             destruct (Z.leb_spec b keySize); [lia|]
         end.
  done.
Qed.

(** X7 — session ids are the hex text of the random bytes drawn: twice as
    many characters as bytes (32 for the 16 drawn), digits and lowercase
    letters only, and different bytes give different ids. *)
Theorem generateSessionId_faithful (rnd rnd' : Buffer.t) :
  length (QuantumUtils.generateSessionId rnd) = (2 * length rnd)%nat
  /\ Forall (fun c => (48 <= c <= 57)%N \/ (97 <= c <= 102)%N)
       (QuantumUtils.generateSessionId rnd)
  /\ from_hex (QuantumUtils.generateSessionId rnd) = rnd
  /\ (QuantumUtils.generateSessionId rnd = QuantumUtils.generateSessionId rnd'
      -> rnd = rnd').
Proof.
  unfold QuantumUtils.generateSessionId. split_and!.
  - apply to_hex_length.
  - apply to_hex_lowercase.
  - apply from_hex_to_hex.
  - apply to_hex_inj.
Qed.

End Utils.

(** ** Server and browser sort the two keys alike *)
Section KeyOrder.
Import Buffer.

Lemma hex_digit_compare (m n : N) :
  (m < 16)%N -> (n < 16)%N ->
  N.compare (hex_digit m) (hex_digit n) = N.compare m n.
Proof.
  intros Hm Hn. unfold hex_digit.
  destruct (N.ltb_spec m 10), (N.ltb_spec n 10);
    destruct (N.compare_spec m n);
    first [ apply N.compare_eq_iff; lia
          | apply N.compare_lt_iff; lia
          | apply N.compare_gt_iff; lia ].
Qed.

Lemma byte_compare_digits (x y : N) :
  (x < 256)%N -> (y < 256)%N ->
  match N.compare (x / 16) (y / 16) with
  | Eq => N.compare (x mod 16) (y mod 16)
  | c => c
  end = N.compare x y.
Proof.
  intros Hx Hy.
  destruct (N.compare_spec (x / 16) (y / 16)) as [E|E|E];
    symmetry.
  - destruct (N.compare_spec (x mod 16) (y mod 16));
      first [ apply N.compare_eq_iff; dlia
            | apply N.compare_lt_iff; dlia
            | apply N.compare_gt_iff; dlia ].
  - apply N.compare_lt_iff; dlia.
  - apply N.compare_gt_iff; dlia.
Qed.

Lemma compare_to_hex (a b : Buffer.t) :
  ClientQuantumCrypto.compare (to_hex a) (to_hex b) = Buffer.compare a b.
Proof.
  revert b. induction a as [|x a IH]; intros [|y b]; try done.
  cbn [to_hex ClientQuantumCrypto.compare Buffer.compare].
  pose proof (to_N_lt x). pose proof (to_N_lt y).
  rewrite !hex_digit_compare by dlia.
  rewrite <- (byte_compare_digits (Byte.to_N x) (Byte.to_N y)) by done.
  destruct (N.compare (Byte.to_N x / 16) (Byte.to_N y / 16)); [|done..].
  destruct (N.compare (Byte.to_N x mod 16) (Byte.to_N y mod 16)); [|done..].
  apply IH.
Qed.

Lemma to_hex_app (a b : Buffer.t) : to_hex (a ++ b) = to_hex a ++ to_hex b.
Proof. induction a as [|x a IH]; [done|]. cbn [app to_hex]. by rewrite IH. Qed.

(** X8 — hex text sorts as the bytes do, so the browser, which sorts the
    two keys as strings, puts them in the order in which the server sorts
    the decoded buffers; the text the browser hashes is the hex text of the
    bytes the server hashes. *)
Theorem client_sorts_as_server (a b : Buffer.t) :
  ClientQuantumCrypto.compare (to_hex a) (to_hex b) = Buffer.compare a b
  /\ ClientQuantumCrypto.sort2 (to_hex a) (to_hex b)
     = map to_hex (QuantumCrypto.sort2 a b)
  /\ concat (ClientQuantumCrypto.sort2 (to_hex a) (to_hex b))
     = to_hex (concat (QuantumCrypto.sort2 a b)).
Proof.
  assert (H := compare_to_hex a b).
  unfold ClientQuantumCrypto.sort2, QuantumCrypto.sort2. rewrite H.
  split_and!; [done|by destruct (Buffer.compare a b)|].
  destruct (Buffer.compare a b); cbn [concat];
    by rewrite to_hex_app, !app_nil_r.
Qed.

End KeyOrder.

(** ** The polyfills of [TextEncoder], [TextDecoder] and [crypto.subtle] *)
Section PolyfillFacts.
Import Buffer.
Local Open Scope N_scope.

Lemma testbit_above (b k n : N) : b < 2 ^ k -> k <= n -> N.testbit b n = false.
Proof.
  intros Hb Hn. destruct (N.eq_dec b 0) as [->|Hz]; [apply N.bits_0|].
  apply N.bits_above_log2. apply N.log2_lt_pow2; [lia|].
  eapply N.lt_le_trans; [exact Hb|]. apply N.pow_le_mono_r; lia.
Qed.

(** [(a << k) | b] adds when [b] fits below bit [k]. *)
Lemma lor_shiftl (a k b : N) : b < 2 ^ k -> N.lor (N.shiftl a k) b = a * 2 ^ k + b.
Proof.
  intros Hb. rewrite <- N.shiftl_mul_pow2.
  rewrite <- N.lxor_lor, <- N.add_nocarry_lxor; [done| |];
    (apply N.bits_inj; intros n; rewrite N.land_spec, N.bits_0;
     destruct (N.lt_ge_cases n k);
     [rewrite N.shiftl_spec_low by done; done
     |rewrite (testbit_above b k n) by done; apply andb_false_r]).
Qed.

Lemma land_low (p k : N) : N.land p (N.ones k) = p mod 2 ^ k.
Proof. apply N.land_ones. Qed.

Lemma shiftr_div (p k : N) : N.shiftr p k = p / 2 ^ k.
Proof. apply N.shiftr_div_pow2. Qed.

Local Ltac bits :=
  change 0x3f with (N.ones 6); change 0x1F with (N.ones 5);
  change 0x0F with (N.ones 4); change 0x07 with (N.ones 3);
  change 0xFF with (N.ones 8);
  rewrite ?land_low, ?shiftr_div;
  rewrite ?lor_shiftl by (simpl; dlia);
  change (2 ^ 3) with 8; change (2 ^ 4) with 16; change (2 ^ 5) with 32;
  change (2 ^ 6) with 64; change (2 ^ 7) with 128; change (2 ^ 8) with 256;
  change (2 ^ 12) with 4096; change (2 ^ 18) with 262144.

Lemma encode_bmp_code_point (p : N) :
  p < 0x10000 -> Polyfill.encode_bmp p = Utf8.encode_code_point p.
Proof.
  intros Hp. unfold Polyfill.encode_bmp, Utf8.encode_code_point.
  destruct (N.leb_spec p 0x7f), (N.ltb_spec p 0x80); try lia.
  { bits. repeat f_equal; try done; dlia. }
  destruct (N.leb_spec p 0x7ff), (N.ltb_spec p 0x800); try lia.
  { bits. repeat f_equal; try done; dlia. }
  destruct (N.ltb_spec p 0x10000); try lia.
  bits. repeat f_equal; try done; dlia.
Qed.

Lemma polyfill_encode_bounded (n : nat) (s : jsstring) :
  (length s <= n)%nat -> Utf8.well_formed s = true ->
  Polyfill.encode s = Utf8.encode s.
Proof.
  revert s. induction n as [|n IH]; intros [|c rest] Hlen Hwf;
    try done; cbn [length] in Hlen; [lia|].
  cbn [Polyfill.encode Utf8.encode Utf8.well_formed] in *.
  unfold Utf8.is_high_surrogate, Utf8.is_low_surrogate in *.
  destruct ((0xD800 <=? c) && (c <=? 0xDBFF)) eqn:Hhigh.
  - destruct rest as [|d rest']; [done|].
    apply andb_true_iff in Hwf as [Hlow Hwf]. rewrite Hlow.
    apply surrogate_bounds in Hhigh. apply surrogate_bounds in Hlow.
    cbn [length] in Hlen.
    rewrite (IH rest') by (done || lia).
    replace ((c - 0xD800) * 0x400 + d - 0xDC00 + 0x10000)
      with (0x10000 + (c - 0xD800) * 1024 + (d - 0xDC00)) by lia.
    set (p := 0x10000 + (c - 0xD800) * 1024 + (d - 0xDC00)).
    assert (Hp : 0x10000 <= p < 0x110000) by (unfold p; lia).
    destruct (N.ltb_spec 0xffff p); [|lia].
    f_equal. unfold Utf8.encode_code_point.
    destruct (N.ltb_spec p 0x80); [lia|].
    destruct (N.ltb_spec p 0x800); [lia|].
    destruct (N.ltb_spec p 0x10000); [lia|].
    bits. repeat f_equal; try done; dlia.
  - apply andb_true_iff in Hwf as [Hwf Hrest].
    apply andb_true_iff in Hwf as [Hc Hlow].
    apply negb_true_iff in Hlow. rewrite Hlow.
    apply N.ltb_lt in Hc.
    rewrite (IH rest) by (done || lia). by rewrite encode_bmp_code_point.
Qed.

(** X9 — on a string without unpaired surrogates the replacement
    [TextEncoder] writes the bytes the native encoder writes. *)
Theorem polyfill_encode_native (s : jsstring) :
  Utf8.well_formed s = true -> Polyfill.encode s = Utf8.encode s.
Proof. by apply (polyfill_encode_bounded (length s)). Qed.

Lemma polyfill_encode_native_witness :
  Polyfill.encode [0x20AC; 0xD83D; 0xDE00; 65]
  = Utf8.encode [0x20AC; 0xD83D; 0xDE00; 65].
Proof. apply polyfill_encode_native. vm_compute. reflexivity. Defined.

Lemma polyfill_decode_code_point (p : N) (rest : Buffer.t) :
  p < 0x110000 ->
  Polyfill.decode (Utf8.encode_code_point p ++ rest)
  = match Polyfill.decode rest with
    | Ok s => Ok (Utf8.code_units p ++ s)
    | Throw e => Throw e
    end.
Proof.
  intros Hmax. unfold Utf8.encode_code_point, Utf8.code_units.
  destruct (N.ltb_spec p 0x80).
  { cbn [app Polyfill.decode]. rewrite to_N_byte_of_N by lia.
    unfold Polyfill.lead. destruct (N.leb_spec p 0x7F); [|lia].
    bits. rewrite N.mod_small by lia.
    unfold Polyfill.append, Polyfill.fromCodePoint.
    destruct (N.leb_spec p 0xFFFF); [|lia].
    destruct (N.ltb_spec p 0x10000); [|lia]. done. }
  destruct (N.ltb_spec p 0x800).
  { cbn [app Polyfill.decode]. rewrite to_N_byte_of_N by dlia.
    unfold Polyfill.lead.
    destruct (N.leb_spec (0xC0 + p / 64) 0x7F); [dlia|].
    destruct (N.leb_spec (0xC0 + p / 64) 0xDF); [|dlia].
    unfold Polyfill.continue. rewrite to_N_byte_of_N by dlia. bits.
    replace (((0xC0 + p / 64) mod 32) * 64 + (0x80 + p mod 64) mod 64)
      with p by dlia.
    unfold Polyfill.append, Polyfill.fromCodePoint.
    destruct (N.leb_spec p 0xFFFF); [|lia].
    destruct (N.ltb_spec p 0x10000); [|lia]. done. }
  destruct (N.ltb_spec p 0x10000).
  { cbn [app Polyfill.decode]. rewrite to_N_byte_of_N by dlia.
    unfold Polyfill.lead.
    destruct (N.leb_spec (0xE0 + p / 4096) 0x7F); [dlia|].
    destruct (N.leb_spec (0xE0 + p / 4096) 0xDF); [dlia|].
    destruct (N.leb_spec (0xE0 + p / 4096) 0xEF); [|dlia].
    unfold Polyfill.continue. rewrite !to_N_byte_of_N by dlia. bits.
    replace ((((0xE0 + p / 4096) mod 16) * 64 + (0x80 + (p / 64) mod 64) mod 64) * 64
             + (0x80 + p mod 64) mod 64)
      with p by dlia.
    unfold Polyfill.append, Polyfill.fromCodePoint.
    destruct (N.leb_spec p 0xFFFF); [|lia]. done. }
  cbn [app Polyfill.decode]. rewrite to_N_byte_of_N by dlia.
  unfold Polyfill.lead.
  destruct (N.leb_spec (0xF0 + p / 262144) 0x7F); [dlia|].
  destruct (N.leb_spec (0xF0 + p / 262144) 0xDF); [dlia|].
  destruct (N.leb_spec (0xF0 + p / 262144) 0xEF); [dlia|].
  destruct (N.leb_spec (0xF0 + p / 262144) 0xF4); [|dlia].
  unfold Polyfill.continue. rewrite !to_N_byte_of_N by dlia. bits.
  replace (((((0xF0 + p / 262144) mod 8) * 64 + (0x80 + (p / 4096) mod 64) mod 64) * 64
            + (0x80 + (p / 64) mod 64) mod 64) * 64 + (0x80 + p mod 64) mod 64)
    with p by dlia.
  unfold Polyfill.append, Polyfill.fromCodePoint.
  destruct (N.leb_spec p 0xFFFF); [lia|].
  destruct (N.leb_spec p 0x10FFFF); [|lia]. done.
Qed.

Lemma polyfill_round_trip_bounded (n : nat) (s : jsstring) :
  (length s <= n)%nat -> Utf8.well_formed s = true ->
  Polyfill.decode (Utf8.encode s) = Ok s.
Proof.
  revert s. induction n as [|n IH]; intros [|c rest] Hlen Hwf;
    try done; cbn [length] in Hlen; [lia|].
  cbn [Utf8.encode Utf8.well_formed] in *.
  destruct (Utf8.is_high_surrogate c) eqn:Hhigh.
  - destruct rest as [|d rest']; [done|].
    apply andb_true_iff in Hwf as [Hlow Hwf]. rewrite Hlow.
    unfold Utf8.is_high_surrogate, Utf8.is_low_surrogate in *.
    apply surrogate_bounds in Hhigh. apply surrogate_bounds in Hlow.
    cbn [length] in Hlen.
    rewrite polyfill_decode_code_point by lia.
    rewrite (IH rest') by (done || lia).
    unfold Utf8.code_units.
    destruct (N.ltb_spec (0x10000 + (c - 0xD800) * 1024 + (d - 0xDC00)) 0x10000);
      [lia|].
    cbn [app]. repeat f_equal; dlia.
  - apply andb_true_iff in Hwf as [Hwf Hrest].
    apply andb_true_iff in Hwf as [Hc Hlow].
    apply negb_true_iff in Hlow. rewrite Hlow.
    apply N.ltb_lt in Hc.
    unfold Utf8.is_high_surrogate, Utf8.is_low_surrogate in *.
    rewrite polyfill_decode_code_point by lia.
    rewrite (IH rest) by (done || lia).
    unfold Utf8.code_units. destruct (N.ltb_spec c 0x10000); [done|lia].
Qed.

(** X10 — the replacement decoder undoes the replacement encoder, and the
    native encoder, on every string without unpaired surrogates; it does
    not throw there. *)
Theorem polyfill_round_trip (s : jsstring) :
  Utf8.well_formed s = true ->
  Polyfill.decode (Polyfill.encode s) = Ok s
  /\ Polyfill.decode (Utf8.encode s) = Ok s.
Proof.
  intros Hwf. rewrite (polyfill_encode_bounded (length s)) by done.
  split; by apply (polyfill_round_trip_bounded (length s)).
Qed.

Lemma polyfill_round_trip_witness :
  Polyfill.decode (Polyfill.encode [0x20AC; 0xD83D; 0xDE00; 65])
  = Ok [0x20AC; 0xD83D; 0xDE00; 65].
Proof. apply polyfill_round_trip. vm_compute. reflexivity. Defined.

(** X11 — an unpaired low surrogate at the head of a string is kept by the
    replacement codec, which writes it as a three-byte sequence and reads
    it back, and is replaced by U+FFFD by the native one. *)
Theorem polyfill_keeps_low_surrogate (c : N) (s : jsstring) :
  Utf8.is_low_surrogate c = true ->
  Utf8.well_formed s = true ->
  Polyfill.decode (Polyfill.encode (c :: s)) = Ok (c :: s)
  /\ Utf8.decode (Utf8.encode (c :: s)) = Utf8.replacement :: s.
Proof.
  intros Hlow Hwf. cbn [Polyfill.encode Utf8.encode].
  assert (Hhigh : Utf8.is_high_surrogate c = false).
  { unfold Utf8.is_low_surrogate, Utf8.is_high_surrogate in *.
    apply surrogate_bounds in Hlow.
    destruct (N.leb_spec c 0xDBFF); [lia|apply andb_false_r]. }
  rewrite Hhigh, Hlow. fold (Utf8.is_high_surrogate c). rewrite Hhigh.
  unfold Utf8.is_low_surrogate in Hlow. apply surrogate_bounds in Hlow.
  split.
  - rewrite encode_bmp_code_point, polyfill_decode_code_point by lia.
    rewrite (polyfill_encode_bounded (length s)) by done.
    rewrite (polyfill_round_trip_bounded (length s)) by done.
    unfold Utf8.code_units. destruct (N.ltb_spec c 0x10000); [done|lia].
  - unfold Utf8.decode. rewrite decode_code_point
      by (unfold Utf8.scalar, Utf8.replacement; lia).
    fold (Utf8.decode (Utf8.encode s)). by rewrite decode_encode.
Qed.

Lemma polyfill_keeps_low_surrogate_witness :
  Polyfill.decode (Polyfill.encode [0xDC00; 65]) = Ok [0xDC00; 65]
  /\ Utf8.decode (Utf8.encode [0xDC00; 65]) = [Utf8.replacement; 65].
Proof.
  apply (polyfill_keeps_low_surrogate 0xDC00 [65]); vm_compute; reflexivity.
Defined.

Lemma key_at_period_4 (a b c d : byte) (i : nat) :
  QuantumCrypto.key_at (concat (repeat [a; b; c; d] 8)) i
  = QuantumCrypto.key_at [a; b; c; d] i.
Proof.
  unfold QuantumCrypto.key_at. cbn [repeat concat app length].
  assert (H : (i mod 4 = (i mod 32) mod 4)%nat).
  { change 32%nat with (4 * 8)%nat. rewrite Nat.Div0.mod_mul_r.
    rewrite (Nat.mul_comm 4), Nat.Div0.mod_add. symmetry. apply Nat.Div0.mod_mod. }
  rewrite H. assert (Hlt : (i mod 32 < 32)%nat) by (apply Nat.mod_upper_bound; lia).
  clear H. generalize dependent (i mod 32)%nat. clear i. intros j Hlt.
  do 32 (destruct j as [|j]; [reflexivity|]). lia.
Qed.

Lemma xor_from_period_4 (a b c d : byte) (bytes : Buffer.t) (i : nat) :
  QuantumCrypto.xor_from i (concat (repeat [a; b; c; d] 8)) bytes
  = QuantumCrypto.xor_from i [a; b; c; d] bytes.
Proof.
  revert i. induction bytes as [|x r IH]; intros i; [done|].
  cbn [QuantumCrypto.xor_from]. by rewrite key_at_period_4, IH.
Qed.

(** X12 — the replacement of [crypto.subtle.digest] returns thirty-two
    bytes that repeat the four bytes of one 32-bit hash eight times, so a
    secret made by it encrypts as its first four bytes alone do. *)
Theorem polyfill_digest_repeats (data : Buffer.t) :
  length (Polyfill.digest data) = 32%nat
  /\ Polyfill.digest data = concat (repeat (take 4 (Polyfill.digest data)) 8)
  /\ forall bytes : Buffer.t,
       QuantumCrypto.xor_stream (Polyfill.digest data) bytes
       = QuantumCrypto.xor_stream (take 4 (Polyfill.digest data)) bytes.
Proof.
  unfold Polyfill.digest.
  set (hash := fold_left Polyfill.hash_step data 0%Z).
  set (cut := fun i : nat =>
         byte_of_Z (Z.land (Z.shiftr hash (Z.of_nat (i mod 4 * 8))) 0xFF)).
  assert (E : map cut (seq 0 32)
              = concat (repeat [cut 0; cut 1; cut 2; cut 3]%nat 8)) by reflexivity.
  rewrite E. split_and!.
  - reflexivity.
  - reflexivity.
  - intros bytes. unfold QuantumCrypto.xor_stream.
    apply xor_from_period_4.
Qed.

End PolyfillFacts.

(** ** The browser's cipher *)
Section ClientCipherFacts.
Import Buffer ClientCipher.

Lemma hexString_to_hex (b : Buffer.t) : hexString b = to_hex b.
Proof.
  unfold hexString. induction b as [|x r IH]; [done|].
  cbn [map concat to_hex]. rewrite IH. clear IH.
  pose proof (to_N_lt x) as Hx. unfold toString16.
  destruct (N.ltb_spec (Byte.to_N x) 16).
  - cbn [padStart2 app]. rewrite N.div_small, N.mod_small by done. done.
  - done.
Qed.

Lemma hex_char (c v : N) :
  hex_val c = Some v ->
  (v < 16)%N
  /\ is_line_terminator c = false
  /\ is_white_space c = false
  /\ (c =? 45)%N = false /\ (c =? 43)%N = false
  /\ (c =? 120)%N = false /\ (c =? 88)%N = false.
Proof.
  unfold hex_val, is_white_space, is_line_terminator.
  intros H.
  assert (Hc : ((48 <= c <= 57) \/ (97 <= c <= 102) \/ (65 <= c <= 70))%N
               /\ (v < 16)%N).
  { destruct ((48 <=? c) && (c <=? 57))%N eqn:E1;
      [apply surrogate_bounds in E1; simplify_eq; lia|].
    destruct ((97 <=? c) && (c <=? 102))%N eqn:E2;
      [apply surrogate_bounds in E2; simplify_eq; lia|].
    destruct ((65 <=? c) && (c <=? 70))%N eqn:E3;
      [apply surrogate_bounds in E3; simplify_eq; lia|done]. }
  destruct Hc as [Hc Hv].
  rewrite !bool_decide_eq_false_2
    by (rewrite ?elem_of_cons, elem_of_nil; lia).
  cbn [orb].
  split_and!; try done; try (apply N.eqb_neq; lia).
  apply andb_false_iff. left. apply N.leb_gt. lia.
Qed.

Lemma parseInt16_pair (h l hv lv : N) :
  hex_val h = Some hv -> hex_val l = Some lv ->
  parseInt16 [h; l] = Some (Z.of_N (16 * hv + lv)).
Proof.
  intros Hh Hl.
  destruct (hex_char h hv Hh) as (_ & _ & Hws & Hm & Hp & _ & _).
  destruct (hex_char l lv Hl) as (_ & _ & _ & _ & _ & Hx & HX).
  unfold parseInt16. cbn [trim_start]. rewrite Hws, Hm, Hp, Hx, HX.
  cbn [orb]. rewrite andb_false_r. cbn [hex_prefix].
  rewrite Hh. cbn [hex_prefix]. rewrite Hl. cbn [default from_option id fmap option_fmap option_map].
  f_equal. lia.
Qed.

Lemma parseInt16_single (c v : N) :
  hex_val c = Some v -> parseInt16 [c] = Some (Z.of_N v).
Proof.
  intros Hc. destruct (hex_char c v Hc) as (_ & _ & Hws & Hm & Hp & _ & _).
  unfold parseInt16. cbn [trim_start]. rewrite Hws, Hm, Hp.
  cbn [hex_prefix]. rewrite Hc. cbn. f_equal. lia.
Qed.

Lemma byte_of_Z_of_N (n : N) : byte_of_Z (Z.of_N n) = byte_of_N n.
Proof.
  unfold byte_of_Z, byte_of_N.
  change 256%Z with (Z.of_N 256). rewrite <- N2Z.inj_mod, N2Z.id.
  by rewrite N.Div0.mod_mod.
Qed.

Lemma pairs_ind {A} (P : list A -> Prop) :
  P [] -> (forall a, P [a]) -> (forall a b l, P l -> P (a :: b :: l)) ->
  forall l, P l.
Proof.
  intros H0 H1 H2 l. cut (P l /\ forall a, P (a :: l)); [tauto|].
  induction l as [|x l [IH1 IH2]]; [by split|]. split; [apply IH2|].
  intros a. by apply H2.
Qed.

Lemma parse_hex_pairs (s : jsstring) :
  Forall (fun c => is_Some (hex_val c)) s ->
  (Nat.even (length s) = true -> parse_hex s = from_hex s)
  /\ (Nat.even (length s) = false ->
      exists s' c v, s = s' ++ [c] /\ hex_val c = Some v
                     /\ parse_hex s = from_hex s' ++ [byte_of_N v]
                     /\ from_hex s = from_hex s').
Proof.
  induction s as [|c|h l r IH] using pairs_ind; intros Hs.
  - split; done.
  - split; [done|]. intros _. apply Forall_cons in Hs as [[v Hv] _].
    exists [], c, v. split_and!; try done.
    destruct (hex_char c v Hv) as (_ & Hlt & _).
    unfold parse_hex. cbn [chunks]. rewrite Hlt. cbn [map].
    rewrite (parseInt16_single c v) by done. cbn [default from_option id].
    by rewrite byte_of_Z_of_N.
  - apply Forall_cons in Hs as [[hv Hh] Hs].
    apply Forall_cons in Hs as [[lv Hl] Hs].
    destruct (IH Hs) as [IHe IHo]. clear IH.
    destruct (hex_char h hv Hh) as (_ & Hlth & _).
    destruct (hex_char l lv Hl) as (_ & Hltl & _).
    assert (Hstep : parse_hex (h :: l :: r) = byte_of_N (16 * hv + lv) :: parse_hex r).
    { unfold parse_hex. cbn [chunks]. rewrite Hlth, Hltl. cbn [map].
      rewrite (parseInt16_pair h l hv lv) by done. cbn [default from_option id].
      by rewrite byte_of_Z_of_N. }
    rewrite Hstep. cbn [from_hex length Nat.even]. rewrite Hh, Hl. split.
    + intros He. by rewrite IHe.
    + intros Ho. destruct (IHo Ho) as (s' & c & v & -> & Hc & Hp & Hf).
      exists (h :: l :: s'), c, v. split_and!; try done.
      * rewrite Hp. cbn [from_hex]. by rewrite Hh, Hl.
      * cbn [from_hex]. by rewrite Hh, Hl, Hf.
Qed.

Lemma hexPattern_test_Forall (s : jsstring) :
  hexPattern_test s = true -> Forall (fun c => is_Some (hex_val c)) s.
Proof.
  unfold hexPattern_test. destruct s as [|c r]; [done|].
  intros H. apply Forall_forall. intros x Hx.
  rewrite forallb_forall in H. eapply bool_decide_eq_true_1, H.
  by apply list_elem_of_In.
Qed.

Lemma parse_hex_to_hex (b : Buffer.t) : parse_hex (to_hex b) = b.
Proof.
  destruct (parse_hex_pairs (to_hex b)) as [He _].
  - eapply Forall_impl; [apply to_hex_lowercase|]. cbn beta.
    intros c Hc. unfold hex_val.
    destruct ((48 <=? c) && (c <=? 57))%N eqn:E1; [eauto|].
    destruct ((97 <=? c) && (c <=? 102))%N eqn:E2; [eauto|].
    exfalso. destruct Hc as [Hc|Hc].
    + apply surrogate_bounds in Hc. congruence.
    + apply surrogate_bounds in Hc. congruence.
  - rewrite He, from_hex_to_hex; [done|].
    rewrite to_hex_length. by rewrite Nat.even_mul.
Qed.

(** X13 — the browser writes a ciphertext as the text [Buffer.toString('hex')]
    gives on the server, and reads that text back to the same bytes. *)
Theorem client_hex_text (b : Buffer.t) :
  hexString b = to_hex b /\ parse_hex (hexString b) = b.
Proof.
  split; [apply hexString_to_hex|]. rewrite hexString_to_hex.
  apply parse_hex_to_hex.
Qed.

(** X14 — the browser's hex parser and the server's [Buffer.from(s, 'hex')]
    agree on every text of hex digits of even length; on an odd length the
    server drops the last digit and the browser reads it as one more
    byte. *)
Theorem client_parses_hex_as_server (s : jsstring) :
  hexPattern_test s = true ->
  (Nat.even (length s) = true -> parse_hex s = from_hex s)
  /\ (Nat.even (length s) = false ->
      exists s' c v, s = s' ++ [c] /\ hex_val c = Some v
                     /\ parse_hex s = from_hex s' ++ [byte_of_N v]
                     /\ from_hex s = from_hex s').
Proof. intros H. by apply parse_hex_pairs, hexPattern_test_Forall. Qed.

Lemma client_parses_hex_as_server_witness :
  (Nat.even (length (js "0A1b")) = true ->
   parse_hex (js "0A1b") = from_hex (js "0A1b"))
  /\ (Nat.even (length (js "0A1b")) = false ->
      exists s' c v, js "0A1b" = s' ++ [c] /\ hex_val c = Some v
                     /\ parse_hex (js "0A1b") = from_hex s' ++ [byte_of_N v]
                     /\ from_hex (js "0A1b") = from_hex s').
Proof. apply client_parses_hex_as_server. vm_compute. reflexivity. Defined.

Lemma strip_bom_first (a : byte) (bs : Buffer.t) :
  Byte.to_N a <> 0xEF%N -> strip_bom (a :: bs) = a :: bs.
Proof.
  intros H. destruct bs as [|b [|c r]]; try done. unfold strip_bom.
  by rewrite (bool_decide_eq_false_2 (Byte.to_N a = 0xEF%N)).
Qed.

Lemma strip_bom_second (a b : byte) (bs : Buffer.t) :
  Byte.to_N b <> 0xBB%N -> strip_bom (a :: b :: bs) = a :: b :: bs.
Proof.
  intros H. destruct bs as [|c r]; try done. unfold strip_bom.
  by rewrite (bool_decide_eq_false_2 (Byte.to_N b = 0xBB%N)), andb_false_r.
Qed.

Lemma strip_bom_third (a b c : byte) (bs : Buffer.t) :
  Byte.to_N c <> 0xBF%N -> strip_bom (a :: b :: c :: bs) = a :: b :: c :: bs.
Proof.
  intros H. unfold strip_bom.
  by rewrite (bool_decide_eq_false_2 (Byte.to_N c = 0xBF%N)), andb_false_r.
Qed.

Lemma strip_bom_code_point (p : N) (rest : Buffer.t) :
  (p < 0x110000)%N -> p <> 0xFEFF%N ->
  strip_bom (Utf8.encode_code_point p ++ rest) = Utf8.encode_code_point p ++ rest.
Proof.
  intros Hmax Hp. unfold Utf8.encode_code_point.
  destruct (N.ltb_spec p 0x80);
    [cbn [app]; apply strip_bom_first; rewrite to_N_byte_of_N; lia|].
  destruct (N.ltb_spec p 0x800);
    [cbn [app]; apply strip_bom_first; rewrite to_N_byte_of_N; dlia|].
  destruct (N.ltb_spec p 0x10000);
    [|cbn [app]; apply strip_bom_first; rewrite to_N_byte_of_N; dlia].
  cbn [app].
  destruct (N.eq_dec (p / 4096)%N 15%N) as [E1|E1];
    [|apply strip_bom_first; rewrite to_N_byte_of_N; dlia].
  destruct (N.eq_dec ((p / 64) mod 64)%N 0x3B%N) as [E2|E2];
    [|apply strip_bom_second; rewrite to_N_byte_of_N; dlia].
  apply strip_bom_third; rewrite to_N_byte_of_N; dlia.
Qed.

Lemma strip_bom_encode (m : jsstring) :
  Utf8.well_formed m = true -> head m <> Some 0xFEFF%N ->
  strip_bom (Utf8.encode m) = Utf8.encode m.
Proof.
  destruct m as [|c rest]; [done|]. cbn [head Utf8.well_formed Utf8.encode].
  intros Hwf Hc. unfold Utf8.is_high_surrogate, Utf8.is_low_surrogate in *.
  destruct ((0xD800 <=? c) && (c <=? 0xDBFF))%N eqn:Hhigh.
  - destruct rest as [|d rest']; [done|].
    apply andb_true_iff in Hwf as [Hlow _]. rewrite Hlow.
    apply surrogate_bounds in Hhigh. apply surrogate_bounds in Hlow.
    apply strip_bom_code_point; lia.
  - apply andb_true_iff in Hwf as [Hwf _].
    apply andb_true_iff in Hwf as [Hlt Hlow].
    apply negb_true_iff in Hlow. rewrite Hlow. apply N.ltb_lt in Hlt.
    apply strip_bom_code_point; [lia|congruence].
Qed.

Lemma encode_text_utf8 (codec : TextCodec) (m : jsstring) :
  codec ∈ [native; polyfill] -> Utf8.well_formed m = true ->
  encode_text codec m = Utf8.encode m.
Proof.
  rewrite !elem_of_cons, elem_of_nil. intros [->|[->|[]]] Hwf; [done|].
  unfold encode_text. cbn [encoder polyfill].
  by apply (polyfill_encode_bounded (length m)).
Qed.

Lemma decode_text_utf8 (codec : TextCodec) (m : jsstring) :
  codec ∈ [native; polyfill] -> Utf8.well_formed m = true ->
  (codec = native -> head m <> Some 0xFEFF%N) ->
  decode_text codec (Utf8.encode m) = m.
Proof.
  rewrite !elem_of_cons, elem_of_nil. intros [->|[->|[]]] Hwf Hbom.
  - unfold decode_text. cbn [decoder native].
    rewrite strip_bom_encode by auto. by apply decode_encode.
  - unfold decode_text. cbn [decoder polyfill].
    by rewrite (polyfill_round_trip_bounded (length m)).
Qed.

(** What the receiver computes from the envelope the sender built, the two
    holding the same secret. *)
Lemma decrypt_with_encrypted (codec codec' : TextCodec) (secret : Buffer.t)
    (m : jsstring) (alg : option string) (ts : Z) (fp fromP : option string) :
  codec ∈ [native; polyfill] -> codec' ∈ [native; polyfill] ->
  m <> [] -> Utf8.well_formed m = true ->
  (codec' = native -> head m <> Some 0xFEFF%N) ->
  decrypt_with codec' secret
    (mkEnvelope
       (EString (hexString (QuantumCrypto.xor_stream secret (encode_text codec m))))
       alg ts fp fromP (Some "hex"))
  = Ok m.
Proof.
  intros Hc Hc' Hm Hwf Hbom. unfold decrypt_with, encrypted_bytes.
  cbn [encrypted format]. rewrite bool_decide_eq_true_2 by done.
  rewrite hexString_to_hex, parse_hex_to_hex.
  rewrite xor_stream_involutive, encode_text_utf8 by done.
  rewrite decode_text_utf8 by done. by destruct m.
Qed.

Lemma decrypt_known (codec : TextCodec) (this : ClientQuantumCrypto.t)
    (e : Envelope) (p : string) (secret : Buffer.t) :
  (if truthy_id (fromPeer e) then fromPeer e else forPeer e) = Some p ->
  p <> ""%string ->
  ClientQuantumCrypto.sharedSecrets this !! p = Some secret ->
  decrypt codec this e = (decrypt_with codec secret e, this, []).
Proof.
  intros Hp Ht Hs. apply truthy_id_Some in Ht.
  unfold decrypt. by rewrite Hp, Ht, Hs.
Qed.

Lemma client_exchange (encode : jsstring -> Buffer.t)
    (this : ClientQuantumCrypto.t) (own peerKey : jsstring) (p : string) :
  ClientQuantumCrypto.publicKey this = Some own -> own <> [] -> p <> ""%string ->
  ClientQuantumCrypto.performKeyExchange (Some encode) this peerKey (Some p)
  = (Ok (ClientQuantumCrypto.mkExchange p
           (encode (concat (ClientQuantumCrypto.sort2 own peerKey)))),
     ClientQuantumCrypto.mk (Some own) (ClientQuantumCrypto.sharedSecrets this)
       (<[p := peerKey]> (ClientQuantumCrypto.peers this))).
Proof.
  intros Hown Hne Hp. apply truthy_id_Some in Hp.
  unfold ClientQuantumCrypto.performKeyExchange. rewrite Hown, Hp.
  by destruct own.
Qed.

Lemma well_formed_app_bounded (n : nat) (a b : jsstring) :
  (length a <= n)%nat ->
  Utf8.well_formed a = true -> Utf8.well_formed b = true ->
  Utf8.well_formed (a ++ b) = true.
Proof.
  intros Hlen Ha Hb. revert a Hlen Ha.
  induction n as [|n IH]; intros [|c r] Hlen Ha; try done;
    cbn [length] in Hlen; [lia|].
  cbn [app Utf8.well_formed] in *.
  destruct (Utf8.is_high_surrogate c).
  - destruct r as [|d r']; [done|]. cbn [app length] in *.
    apply andb_true_iff in Ha as [-> Ha]. cbn [andb]. apply IH; [lia|done].
  - apply andb_true_iff in Ha as [-> Ha]. cbn [andb]. apply IH; [lia|done].
Qed.

Lemma well_formed_app (a b : jsstring) :
  Utf8.well_formed a = true -> Utf8.well_formed b = true ->
  Utf8.well_formed (a ++ b) = true.
Proof. by apply (well_formed_app_bounded (length a)). Qed.

Lemma well_formed_sorted (a b : jsstring) :
  Utf8.well_formed a = true -> Utf8.well_formed b = true ->
  Utf8.well_formed (concat (ClientQuantumCrypto.sort2 a b)) = true.
Proof.
  intros Ha Hb. unfold ClientQuantumCrypto.sort2.
  destruct (ClientQuantumCrypto.compare a b); cbn [concat];
    rewrite app_nil_r; by apply well_formed_app.
Qed.

(** The instance after a key exchange whose promise has resolved. *)
Lemma client_exchanged (codec : TextCodec) (digest : Buffer.t -> Buffer.t)
    (this : ClientQuantumCrypto.t) (own peerKey : jsstring) (p : string) :
  codec ∈ [native; polyfill] ->
  ClientQuantumCrypto.publicKey this = Some own -> own <> [] -> p <> ""%string ->
  Utf8.well_formed own = true -> Utf8.well_formed peerKey = true ->
  ClientQuantumCrypto.exchanged (encoder codec) digest this peerKey (Some p)
  = ClientQuantumCrypto.mk (Some own)
      (<[p := digest (Utf8.encode (concat (ClientQuantumCrypto.sort2 own peerKey)))]>
         (ClientQuantumCrypto.sharedSecrets this))
      (<[p := peerKey]> (ClientQuantumCrypto.peers this)).
Proof.
  intros Hc Hown Hne Hp Hwo Hwp.
  assert (He : exists encode, encoder codec = Some encode
             /\ encode (concat (ClientQuantumCrypto.sort2 own peerKey))
                = Utf8.encode (concat (ClientQuantumCrypto.sort2 own peerKey))).
  { pose proof (well_formed_sorted own peerKey Hwo Hwp) as Hwf.
    revert Hc. rewrite !elem_of_cons, elem_of_nil. intros [->|[->|[]]].
    - by exists Utf8.encode.
    - exists Polyfill.encode. split; [done|].
      by apply (polyfill_encode_bounded
                  (length (concat (ClientQuantumCrypto.sort2 own peerKey)))). }
  destruct He as (encode & -> & Henc).
  unfold ClientQuantumCrypto.exchanged.
  rewrite (client_exchange encode this own peerKey p) by done.
  unfold ClientQuantumCrypto.resolve.
  cbn [ClientQuantumCrypto.publicKey ClientQuantumCrypto.sharedSecrets
       ClientQuantumCrypto.peers ClientQuantumCrypto.exchange_peer
       ClientQuantumCrypto.exchange_data].
  by rewrite Henc.
Qed.

(** X15 — end to end between two browsers.  Each has run the key exchange
    with the other's public key and its digest promise has resolved; the
    two compute the digest by the same function [digest], both through
    [crypto.subtle] or both through the polyfill.  Then what one encrypts
    for the other, relayed with the sender's id, is decrypted by the other
    to the text sent.  Either side may run on the native text codec or on
    its polyfill; the keys are text without unpaired surrogates, as the
    hex text the server publishes is; the message is non-empty, has no
    unpaired surrogate and, for a receiver on the native decoder, does not
    start with a byte order mark. *)
Theorem client_end_to_end (codecA codecB : TextCodec)
    (digest : Buffer.t -> Buffer.t)
    (A B : ClientQuantumCrypto.t) (a b : jsstring) (idA idB : string)
    (m : jsstring) (now : Z) :
  codecA ∈ [native; polyfill] -> codecB ∈ [native; polyfill] ->
  ClientQuantumCrypto.publicKey A = Some a -> a <> [] ->
  Utf8.well_formed a = true ->
  ClientQuantumCrypto.publicKey B = Some b -> b <> [] ->
  Utf8.well_formed b = true ->
  idA <> ""%string -> idB <> ""%string ->
  m <> [] -> Utf8.well_formed m = true ->
  (codecB = native -> head m <> Some 0xFEFF%N) ->
  let A' := ClientQuantumCrypto.exchanged (encoder codecA) digest A b (Some idB) in
  let B' := ClientQuantumCrypto.exchanged (encoder codecB) digest B a (Some idA) in
  exists e,
    encrypt codecA A' m idB now = Ok e
    /\ forPeer e = Some idB
    /\ fromPeer e = None
    /\ decrypt codecB B' (with_sender (Some idA) e) = (Ok m, B', []).
Proof.
  intros HcA HcB Ha Hane Hwa Hb Hbne Hwb HidA HidB Hm Hwf Hbom. cbn zeta.
  rewrite (client_exchanged codecA digest A a b idB),
    (client_exchanged codecB digest B b a idA) by done.
  unfold encrypt. cbn [ClientQuantumCrypto.sharedSecrets].
  rewrite lookup_insert_eq. eexists. split_and!; [done..|].
  assert (Ht := HidA). apply truthy_id_Some in Ht.
  unfold with_sender. cbn [fromPeer]. change (truthy_id None) with false.
  cbn [negb andb]. rewrite Ht.
  cbn [encrypted algorithm timestamp forPeer fromPeer format].
  rewrite (decrypt_known codecB _ _ idA
             (digest (Utf8.encode (concat (ClientQuantumCrypto.sort2 b a)))));
    [|cbn [fromPeer]; by rewrite Ht|done|apply lookup_insert_eq].
  f_equal. f_equal. rewrite (string_sort2_concat b a).
  by apply decrypt_with_encrypted.
Qed.

Lemma client_end_to_end_witness :
  exists e,
    encrypt native Browsers.alice1 (js "hello") "B" 7 = Ok e
    /\ forPeer e = Some "B"
    /\ fromPeer e = None
    /\ decrypt polyfill Browsers.bob1 (with_sender (Some "A") e)
       = (Ok (js "hello"), Browsers.bob1, []).
Proof.
  apply (client_end_to_end native polyfill NodeCrypto.sha256
           Browsers.alice Browsers.bob
           Scenario.pkA Scenario.pkB "A" "B" (js "hello") 7).
  - apply list_elem_of_here.
  - apply list_elem_of_further, list_elem_of_here.
  - reflexivity.
  - discriminate.
  - reflexivity.
  - reflexivity.
  - discriminate.
  - reflexivity.
  - discriminate.
  - discriminate.
  - discriminate.
  - reflexivity.
  - discriminate.
Defined.

(** The hypothesis on the digest is needed: when the sender hashes with
    SHA-256 and the receiver, on a page without [crypto.subtle], with the
    polyfill, the two store different secrets and the text does not come
    back. *)
Example mixed_digests_garble :
  decrypt native Browsers.bob_polyfilled Browsers.hello_for_bob
  = (Ok [0xFFFD; 15; 0xFFFD; 0xFFFD; 0xFFFD]%N, Browsers.bob_polyfilled, []).
Proof. vm_compute. reflexivity. Qed.

(** X16 — a message from a peer whose public key is known but with whom
    no secret is stored: [decrypt] starts the key exchange and fails with
    'Shared secret not ready yet'.  At the throw the instance is as it
    was, without a secret for the peer; what the call leaves behind is the
    digest promise of the exchange.  Once that promise has resolved,
    whichever function computes the digest, the same call decrypts under
    the digest of the two joined keys.  With no public key for the peer,
    [decrypt] fails and leaves nothing behind. *)
Theorem decrypt_without_secret (codec : TextCodec)
    (encode : jsstring -> Buffer.t) (B : ClientQuantumCrypto.t)
    (b : jsstring) (idA : string) (e : Envelope) :
  ClientQuantumCrypto.publicKey B = Some b -> b <> [] ->
  idA <> ""%string ->
  fromPeer e = Some idA ->
  ClientQuantumCrypto.sharedSecrets B !! idA = None ->
  encoder codec = Some encode ->
  match ClientQuantumCrypto.peers B !! idA with
  | Some (c :: pk) =>
      let exchange :=
        ClientQuantumCrypto.mkExchange idA
          (encode (concat (ClientQuantumCrypto.sort2 b (c :: pk)))) in
      decrypt codec B e
      = (Throw ("Shared secret not ready yet for peer " +:+ idA
                  +:+ ". Message will be decrypted after key exchange."),
         B, [exchange])
      /\ forall digest : Buffer.t -> Buffer.t,
           let B1 := ClientQuantumCrypto.resolve digest exchange B in
           ClientQuantumCrypto.sharedSecrets B1 !! idA
           = Some (digest (encode (concat (ClientQuantumCrypto.sort2 b (c :: pk)))))
           /\ decrypt codec B1 e
              = (decrypt_with codec
                   (digest (encode (concat (ClientQuantumCrypto.sort2 b (c :: pk)))))
                   e,
                 B1, [])
  | _ =>
      decrypt codec B e
      = (Throw ("No public key available for peer " +:+ idA), B, [])
  end.
Proof.
  intros Hb Hbne HidA Hfrom Hnone Henc.
  assert (Ht := HidA). apply truthy_id_Some in Ht.
  assert (Hp : (if truthy_id (fromPeer e) then fromPeer e else forPeer e)
               = Some idA) by (by rewrite Hfrom, Ht).
  destruct (ClientQuantumCrypto.peers B !! idA) as [[|c pk]|] eqn:Hpeer.
  - unfold decrypt. by rewrite Hp, Ht, Hnone, Hpeer.
  - cbn zeta. split.
    + unfold decrypt. rewrite Hp, Ht, Hnone, Hpeer, Henc.
      rewrite (client_exchange encode B b (c :: pk) idA) by done.
      rewrite insert_id by done. rewrite <- Hb. by destruct B.
    + intros digest. split; [apply lookup_insert_eq|].
      apply (decrypt_known codec _ e idA); [done..|apply lookup_insert_eq].
  - unfold decrypt. by rewrite Hp, Ht, Hnone, Hpeer.
Qed.

Lemma decrypt_without_secret_witness :
  let exchange :=
    ClientQuantumCrypto.mkExchange "A"
      (Utf8.encode (concat (ClientQuantumCrypto.sort2 Scenario.pkB Scenario.pkA))) in
  decrypt native Browsers.bob_knows_key Browsers.from_alice
  = (Throw "Shared secret not ready yet for peer A. Message will be decrypted after key exchange.",
     Browsers.bob_knows_key, [exchange])
  /\ forall digest : Buffer.t -> Buffer.t,
       let B1 := ClientQuantumCrypto.resolve digest exchange Browsers.bob_knows_key in
       ClientQuantumCrypto.sharedSecrets B1 !! "A"
       = Some (digest (Utf8.encode
                         (concat (ClientQuantumCrypto.sort2 Scenario.pkB Scenario.pkA))))
       /\ decrypt native B1 Browsers.from_alice
          = (decrypt_with native
               (digest (Utf8.encode
                          (concat (ClientQuantumCrypto.sort2 Scenario.pkB Scenario.pkA))))
               Browsers.from_alice,
             B1, []).
Proof.
  apply (decrypt_without_secret native Utf8.encode Browsers.bob_knows_key
           Scenario.pkB "A" Browsers.from_alice).
  - reflexivity.
  - discriminate.
  - discriminate.
  - reflexivity.
  - reflexivity.
  - reflexivity.
Defined.

(** X17 — a successful [decrypt] leaves the instance as it was and no
    promise behind, read a secret stored for the peer named in the
    envelope, and never returns the empty text. *)
Theorem decrypt_ok (codec : TextCodec) (this this' : ClientQuantumCrypto.t)
    (e : Envelope) (text : jsstring)
    (scheduled : list ClientQuantumCrypto.Exchange) :
  decrypt codec this e = (Ok text, this', scheduled) ->
  this' = this /\ scheduled = [] /\ text <> []
  /\ exists p secret,
       (if truthy_id (fromPeer e) then fromPeer e else forPeer e) = Some p
       /\ ClientQuantumCrypto.sharedSecrets this !! p = Some secret
       /\ decrypt_with codec secret e = Ok text.
Proof.
  unfold decrypt.
  destruct (if truthy_id (fromPeer e) then fromPeer e else forPeer e) as [p|] eqn:Hp;
    [|done].
  destruct (truthy_id (Some p)); [|done].
  destruct (ClientQuantumCrypto.sharedSecrets this !! p) as [secret|] eqn:Hs.
  - intros [= Hd <- <-]. split_and!; [done|done| |by exists p, secret].
    unfold decrypt_with in Hd. destruct (encrypted_bytes codec e); [|done].
    destruct (decode_text codec _); [done|]. by simplify_eq.
  - destruct (ClientQuantumCrypto.peers this !! p) as [[|c pk]|]; [done| |done].
    by destruct (ClientQuantumCrypto.performKeyExchange (encoder codec) this
                   (c :: pk) (Some p)) as [[?|?] ?].
Qed.

Lemma decrypt_ok_witness :
  Browsers.bob1 = Browsers.bob1 /\ @nil ClientQuantumCrypto.Exchange = []
  /\ js "hello" <> []
  /\ exists p secret,
       (if truthy_id (fromPeer Browsers.hello_for_bob)
        then fromPeer Browsers.hello_for_bob
        else forPeer Browsers.hello_for_bob) = Some p
       /\ ClientQuantumCrypto.sharedSecrets Browsers.bob1 !! p = Some secret
       /\ decrypt_with polyfill secret Browsers.hello_for_bob = Ok (js "hello").
Proof.
  apply (decrypt_ok polyfill Browsers.bob1 Browsers.bob1 Browsers.hello_for_bob
           (js "hello") []).
  vm_compute. reflexivity.
Defined.

(** X18 — on a browser without [crypto.subtle.digest] the key exchange
    takes the fallback branch, which hands [simpleHash] a byte array where
    it reads characters: every exchange that gets that far throws after the
    peer's key was recorded, and no secret is ever stored. *)
Theorem fallback_exchange_throws (this : ClientQuantumCrypto.t)
    (own peerPublicKey : jsstring) (p : string) :
  ClientQuantumCrypto.publicKey this = Some own -> own <> [] ->
  p <> ""%string ->
  let result := performKeyExchange_fallback this peerPublicKey (Some p) in
  result.1 = Throw "data.charCodeAt is not a function"
  /\ ClientQuantumCrypto.sharedSecrets result.2
     = ClientQuantumCrypto.sharedSecrets this
  /\ ClientQuantumCrypto.peers result.2
     = <[p := peerPublicKey]> (ClientQuantumCrypto.peers this).
Proof.
  intros Hown Hne Hp. apply truthy_id_Some in Hp. cbn zeta.
  unfold performKeyExchange_fallback. rewrite Hown, Hp.
  destruct own as [|c own']; [done|].
  assert (Hdata : Utf8.encode
            (concat (ClientQuantumCrypto.sort2 (c :: own') peerPublicKey)) <> []).
  { apply encode_not_nil. unfold ClientQuantumCrypto.sort2.
    destruct (ClientQuantumCrypto.compare (c :: own') peerPublicKey);
      cbn [concat]; try done.
    destruct peerPublicKey; done. }
  unfold simpleHash.
  destruct (Utf8.encode _); [done|]. done.
Qed.

Lemma fallback_exchange_throws_witness :
  (performKeyExchange_fallback Browsers.alice Scenario.pkB (Some "B")).1
  = Throw "data.charCodeAt is not a function".
Proof.
  apply (fallback_exchange_throws Browsers.alice Scenario.pkA Scenario.pkB "B");
    [reflexivity|discriminate|discriminate].
Defined.

End ClientCipherFacts.

(** ** What the server puts on the wire *)
Section Sends.
Import Server Invariants.
Context {Payload : Type} (P : string -> Client -> Prop)
  (Q : @Event Payload -> Prop).

Implicit Types (reg : gmap string Client).

Lemma sends_ret {T} (a : T) reg : sends_at P Q (@ret Payload T a) reg.
Proof. intros H. by split. Qed.

Lemma sends_throw {T} (e : string) reg : sends_at P Q (@throw Payload T e) reg.
Proof. intros H. by split. Qed.

Lemma sends_get_client (id : string) reg :
  sends_at P Q (@get_client Payload id) reg.
Proof. intros H. by split. Qed.

Lemma sends_ws_send (to : string) (w : WebSocket) (m : @ServerMsg Payload) reg :
  Q (Send to m) -> sends_at P Q (ws_send to w m) reg.
Proof.
  intros Hq H. unfold ws_send. destruct (readyState w); cbn [fst snd]; split;
    try done. by constructor.
Qed.

Lemma sends_bind {T U} (m : @M Payload T) (f : T -> @M Payload U) reg :
  sends_at P Q m reg ->
  (forall a reg1 out1, m reg = (Ok a, reg1, out1) -> sends_at P Q (f a) reg1) ->
  sends_at P Q (bind m f) reg.
Proof.
  unfold sends_at, bind. intros Hm Hf HP. specialize (Hm HP) as [Hq Hm].
  destruct (m reg) as [[[a|e] reg1] out1] eqn:Em; [|done].
  specialize (Hf a reg1 out1 eq_refl Hm) as [Hq2 Hf].
  destruct (f a reg1) as [[r reg2] out2]. cbn [fst snd] in *.
  split; [by apply Forall_app|done].
Qed.

Lemma sends_try_catch {T} (body : @M Payload T) (h : string -> @M Payload T) reg :
  sends_at P Q body reg ->
  (forall e reg1 out1, body reg = (Throw e, reg1, out1) -> sends_at P Q (h e) reg1) ->
  sends_at P Q (try_catch body h) reg.
Proof.
  unfold sends_at, try_catch. intros Hm Hf HP. specialize (Hm HP) as [Hq Hm].
  destruct (body reg) as [[[a|e] reg1] out1] eqn:Em; [done|].
  specialize (Hf e reg1 out1 eq_refl Hm) as [Hq2 Hf].
  destruct (h e reg1) as [[r reg2] out2]. cbn [fst snd] in *.
  split; [by apply Forall_app|done].
Qed.

Lemma sends_forEach {T} (l : list T) (f : T -> @M Payload unit) reg :
  (forall x reg1, sends_at P Q (f x) reg1) ->
  sends_at P Q (forEach l f) reg.
Proof.
  intros Hf. revert reg. induction l as [|x l IH]; intros reg.
  - apply sends_ret.
  - cbn [forEach]. apply sends_bind; [apply Hf|]. intros. apply IH.
Qed.

Lemma sends_update_client (f : Client -> Client) (id : string) reg :
  (forall c, reg !! id = Some c -> P id c -> P id (f c)) ->
  sends_at P Q (@update_client Payload id f) reg.
Proof.
  intros Hf HP. cbn [update_client fst snd]. split; [done|]. intros i c.
  rewrite lookup_alter. destruct (decide (id = i)) as [->|].
  - destruct (reg !! i) as [c0|] eqn:E; [|done]. cbn. intros [= <-].
    apply Hf; [done|]. by apply (HP i).
  - apply HP.
Qed.

Lemma sends_set_client (id : string) (c : Client) reg :
  P id c -> sends_at P Q (@set_client Payload id c) reg.
Proof.
  intros Hc HP. cbn [set_client fst snd]. split; [done|].
  by apply map_Forall_insert_2.
Qed.

Lemma sends_delete_client (id : string) reg :
  sends_at P Q (@delete_client Payload id) reg.
Proof.
  intros HP. cbn [delete_client fst snd]. split; [done|].
  by apply map_Forall_delete.
Qed.

Lemma sends_broadcastToAll (message : @ServerMsg Payload)
    (exclude : option string) reg :
  (forall to, Q (Send to message)) ->
  sends_at P Q (broadcastToAll message exclude) reg.
Proof.
  intros Hq HP. rewrite broadcastToAll_emit. split; [|done]. cbn [fst snd].
  apply Forall_forall. intros [to m] Hin.
  apply (elem_of_broadcast
           (fun id c => bool_decide (Some id <> exclude) && is_open c)) in Hin
    as [-> _].
  apply Hq.
Qed.

Lemma sends_broadcastToReady (message : @ServerMsg Payload)
    (exclude : option string) reg :
  (forall to, Q (Send to message)) ->
  sends_at P Q (broadcastToReady message exclude) reg.
Proof.
  intros Hq HP. rewrite broadcastToReady_emit. split; [|done]. cbn [fst snd].
  apply Forall_forall. intros [to m] Hin.
  apply (elem_of_broadcast
           (fun id c => bool_decide (Some id <> exclude) && ready c && is_open c))
    in Hin as [-> _].
  apply Hq.
Qed.

Lemma sends_lookup {T} (id : string) (c : Client) (m : @M Payload T) reg :
  reg !! id = Some c ->
  (P id c -> sends_at P Q m reg) ->
  sends_at P Q m reg.
Proof. intros Hreg H HP. apply H; [by apply (HP id)|done]. Qed.

End Sends.

Ltac sends_step :=
  match goal with
  | |- Invariants.sends_at _ _ (Server.ret _) _ => apply sends_ret
  | |- Invariants.sends_at _ _ (Server.throw _) _ => apply sends_throw
  | |- Invariants.sends_at _ _ (Server.get_client _) _ => apply sends_get_client
  | |- Invariants.sends_at _ _ (Server.ws_send _ _ _) _ => apply sends_ws_send
  | |- Invariants.sends_at _ _ (Server.broadcastToAll _ _) _ =>
      apply sends_broadcastToAll; intros ?
  | |- Invariants.sends_at _ _ (Server.broadcastToReady _ _) _ =>
      apply sends_broadcastToReady; intros ?
  | |- Invariants.sends_at _ _ (Server.delete_client _) _ =>
      apply sends_delete_client
  | |- Invariants.sends_at _ _ (Server.bind _ _) _ =>
      apply sends_bind; [|intros ? ? ? ?]
  | |- Invariants.sends_at _ _ (Server.try_catch _ _) _ =>
      apply sends_try_catch; [|intros ? ? ? ?]
  | |- Invariants.sends_at _ _ (Server.forEach _ _) _ =>
      apply sends_forEach; intros ? ?
  | |- Invariants.sends_at _ _ (match ?x with _ => _ end) _ => destruct x eqn:?
  end.

Section Outgoing.
Import Server Invariants.
Context {Payload : Type}.

Implicit Types (reg : gmap string Client).

Local Abbreviation any := (fun (_ : string) (_ : Client) => True).

Lemma sends_any_update (Q : @Event Payload -> Prop) (f : Client -> Client)
    (id : string) reg :
  sends_at any Q (@update_client Payload id f) reg.
Proof. by apply sends_update_client. Qed.

(** X19 — the relay names the true sender: whatever a session sends,
    every relayed message, key announcement and readiness notice that the
    server sends in response carries the id under which that session is
    registered; the message has no field by which to claim another. *)
Theorem relay_names_true_sender (clientId : string)
    (message : option (@ClientMsg Payload)) (rnd : QuantumCrypto.Entropy)
    (now : Z) reg :
  Forall (names_sender clientId)
    (dispatch (on_message clientId message rnd now) reg).2.
Proof.
  cut (sends_at any (names_sender clientId)
         (dispatch (on_message clientId message rnd now)) reg).
  { intros H. by apply H. }
  cbn [dispatch]. unfold handleMessage, handleKeyGeneration,
    handlePublicKeyExchange, handleGroupMessage, handleEncryptedMessage,
    handleSecurityInfoRequest.
  cbn [QuantumCrypto.generateKeyPair].
  repeat first [sends_step | apply sends_any_update]; done.
Qed.

Lemma getSecurityInfo_ready (this this' : QuantumCrypto.t)
    (pk : option jsstring) (peerId : option string) (success : bool) :
  QuantumCrypto.performKeyExchange this pk peerId = (Ok success, this') ->
  QuantumCrypto.si_keyPairGenerated (QuantumCrypto.getSecurityInfo this') = true
  /\ QuantumCrypto.si_sharedSecretEstablished (QuantumCrypto.getSecurityInfo this')
     = true
  /\ QuantumCrypto.si_status (QuantumCrypto.getSecurityInfo this') = "Ready"%string.
Proof.
  unfold QuantumCrypto.performKeyExchange.
  destruct (QuantumCrypto.keyPair this) as [kp|] eqn:Hkp; [|done].
  destruct pk as [k|]; [|done]. intros [= <- <-].
  unfold QuantumCrypto.getSecurityInfo.
  cbn [QuantumCrypto.si_keyPairGenerated QuantumCrypto.si_sharedSecretEstablished
       QuantumCrypto.si_status QuantumCrypto.keyPair QuantumCrypto.sharedSecret].
  rewrite !bool_decide_eq_true_2 by eauto. done.
Qed.

(** X20 — a [key_exchange_complete] notice is sent only for an exchange
    that succeeded: whatever the event and the registry, the security
    information in it says that key pair and secret exist and gives the
    status 'Ready'. *)
Theorem exchange_complete_reports_ready (ev : @ServerEvent Payload) reg :
  Forall reports_ready (dispatch ev reg).2.
Proof.
  cut (sends_at any reports_ready (dispatch ev) reg).
  { intros H. by apply H. }
  destruct ev; cbn [dispatch];
    unfold handleMessage, handleKeyGeneration, initiateKeyExchange,
      handlePublicKeyExchange, handleGroupMessage, handleEncryptedMessage,
      handleSecurityInfoRequest;
    cbn [QuantumCrypto.generateKeyPair];
    repeat first [sends_step | apply sends_any_update | by apply sends_set_client];
    try done.
  all: cbn [reports_ready]; by eapply getSecurityInfo_ready.
Qed.


(** *** Announced keys *)

Lemma consistent_new (w : WebSocket) (now : Z) :
  consistent (mkClient w QuantumCrypto.new None false now None).
Proof. split_and!; try done. cbn. intros [? ?]; done. constructor. Qed.

Lemma consistent_keygen (c : Client) (rnd : QuantumCrypto.Entropy) :
  consistent c ->
  consistent
    (set_publicKey
       (set_crypto c
          (QuantumCrypto.mk
             (Some (QuantumCrypto.mkKeyPair (QuantumCrypto.rnd_private rnd)
                      (QuantumCrypto.rnd_public rnd)))
             (QuantumCrypto.sharedSecret (crypto c))
             (Some (QuantumCrypto.mkSignatureKey (QuantumCrypto.rnd_sig_private rnd)
                      (QuantumCrypto.rnd_sig_public rnd)))
             (QuantumCrypto.sharedSecrets (crypto c))))
       (Some (Buffer.to_hex (QuantumCrypto.rnd_public rnd)))).
Proof.
  intros (H1 & H2 & H3 & H4 & H5). unfold consistent.
  cbn [set_publicKey set_crypto crypto publicKey ready sentPublicKeyTo
       QuantumCrypto.sharedSecrets QuantumCrypto.sharedSecret
       QuantumCrypto.keyPair QuantumCrypto.kp_public].
  split_and!; eauto.
Qed.

Lemma consistent_exchange (c : Client) (kp : QuantumCrypto.KeyPair)
    (secret : Buffer.t) (r : bool) :
  consistent c ->
  QuantumCrypto.keyPair (crypto c) = Some kp ->
  (r = true \/ r = ready c) ->
  consistent
    (set_ready
       (set_crypto c
          (QuantumCrypto.mk (Some kp) (Some secret)
             (QuantumCrypto.signatureKey (crypto c))
             (QuantumCrypto.sharedSecrets (crypto c)))) r).
Proof.
  intros (H1 & H2 & H3 & H4 & H5) Hkp Hr. unfold consistent.
  cbn [set_ready set_crypto crypto publicKey ready sentPublicKeyTo
       QuantumCrypto.sharedSecrets QuantumCrypto.sharedSecret
       QuantumCrypto.keyPair].
  split_and!; eauto. by rewrite H4, Hkp.
Qed.

Lemma consistent_sent (c : Client) (clientId : string) :
  consistent c ->
  includes (sentPublicKeyTo c) clientId = false ->
  consistent
    (set_sentPublicKeyTo c (Some (default [] (sentPublicKeyTo c) ++ [clientId]))).
Proof.
  intros (H1 & H2 & H3 & H4 & H5) Hi. unfold consistent.
  cbn [set_sentPublicKeyTo crypto publicKey ready sentPublicKeyTo].
  split_and!; eauto. cbn [default from_option id].
  apply NoDup_app. split_and!; [done| |apply NoDup_singleton].
  intros x Hx ->%list_elem_of_singleton.
  unfold includes in Hi.
  destruct (sentPublicKeyTo c) as [ids|]; [|by inversion Hx].
  cbn in Hx. by apply bool_decide_eq_false in Hi.
Qed.

Lemma vouched_handleKeyGeneration (evs : list (@ServerEvent Payload))
    (clientId : string) (rnd : QuantumCrypto.Entropy) (now : Z) reg :
  (exists ev, ev ∈ evs /\ draws ev = Some (clientId, rnd)) ->
  sends_at (key_on_record evs) (vouched evs)
    (handleKeyGeneration clientId rnd now) reg.
Proof.
  intros (ev & Hev & Hdraw).
  assert (Hgen : generated_key evs clientId
            (Some (Buffer.to_hex (QuantumCrypto.rnd_public rnd))))
    by (by exists ev, rnd).
  unfold handleKeyGeneration.
  apply sends_bind; [apply sends_get_client|].
  intros o reg1 out1 Hget. unfold get_client in Hget. simplify_eq.
  destruct (reg1 !! clientId) as [client|] eqn:Hreg; [|apply sends_ret].
  cbn [QuantumCrypto.generateKeyPair QuantumCrypto.ki_publicKey
       QuantumCrypto.kp_public].
  repeat sends_step; try done.
  apply sends_update_client. intros c Hc [Hcons _].
  assert (c = client) as -> by congruence. split.
  - by apply consistent_keygen.
  - cbn [set_publicKey publicKey]. by intros k [= <-].
Qed.

Lemma vouched_handlePublicKeyExchange (evs : list (@ServerEvent Payload))
    (clientId : string) (peerPublicKey : option jsstring)
    (peerId : option string) (now : Z) reg :
  sends_at (key_on_record evs) (vouched evs)
    (handlePublicKeyExchange clientId peerPublicKey peerId now) reg.
Proof.
  unfold handlePublicKeyExchange.
  apply sends_bind; [apply sends_get_client|].
  intros o reg1 out1 Hget. unfold get_client in Hget. simplify_eq.
  destruct (reg1 !! clientId) as [client|] eqn:Hreg; [|apply sends_ret].
  apply (sends_lookup _ _ clientId client); [done|]. intros [Hcons Hkey].
  apply sends_try_catch; [|intros; by apply sends_ws_send].
  destruct (QuantumCrypto.performKeyExchange _ _ _) as [[success|e] crypto']
    eqn:Hperf; [|apply sends_throw].
  unfold QuantumCrypto.performKeyExchange in Hperf.
  destruct (QuantumCrypto.keyPair (crypto client)) as [kp|] eqn:Hkp; [|done].
  destruct peerPublicKey as [pk|]; [|done]. simplify_eq.
  assert (Hpub : generated_key evs clientId (publicKey client)).
  { destruct Hcons as (_ & _ & _ & H4 & _). rewrite Hkp in H4. cbn in H4.
    rewrite H4. by apply Hkey. }
  apply sends_bind.
  { apply sends_update_client. intros c Hc [Hc1 Hc2].
    assert (c = client) as -> by congruence. split; [|done].
    apply (consistent_exchange client kp _ (ready client)); auto. }
  intros [] reg2 out2 Hupd. unfold update_client in Hupd. simplify_eq.
  apply sends_bind.
  { apply sends_update_client. intros c Hc [Hc1 Hc2].
    rewrite lookup_alter_eq, Hreg in Hc. cbn in Hc. simplify_eq. split; [|done].
    apply (consistent_exchange client kp _ true); auto. }
  intros [] reg3 out3 Hupd. clear Hupd.
  apply sends_bind; [by apply sends_ws_send|]. intros [] reg4 out4 _.
  destruct peerId as [peer|]; [|apply sends_ret].
  destruct (truthy_id (Some peer)); [|apply sends_ret].
  apply sends_bind; [apply sends_get_client|].
  intros p reg5 out5 Hget. unfold get_client in Hget. simplify_eq.
  destruct (reg5 !! peer) as [peerClient|] eqn:Hpeer; [|apply sends_ret].
  destruct (is_open peerClient); [|apply sends_ret].
  apply sends_bind; [by apply sends_ws_send|]. intros [] reg6 out6 Hsend.
  assert (reg6 = reg5) as ->.
  { unfold ws_send in Hsend. destruct (readyState (ws peerClient)); by simplify_eq. }
  destruct (negb _ && negb _) eqn:Hcheck; [|apply sends_ret].
  apply andb_true_iff in Hcheck as [_ Hi]. apply negb_true_iff in Hi.
  apply sends_bind; [|intros; by apply sends_ws_send].
  apply sends_update_client. intros c Hc [Hc1 Hc2].
  assert (c = peerClient) as -> by congruence. split; [|done].
  by apply consistent_sent.
Qed.

Lemma vouched_dispatch (evs : list (@ServerEvent Payload))
    (ev : @ServerEvent Payload) reg :
  ev ∈ evs ->
  sends_at (key_on_record evs) (vouched evs) (dispatch ev) reg.
Proof.
  intros Hev.
  destruct ev as [clientId now|clientId message rnd now|clientId now
                 |clientId now|clientId rnd now|clientId state];
    cbn [dispatch].
  - apply sends_bind; [|intros; by apply sends_ws_send].
    apply sends_set_client. split; [apply consistent_new|done].
  - apply sends_bind; [apply sends_get_client|].
    intros o reg1 out1 _. destruct o as [client|]; [|apply sends_ret].
    apply sends_try_catch; [|intros; by apply sends_ws_send].
    destruct message as [m|]; [|apply sends_throw].
    unfold handleMessage. apply sends_bind; [apply sends_get_client|].
    intros o reg2 out2 _. destruct o; [|apply sends_ret].
    destruct m.
    + apply vouched_handleKeyGeneration. eauto.
    + apply vouched_handlePublicKeyExchange.
    + unfold handleEncryptedMessage. repeat sends_step; done.
    + unfold handleGroupMessage. repeat sends_step; done.
    + unfold handleSecurityInfoRequest. repeat sends_step; done.
    + apply sends_ret.
  - repeat sends_step; done.
  - unfold initiateKeyExchange. repeat sends_step; done.
  - apply vouched_handleKeyGeneration. eauto.
  - apply sends_update_client. by intros c _ H.
Qed.

Lemma run_sends (P : string -> Client -> Prop) (Q : @Event Payload -> Prop)
    (R : @ServerEvent Payload -> Prop) (evs : list (@ServerEvent Payload)) reg :
  (forall ev reg1, R ev -> sends_at P Q (dispatch ev) reg1) ->
  Forall R evs ->
  map_Forall P reg ->
  Forall Q (run reg evs).2 /\ map_Forall P (run reg evs).1.
Proof.
  intros Hstep. revert reg. induction evs as [|ev rest IH]; intros reg HR HP;
    [by split|].
  apply Forall_cons in HR as [Hev HR].
  cbn [run]. destruct (Hstep ev reg Hev HP) as [Hq HP1].
  destruct (dispatch ev reg) as [[[[]|e] reg1] out1]; cbn [fst snd] in *; [|done].
  destruct (IH reg1 HR HP1) as [Hq2 HP2]. destruct (run reg1 rest).
  cbn [fst snd] in *. split; [by apply Forall_app|done].
Qed.

(** X21 — what holds of every entry of the registry after any sequence
    of events from the start of the server: the instance has no per-peer
    secrets, so [hasSharedSecretWith] answers false for every id; a session
    marked ready holds a key pair and a secret and reports 'Ready'; the
    public key on record is the hex text of the key pair's public part; and
    no id occurs twice in [sentPublicKeyTo]. *)
Theorem registry_consistent (evs : list (@ServerEvent Payload))
    (id : string) (c : Client) :
  (run ∅ evs).1 !! id = Some c ->
  (forall p, QuantumCrypto.hasSharedSecretWith (crypto c) p = false)
  /\ (ready c = true ->
      is_Some (QuantumCrypto.keyPair (crypto c))
      /\ is_Some (QuantumCrypto.sharedSecret (crypto c))
      /\ QuantumCrypto.si_status (QuantumCrypto.getSecurityInfo (crypto c))
         = "Ready"%string)
  /\ publicKey c
     = (fun kp => Buffer.to_hex (QuantumCrypto.kp_public kp))
         <$> QuantumCrypto.keyPair (crypto c)
  /\ NoDup (default [] (sentPublicKeyTo c)).
Proof.
  intros Hc.
  destruct (run_sends (key_on_record evs) (vouched evs) (fun ev => ev ∈ evs)
              evs ∅) as [_ H].
  { intros. by apply vouched_dispatch. }
  { by apply Forall_forall. }
  { apply map_Forall_empty. }
  destruct (H id c Hc) as [(H1 & H2 & H3 & H4 & H5) _].
  split_and!; try done.
  - intros p. unfold QuantumCrypto.hasSharedSecretWith. by rewrite H1.
  - intros Hr. specialize (H3 Hr). specialize (H2 H3).
    split_and!; try done. unfold QuantumCrypto.getSecurityInfo.
    cbn [QuantumCrypto.si_status]. by rewrite !bool_decide_eq_true_2.
Qed.

(** X22 — the server announces only keys it generated: in any run from
    the start of the server, every [peer_public_key] message carries the
    hex text of a public key drawn by a key generation for the session the
    message names.  A [peerPublicKey] received from a client is never
    passed on, and no announcement is made without a key. *)
Theorem announced_keys_are_generated (evs : list (@ServerEvent Payload))
    (to clientId : string) (k : option jsstring) (algorithm : string) (now : Z) :
  Send to (peer_public_key clientId k algorithm now) ∈ (run ∅ evs).2 ->
  exists ev rnd,
    ev ∈ evs /\ draws ev = Some (clientId, rnd)
    /\ k = Some (Buffer.to_hex (QuantumCrypto.rnd_public rnd)).
Proof.
  intros Hin.
  destruct (run_sends (key_on_record evs) (vouched evs) (fun ev => ev ∈ evs)
              evs ∅) as [Hq _].
  - intros. by apply vouched_dispatch.
  - by apply Forall_forall.
  - apply map_Forall_empty.
  - rewrite Forall_forall in Hq. exact (Hq _ Hin).
Qed.

(** *** No uncaught exception *)

Local Abbreviation connected := (fun (_ : string) => connected_socket).
Local Abbreviation anything := (fun (_ : @Event Payload) => True).

Lemma connected_update (f : Client -> Client) (id : string) reg :
  (forall c, ws (f c) = ws c) ->
  sends_at connected anything (@update_client Payload id f) reg.
Proof.
  intros Hf. apply sends_update_client. intros c _. unfold connected_socket.
  by rewrite Hf.
Qed.

Lemma connected_dispatch (ev : @ServerEvent Payload) reg :
  reconnects ev = false ->
  sends_at connected anything (dispatch ev) reg.
Proof.
  intros Hev.
  destruct ev as [clientId now|clientId message rnd now|clientId now
                 |clientId now|clientId rnd now|clientId state];
    cbn [dispatch];
    unfold handleMessage, handleKeyGeneration, initiateKeyExchange,
      handlePublicKeyExchange, handleGroupMessage, handleEncryptedMessage,
      handleSecurityInfoRequest;
    cbn [QuantumCrypto.generateKeyPair];
    repeat first [sends_step | by apply connected_update
                 | by apply sends_set_client];
    try done.
  apply sends_update_client. intros c _ _. unfold connected_socket.
  cbn [set_ws ws readyState]. by destruct state.
Qed.

Lemma ws_send_returns (to : string) (c : Client) (m : @ServerMsg Payload) reg :
  connected_socket c -> exists out, ws_send to (ws c) m reg = (Ok tt, reg, out).
Proof.
  unfold connected_socket, ws_send. destruct (readyState (ws c)); [done|eauto..].
Qed.

Lemma try_catch_returns {T} (body : @M Payload T) (h : string -> @M Payload T) reg :
  (forall e reg1, exists a reg2 out, h e reg1 = (Ok a, reg2, out)) ->
  exists a reg2 out, try_catch body h reg = (Ok a, reg2, out).
Proof.
  intros Hh. unfold try_catch.
  destruct (body reg) as [[[a|e] reg1] out1]; [eauto|].
  destruct (Hh e reg1) as (a & reg2 & out & ->). eauto.
Qed.

Lemma bind_get_client {T} (id : string) (f : option Client -> @M Payload T) reg :
  bind (get_client id) f reg = f (reg !! id) reg.
Proof.
  unfold bind, get_client. by destruct (f (reg !! id) reg) as [[r reg2] out].
Qed.

Lemma handleKeyGeneration_returns (clientId : string)
    (rnd : QuantumCrypto.Entropy) (now : Z) reg :
  map_Forall (fun _ => connected_socket) reg ->
  exists a reg2 out,
    @handleKeyGeneration Payload clientId rnd now reg = (Ok a, reg2, out).
Proof.
  intros HP. unfold handleKeyGeneration. rewrite bind_get_client.
  destruct (reg !! clientId) as [client|] eqn:Hreg; [|unfold ret; eauto].
  apply try_catch_returns. intros e reg1.
  destruct (ws_send_returns clientId client
              (error "Key generation failed" (Some e)) reg1) as [out ->]; [|eauto].
  by apply (HP clientId).
Qed.

Lemma dispatch_returns (ev : @ServerEvent Payload) reg :
  map_Forall (fun _ => connected_socket) reg ->
  exists reg1 out, dispatch ev reg = (Ok tt, reg1, out).
Proof.
  intros HP.
  destruct ev as [clientId now|clientId message rnd now|clientId now
                 |clientId now|clientId rnd now|clientId state];
    cbn [dispatch].
  - unfold bind, set_client, ws_send. cbn. eauto.
  - rewrite bind_get_client.
    destruct (reg !! clientId) as [client|] eqn:Hreg; [|unfold ret; eauto].
    assert (Hr : exists a reg2 out,
      try_catch
        (match message with
         | None => throw "Unexpected token in JSON"
         | Some m => handleMessage clientId m rnd now
         end)
        (fun e => ws_send clientId (ws client)
                    (error "Failed to process message" (Some e))) reg
      = (Ok a, reg2, out)).
    { apply try_catch_returns. intros e reg1.
      destruct (ws_send_returns clientId client
                  (error "Failed to process message" (Some e)) reg1) as [out ->];
        [|eauto].
      by apply (HP clientId). }
    destruct Hr as ([] & reg2 & out & ->). eauto.
  - unfold bind, delete_client. rewrite broadcastToAll_emit. eauto.
  - unfold initiateKeyExchange. rewrite bind_get_client.
    destruct (reg !! clientId) as [client|] eqn:Hreg; [|unfold ret; eauto].
    assert (Hr : exists a reg2 out,
      try_catch (ws_send clientId (ws client) (@key_generation_start Payload now))
        (fun _ => ret tt) reg = (Ok a, reg2, out)).
    { apply try_catch_returns. intros. unfold ret. eauto. }
    destruct Hr as ([] & reg2 & out & ->). eauto.
  - destruct (handleKeyGeneration_returns clientId rnd now reg HP)
      as ([] & reg2 & out & ->). eauto.
  - unfold update_client. eauto.
Qed.

Lemma survives_connected (evs : list (@ServerEvent Payload)) reg :
  Forall (fun ev => reconnects ev = false) evs ->
  map_Forall (fun _ => connected_socket) reg ->
  survives reg evs = true.
Proof.
  revert reg. induction evs as [|ev rest IH]; intros reg Hevs HP; [done|].
  apply Forall_cons in Hevs as [Hev Hevs]. cbn [survives].
  destruct (connected_dispatch ev reg Hev HP) as [_ Hkeep].
  destruct (dispatch_returns ev reg HP) as (reg1 & out & E).
  rewrite E in Hkeep |- *. by apply IH.
Qed.

(** X23 — the server never dies of an exception: whatever the clients
    send (text that is not JSON, unknown types, requests without their
    fields, requests from sessions without keys) and in whatever order
    connections, messages, timers and disconnections arrive, every callback
    returns normally.  The one exception the handlers cannot catch is that
    of [ws.send] on a socket that is still connecting, a state no socket
    handed to the server is in. *)
Theorem server_survives (evs : list (@ServerEvent Payload)) :
  Forall (fun ev => reconnects ev = false) evs ->
  survives ∅ evs = true
  /\ forall id c, (run ∅ evs).1 !! id = Some c -> readyState (ws c) <> CONNECTING.
Proof.
  intros Hevs. split.
  - apply survives_connected; [done|apply map_Forall_empty].
  - apply (run_sends connected anything (fun ev => reconnects ev = false));
      [intros; by apply connected_dispatch|done|apply map_Forall_empty].
Qed.

(** X24 — a disconnection removes the session from the registry and
    tells exactly the remaining sessions whose connection is open. *)
Theorem close_notifies_the_others (clientId : string) (now : Z) reg :
  exists out,
    @dispatch Payload (on_close clientId now) reg
    = (Ok tt, delete clientId reg, out)
    /\ forall to m,
         Send to m ∈ out <->
         m = user_left now /\ to <> clientId
         /\ exists c, reg !! to = Some c /\ is_open c = true.
Proof.
  cbn [dispatch]. unfold bind, delete_client. rewrite broadcastToAll_emit.
  cbn [app]. eexists. split; [done|]. intros to m.
  rewrite (elem_of_broadcast
             (fun id c => bool_decide (Some id <> Some clientId) && is_open c)).
  split.
  - intros (-> & c & Hc & Hk). apply andb_true_iff in Hk as [Hne Hopen].
    apply bool_decide_eq_true in Hne.
    apply lookup_delete_Some in Hc as [Hid Hc]. eauto 10.
  - intros (-> & Hne & c & Hc & Hopen). split; [done|]. exists c. split.
    + by apply lookup_delete_Some.
    + rewrite Hopen, bool_decide_eq_true_2; [done|congruence].
Qed.

(** X25 — a key generation for a registered session with an open
    connection: the entry gets the new key pair and its hex text while
    readiness and secrets stay as they were, the session is told its new
    public key, and every other session with an open connection is sent
    that key. *)
Theorem keygen_publishes (clientId : string) (client : Client)
    (rnd : QuantumCrypto.Entropy) (now : Z) reg :
  reg !! clientId = Some client ->
  is_open client = true ->
  let publicKey := Buffer.to_hex (QuantumCrypto.rnd_public rnd) in
  let entry :=
    mkClient (ws client) (QuantumCrypto.generateKeyPair (crypto client) rnd).1
      (Some publicKey) (ready client) (joinedAt client) (sentPublicKeyTo client) in
  exists out,
    @handleKeyGeneration Payload clientId rnd now reg
    = (Ok tt, <[clientId := entry]> reg,
       Send clientId (keys_generated publicKey "Kyber-1024" now) :: out)
    /\ forall to m,
         Send to m ∈ out <->
         m = peer_public_key clientId (Some publicKey) "Kyber-1024" now
         /\ to <> clientId
         /\ exists c, reg !! to = Some c /\ is_open c = true.
Proof.
  intros Hreg Hopen. cbn zeta. unfold handleKeyGeneration.
  unfold bind at 1. unfold get_client. rewrite Hreg.
  unfold try_catch. cbn [QuantumCrypto.generateKeyPair].
  unfold bind, update_client. rewrite ws_send_open by done.
  rewrite broadcastToAll_emit. cbn [fst snd app].
  eexists. split.
  - f_equal. f_equal. apply map_eq. intros i.
    rewrite lookup_alter. destruct (decide (clientId = i)) as [->|].
    + by rewrite Hreg, lookup_insert_eq.
    + by rewrite lookup_insert_ne.
  - intros to m.
    rewrite (elem_of_broadcast
               (fun id c => bool_decide (Some id <> Some clientId) && is_open c)).
    split.
    + intros (-> & c & Hc & Hk). apply andb_true_iff in Hk as [Hne Hc'].
      apply bool_decide_eq_true in Hne.
      assert (to <> clientId) by congruence.
      rewrite lookup_alter_ne in Hc by done. eauto 10.
    + intros (-> & Hne & c & Hc & Hc'). split; [done|]. exists c. split.
      * by rewrite lookup_alter_ne.
      * rewrite Hc', bool_decide_eq_true_2; [done|congruence].
Qed.

(** X26 — events for an id that is not registered, such as a timer
    that fires after the session left or a message that arrives after the
    disconnection was handled, do nothing: nothing is sent and the
    registry stays as it is. *)
Theorem departed_session_ignored (clientId : string)
    (message : option (@ClientMsg Payload)) (rnd : QuantumCrypto.Entropy)
    (now : Z) reg :
  reg !! clientId = None ->
  dispatch (on_message clientId message rnd now) reg = (Ok tt, reg, [])
  /\ @dispatch Payload (on_initiate_timer clientId now) reg = (Ok tt, reg, [])
  /\ @dispatch Payload (on_keygen_timer clientId rnd now) reg = (Ok tt, reg, [])
  /\ @dispatch Payload (on_socket_state clientId CLOSED) reg = (Ok tt, reg, []).
Proof.
  intros Hreg. cbn [dispatch].
  unfold initiateKeyExchange, handleKeyGeneration.
  rewrite !bind_get_client, Hreg. split_and!; try done.
  unfold update_client. f_equal. f_equal. apply map_eq. intros i.
  rewrite lookup_alter. destruct (decide (clientId = i)) as [->|]; [|done].
  by rewrite Hreg.
Qed.

End Outgoing.

Section OutgoingExamples.
Import Server.

Lemma announced_keys_are_generated_witness :
  exists ev rnd,
    ev ∈ Scenario.handshake /\ Invariants.draws ev = Some ("A", rnd)
    /\ Some Scenario.pkA = Some (Buffer.to_hex (QuantumCrypto.rnd_public rnd)).
Proof.
  apply (announced_keys_are_generated Scenario.handshake "B" "A"
           (Some Scenario.pkA) "Kyber-1024" 5).
  apply list_elem_of_In. vm_compute.
  repeat first [left; reflexivity | right].
Defined.

Lemma registry_consistent_witness :
  (forall p,
     QuantumCrypto.hasSharedSecretWith
       (crypto (Scenario.sessionA Scenario.registry)) p = false)
  /\ (ready (Scenario.sessionA Scenario.registry) = true ->
      is_Some (QuantumCrypto.keyPair (crypto (Scenario.sessionA Scenario.registry)))
      /\ is_Some (QuantumCrypto.sharedSecret
                    (crypto (Scenario.sessionA Scenario.registry)))
      /\ QuantumCrypto.si_status
           (QuantumCrypto.getSecurityInfo
              (crypto (Scenario.sessionA Scenario.registry)))
         = "Ready"%string)
  /\ publicKey (Scenario.sessionA Scenario.registry)
     = (fun kp => Buffer.to_hex (QuantumCrypto.kp_public kp))
         <$> QuantumCrypto.keyPair (crypto (Scenario.sessionA Scenario.registry))
  /\ NoDup (default [] (sentPublicKeyTo (Scenario.sessionA Scenario.registry))).
Proof.
  apply (registry_consistent Scenario.handshake "A").
  vm_compute. reflexivity.
Defined.

Lemma server_survives_witness :
  Invariants.survives ∅ Scenario.handshake = true
  /\ forall id c,
       (run ∅ Scenario.handshake).1 !! id = Some c ->
       readyState (ws c) <> CONNECTING.
Proof.
  apply (server_survives Scenario.handshake).
  repeat constructor.
Defined.

Lemma keygen_publishes_witness :
  let publicKey := Buffer.to_hex (QuantumCrypto.rnd_public Scenario.rndC) in
  let client := Scenario.sessionC Scenario.registry in
  let entry :=
    mkClient (ws client) (QuantumCrypto.generateKeyPair (crypto client) Scenario.rndC).1
      (Some publicKey) (ready client) (joinedAt client) (sentPublicKeyTo client) in
  exists out,
    @handleKeyGeneration QuantumCrypto.EncryptedData "C" Scenario.rndC 9
      Scenario.registry
    = (Ok tt, <["C" := entry]> Scenario.registry,
       Send "C" (keys_generated publicKey "Kyber-1024" 9) :: out)
    /\ forall to m,
         Send to m ∈ out <->
         m = peer_public_key "C" (Some publicKey) "Kyber-1024" 9
         /\ to <> "C"
         /\ exists c, Scenario.registry !! to = Some c /\ is_open c = true.
Proof.
  apply (keygen_publishes "C" (Scenario.sessionC Scenario.registry)
           Scenario.rndC 9 Scenario.registry); vm_compute; reflexivity.
Defined.

Lemma departed_session_ignored_witness :
  @dispatch QuantumCrypto.EncryptedData
    (on_keygen_timer "D" Scenario.rndC 9) Scenario.registry
  = (Ok tt, Scenario.registry, []).
Proof.
  apply (departed_session_ignored "D" None Scenario.rndC 9 Scenario.registry).
  vm_compute. reflexivity.
Defined.

End OutgoingExamples.

(** ** From one browser through the relay to another *)
Section EndToEnd.
Import Buffer ClientCipher Server.

(** The envelope [encrypt] builds for [peerId] under [secret]. *)
Local Abbreviation envelope_for codec m now peerId secret :=
  (mkEnvelope
     (EString (hexString (QuantumCrypto.xor_stream secret (encode_text codec m))))
     (Some "XOR-Demo"%string) now (Some peerId) None (Some "hex"%string)).

Lemma encryptedMessages_entries (codec : TextCodec) (this : ClientQuantumCrypto.t)
    (m : jsstring) (now : Z) :
  encryptedMessages codec this m now
  = Ok (map (fun '(peerId, secret) =>
               mkEntry peerId (envelope_for codec m now peerId secret))
          (map_to_list (ClientQuantumCrypto.sharedSecrets this))).
Proof.
  unfold encryptedMessages.
  assert (H : Forall (fun '(p, s) => ClientQuantumCrypto.sharedSecrets this !! p = Some s)
                (map_to_list (ClientQuantumCrypto.sharedSecrets this))).
  { apply Forall_forall. intros [p s]. apply elem_of_map_to_list. }
  induction (map_to_list (ClientQuantumCrypto.sharedSecrets this)) as [|[p s] l IH];
    [done|].
  apply Forall_cons in H as [Hp Hl]. cbn [fmap list_fmap fst foldr map].
  unfold encrypt at 1. rewrite Hp.
  fold (@fmap list _ _ _ (@fst string Buffer.t) l).
  by rewrite (IH Hl).
Qed.

(** X27 — the whole path of a chat message.  Two browsers have run the
    key exchange with each other's public key and their digest promises
    have resolved, both computing the digest by the same function (both
    through [crypto.subtle] or both through the polyfill); both are
    registered with open connections.  The entries one browser builds for
    its message, handed to the relay as a group message, make the relay
    deliver to the other browser an envelope naming the sender, and every
    envelope so delivered is decrypted by the receiver to the text that
    was sent. *)
Theorem relayed_message_decrypts (codecA codecB : TextCodec)
    (digest : Buffer.t -> Buffer.t)
    (A B : ClientQuantumCrypto.t) (a b : jsstring) (idA idB : string)
    (m : jsstring) (now sent : Z) (reg : gmap string Client)
    (sessionA sessionB : Client) :
  codecA ∈ [native; polyfill] -> codecB ∈ [native; polyfill] ->
  ClientQuantumCrypto.publicKey A = Some a -> a <> [] ->
  Utf8.well_formed a = true ->
  ClientQuantumCrypto.publicKey B = Some b -> b <> [] ->
  Utf8.well_formed b = true ->
  idA <> ""%string -> idB <> ""%string ->
  m <> [] -> Utf8.well_formed m = true ->
  (codecB = native -> head m <> Some 0xFEFF%N) ->
  reg !! idA = Some sessionA -> is_open sessionA = true ->
  reg !! idB = Some sessionB -> is_open sessionB = true ->
  let A' := ClientQuantumCrypto.exchanged (encoder codecA) digest A b (Some idB) in
  let B' := ClientQuantumCrypto.exchanged (encoder codecB) digest B a (Some idA) in
  exists entries,
    encryptedMessages codecA A' m now = Ok entries
    /\ (exists e,
          Send idB (message_received_fromPeer idA e sent)
            ∈ (handleGroupMessage idA (Some entries) sent reg).2)
    /\ forall e t,
         Send idB (message_received_fromPeer idA e t)
           ∈ (handleGroupMessage idA (Some entries) sent reg).2 ->
         decrypt codecB B' (with_sender (Some idA) e) = (Ok m, B', []).
Proof.
  intros HcA HcB Ha Hane Hwa Hb Hbne Hwb HidA HidB Hm Hwf Hbom HrA HoA HrB HoB.
  cbn zeta.
  rewrite (client_exchanged codecA digest A a b idB),
    (client_exchanged codecB digest B b a idA) by done.
  rewrite encryptedMessages_entries.
  cbn [ClientQuantumCrypto.sharedSecrets].
  set (secret := digest (Utf8.encode (concat (ClientQuantumCrypto.sort2 a b)))).
  set (secrets := <[idB := secret]> (ClientQuantumCrypto.sharedSecrets A)).
  eexists. split; [done|].
  rewrite (handleGroupMessage_open reg idA sessionA) by done. cbn [snd].
  assert (Hmem : forall e t,
    Send idB (message_received_fromPeer idA e t)
      ∈ (map (fun '(peerId, secret) =>
                mkEntry peerId (envelope_for codecA m now peerId secret))
           (map_to_list secrets)
         ≫= (fun entry =>
               match reg !! forPeer entry with
               | Some recipient =>
                   if is_open recipient
                   then [Send (forPeer entry)
                           (message_received_fromPeer idA (data entry) sent)]
                   else []
               | None => []
               end))
        ++ [Send idA (message_sent None sent)]
    <-> e = envelope_for codecA m now idB secret /\ t = sent).
  { intros e t. rewrite elem_of_app, list_elem_of_singleton, list_elem_of_bind.
    split.
    - intros [(entry & Hsend & Hentry)|?]; [|done].
      apply list_elem_of_fmap in Hentry as ([p s] & -> & Hps).
      apply elem_of_map_to_list in Hps. cbn [forPeer data] in Hsend.
      destruct (reg !! p) as [r|]; [|by inversion Hsend].
      destruct (is_open r); [|by inversion Hsend].
      apply list_elem_of_singleton in Hsend. simplify_eq.
      unfold secrets in Hps. rewrite lookup_insert_eq in Hps. by simplify_eq.
    - intros [-> ->]. left.
      exists (mkEntry idB (envelope_for codecA m now idB secret)).
      split.
      + cbn [forPeer data]. rewrite HrB, HoB. by apply list_elem_of_singleton.
      + apply list_elem_of_fmap.
        exists (idB, secret). split; [done|].
        apply elem_of_map_to_list. apply lookup_insert_eq. }
  split.
  - eexists. apply Hmem. done.
  - intros e t [-> ->]%Hmem.
    assert (Ht := HidA). apply truthy_id_Some in Ht.
    unfold with_sender. cbn [fromPeer]. change (truthy_id None) with false.
    cbn [negb andb]. rewrite Ht.
    cbn [encrypted algorithm timestamp forPeer fromPeer format].
    rewrite (decrypt_known codecB _ _ idA
               (digest (Utf8.encode (concat (ClientQuantumCrypto.sort2 b a)))));
      [|cbn [fromPeer]; by rewrite Ht|done|apply lookup_insert_eq].
    f_equal. f_equal. rewrite (string_sort2_concat b a).
    by apply decrypt_with_encrypted.
Qed.

Lemma relayed_message_decrypts_witness :
  exists entries,
    encryptedMessages native Browsers.alice1 (js "hello") 7 = Ok entries
    /\ (exists e,
          Send "B" (message_received_fromPeer "A" e 8)
            ∈ (handleGroupMessage "A" (Some entries) 8 Scenario.registry).2)
    /\ forall e t,
         Send "B" (message_received_fromPeer "A" e t)
           ∈ (handleGroupMessage "A" (Some entries) 8 Scenario.registry).2 ->
         decrypt polyfill Browsers.bob1 (with_sender (Some "A") e)
         = (Ok (js "hello"), Browsers.bob1, []).
Proof.
  apply (relayed_message_decrypts native polyfill NodeCrypto.sha256
           Browsers.alice Browsers.bob
           Scenario.pkA Scenario.pkB "A" "B" (js "hello") 7 8 Scenario.registry
           (Scenario.sessionA Scenario.registry)
           (Scenario.sessionB Scenario.registry)).
  - apply list_elem_of_here.
  - apply list_elem_of_further, list_elem_of_here.
  - reflexivity.
  - discriminate.
  - reflexivity.
  - reflexivity.
  - discriminate.
  - reflexivity.
  - discriminate.
  - discriminate.
  - discriminate.
  - reflexivity.
  - discriminate.
  - vm_compute. reflexivity.
  - vm_compute. reflexivity.
  - vm_compute. reflexivity.
  - vm_compute. reflexivity.
Defined.

End EndToEnd.
